(** * Bounded top-K selection of resume bullets (src/tools/heap-filter.js)

    A shallow embedding of the [MinHeap] class and of the two selection
    functions [filterBulletsByCompany] and [filterBulletsWithHeap], and the
    properties of them that the specification states.

    Modelling choices.
    - A JavaScript number is a canonical rational [Qc]: every finite double
      is one, and [>=], [<] and the sign of a difference of two finite
      doubles agree with the exact ones.  A property that is missing reads
      as [undefined], which every comparison turns into [NaN]: the value of
      [relevance_score] is an [option Qc], [None] for the missing property,
      and the arithmetic below gives [None] the behaviour of [NaN].
    - Bullets are objects, handled by reference.  An array holds references
      ([ref]) and lives at a location ([loc]) of the [store]; the bullets
      themselves are read through the store as well.
    - A [MinHeap] object has one property, its backing array: the methods are
      written over the contents of that array, passed in and returned, and
      the object is identified with the location of the array.
    - [companies] and [result] are objects created by [{}] and used as maps
      from keys to arrays: finite maps, read through [Js.get], which also
      sees the properties they inherit from [Object.prototype].
    - [topK] is an integer of either sign, [minScore] a number.
    - Code that can throw or loop returns an [outcome]; the loops take fuel,
      and are shown below to have enough of it. *)

From Stdlib Require Import ZArith QArith Qcanon Permutation Lia ZifyNat.
From stdpp Require Import base numbers option list sorting gmap strings.

Local Open Scope Z_scope.
Local Open Scope nat_scope.

(** ** Numbers and the comparisons the code uses *)

Module Js.

(** [a >= b]; false as soon as one side is [NaN]. *)
Definition ge (a b : option Qc) : bool :=
  match a, b with
  | Some x, Some y => match (x ?= y)%Qc with Lt => false | _ => true end
  | _, _ => false
  end.

(** [a < b]; false as soon as one side is [NaN]. *)
Definition lt (a b : option Qc) : bool :=
  match a, b with
  | Some x, Some y => match (x ?= y)%Qc with Lt => true | _ => false end
  | _, _ => false
  end.

(** [a - b]; [NaN] as soon as one side is. *)
Definition minus (a b : option Qc) : option Qc :=
  match a, b with
  | Some x, Some y => Some (x - y)%Qc
  | _, _ => None
  end.

(** What [Array.prototype.sort] makes of the number its comparison function
    returns: the sign, [NaN] counting as zero. *)
Definition sort_compare (v : option Qc) : comparison :=
  match v with
  | Some d => (d ?= 0)%Qc
  | None => Eq
  end.

(** [Array.prototype.sort(comparefn)]: a stable sort.  [sort_insert] puts
    [x], which stood before every element of [l], in front of the first
    element that does not have to precede it. *)
Fixpoint sort_insert {A} (comparefn : A → A → option Qc) (x : A) (l : list A) : list A :=
  match l with
  | [] => [x]
  | y :: l' =>
      match sort_compare (comparefn x y) with
      | Gt => y :: sort_insert comparefn x l'
      | _ => x :: l
      end
  end.

Definition sort {A} (comparefn : A → A → option Qc) (l : list A) : list A :=
  foldr (sort_insert comparefn) [] l.

(** [Array.prototype.slice(0, end)] for an integer [end]: a negative [end]
    counts from the end of the array. *)
Definition slice0 {A} (l : list A) (end_ : Z) : list A :=
  let len := Z.of_nat (length l) in
  let final := if (end_ <? 0)%Z then Z.max (len + end_) 0 else Z.min end_ len in
  take (Z.to_nat final) l.

(** [Array.prototype.pop()]. *)
Definition pop {A} (l : list A) : option A * list A :=
  (last l, removelast l).

(** The properties every object inherits from [Object.prototype]; reading
    one of them from an object that has no such property of its own gives
    a function (the prototype itself for [__proto__]), which is truthy. *)
Definition object_prototype_keys : list string :=
  [ "constructor"; "hasOwnProperty"; "isPrototypeOf"; "propertyIsEnumerable";
    "toLocaleString"; "toString"; "valueOf"; "__proto__";
    "__defineGetter__"; "__defineSetter__"; "__lookupGetter__";
    "__lookupSetter__" ]%string.

Definition inherited (key : string) : bool :=
  bool_decide (key ∈ object_prototype_keys).

(** [o[key]] for an object [o] created by [{}] whose own properties are
    the ones of the map. *)
Inductive property (A : Type) : Type :=
  | Own (a : A)
  | Inherited
  | Undefined.
Arguments Own {A} a.
Arguments Inherited {A}.
Arguments Undefined {A}.

Definition get {A} (o : gmap string A) (key : string) : property A :=
  match o !! key with
  | Some a => Own a
  | None => if inherited key then Inherited else Undefined
  end.

(** [!o[key]] where the own properties hold objects. *)
Definition falsy {A} (p : property A) : bool :=
  match p with
  | Undefined => true
  | _ => false
  end.

End Js.

(** ** Data model *)

(** The values of the [company] property: a string, or one of the falsy
    values that are not strings.  [CompanyAbsent] is the missing property,
    which reads as [undefined].  (A truthy value that is not a string would
    be turned into one when used as a key; the data model has none.) *)
Inductive company_value : Type :=
  | CompanyAbsent
  | CompanyNull
  | CompanyFalse
  | CompanyZero
  | CompanyString (s : string).

Record bullet : Type := Bullet {
  company : company_value;
  relevance_score : option Qc;
  payload : list (string * string)
}.

(** [bullet.company || 'Unknown'], as a property key. *)
Definition company_or_unknown (c : company_value) : string :=
  match c with
  | CompanyString s => if decide (s = ""%string) then "Unknown"%string else s
  | _ => "Unknown"%string
  end.

(** References to bullets and locations of arrays. *)
Abbreviation ref := nat.
Abbreviation loc := nat.

Record store : Type := Store {
  records : ref → bullet;
  arrays : list (list ref)
}.

(** The result of running a piece of code: a value, a [TypeError] thrown, or
    the fuel of a [while] loop used up. *)
Inductive outcome (A : Type) : Type :=
  | Ok (a : A)
  | TypeError
  | OutOfFuel.
Arguments Ok {A} a.
Arguments TypeError {A}.
Arguments OutOfFuel {A}.

Definition obind {A B} (x : outcome A) (f : A → outcome B) : outcome B :=
  match x with
  | Ok a => f a
  | TypeError => TypeError
  | OutOfFuel => OutOfFuel
  end.

(** ** The MinHeap class *)

Module MinHeap.
Section Methods.

Variable records : ref → bullet.

Definition score (r : ref) : option Qc := relevance_score (records r).

(** The loop of [bubbleUp]: [element] is [this.heap[index]] throughout. *)
Fixpoint bubbleUp_loop (fuel : nat) (heap : list ref) (element : ref) (index : nat)
  : outcome (list ref) :=
  if decide (index = 0) then Ok heap else
  match fuel with
  | 0 => OutOfFuel
  | S fuel =>
      let parentIndex := (index - 1) / 2 in
      match heap !! parentIndex with
      | None => TypeError
      | Some parent =>
          if Js.ge (score element) (score parent) then Ok heap
          else
            let heap := <[parentIndex := element]> heap in
            let heap := <[index := parent]> heap in
            bubbleUp_loop fuel heap element parentIndex
      end
  end.

(** [bubbleUp(index)].  With [this.heap[index]] undefined the loop throws
    at its first comparison, unless [index] is 0 and it is not entered. *)
Definition bubbleUp (heap : list ref) (index : nat) : outcome (list ref) :=
  match heap !! index with
  | Some element => bubbleUp_loop index heap element index
  | None => if decide (index = 0) then Ok heap else TypeError
  end.

(** One pass of the loop of [sinkDown] up to the test of [swap]. *)
Definition sinkDown_swap (heap : list ref) (length : nat) (element : ref) (index : nat)
  : outcome (option nat) :=
  let leftChildIndex := 2 * index + 1 in
  let rightChildIndex := 2 * index + 2 in
  let swap : option nat := None in
  obind
    (if decide (leftChildIndex < length) then
       match heap !! leftChildIndex with
       | None => TypeError
       | Some leftChild =>
           Ok (if Js.lt (score leftChild) (score element) then Some leftChildIndex else swap)
       end
     else Ok swap)
    (λ swap,
      if decide (rightChildIndex < length) then
        match heap !! rightChildIndex with
        | None => TypeError
        | Some rightChild =>
            match swap with
            | None =>
                Ok (if Js.lt (score rightChild) (score element)
                    then Some rightChildIndex else swap)
            | Some s =>
                match heap !! s with
                | None => TypeError
                | Some other =>
                    Ok (if Js.lt (score rightChild) (score other)
                        then Some rightChildIndex else swap)
                end
            end
        end
      else Ok swap).

Fixpoint sinkDown_loop (fuel : nat) (heap : list ref) (length : nat) (element : ref)
    (index : nat) : outcome (list ref) :=
  match fuel with
  | 0 => OutOfFuel
  | S fuel =>
      obind (sinkDown_swap heap length element index) (λ swap,
        match swap with
        | None => Ok heap
        | Some swap =>
            match heap !! swap with
            | None => TypeError
            | Some child =>
                let heap := <[index := child]> heap in
                let heap := <[swap := element]> heap in
                sinkDown_loop fuel heap length element swap
            end
        end)
  end.

(** [sinkDown(index)].  With [this.heap[index]] undefined, [index] is not
    below the length, no child index is, and the first pass breaks. *)
Definition sinkDown (heap : list ref) (index : nat) : outcome (list ref) :=
  let length := length heap in
  match heap !! index with
  | Some element => sinkDown_loop (S length) heap length element index
  | None => Ok heap
  end.

(** [insert(bullet)]. *)
Definition insert (heap : list ref) (bullet : ref) : outcome (list ref) :=
  let heap := heap ++ [bullet] in
  bubbleUp heap (length heap - 1).

(** [extractMin()]: the value returned, [None] for [null], and the array
    afterwards. *)
Definition extractMin (heap : list ref) : outcome (option ref * list ref) :=
  match length heap with
  | 0 => Ok (None, heap)
  | 1 => Ok (Js.pop heap)
  | _ =>
      let min := heap !! 0 in
      match Js.pop heap with
      | (Some last, heap) =>
          let heap := <[0 := last]> heap in
          obind (sinkDown heap 0) (λ heap, Ok (min, heap))
      | (None, _) => TypeError
      end
  end.

(** [peek()]: [this.heap[0] || null]; a bullet is an object, hence truthy. *)
Definition peek (heap : list ref) : option ref := heap !! 0.

Definition size (heap : list ref) : nat := length heap.

End Methods.
End MinHeap.

(** ** Code that runs on the store *)

(** A computation returns its outcome and the store it leaves, also when it
    throws. *)
Definition M (A : Type) : Type := store → outcome A * store.

Definition ret {A} (a : A) : M A := λ σ, (Ok a, σ).

Definition throw {A} : M A := λ σ, (TypeError, σ).

Definition out_of_fuel {A} : M A := λ σ, (OutOfFuel, σ).

Definition bind {A B} (m : M A) (k : A → M B) : M B := λ σ,
  match m σ with
  | (Ok a, σ') => k a σ'
  | (TypeError, σ') => (TypeError, σ')
  | (OutOfFuel, σ') => (OutOfFuel, σ')
  end.

Notation "'let*' x := m 'in' k" := (bind m (λ x, k))
  (at level 10, x pattern, m at level 100, k at level 200, only parsing).

(** [bullet.company], [bullet.relevance_score]: the object behind a
    reference. *)
Definition read_bullet (r : ref) : M bullet := λ σ, (Ok (records σ r), σ).

(** [[]]: a new, empty array. *)
Definition new_array : M loc := λ σ,
  (Ok (length (arrays σ)), Store (records σ) (arrays σ ++ [[]])).

(** The elements of the array at [a]; a location that holds no array is not
    an array, and a method called on it is not a function. *)
Definition array_contents (a : loc) : M (list ref) := λ σ,
  match arrays σ !! a with
  | Some l => (Ok l, σ)
  | None => (TypeError, σ)
  end.

Definition array_update (a : loc) (l : list ref) : M unit := λ σ,
  (Ok (), Store (records σ) (<[a := l]> (arrays σ))).

Definition array_length (a : loc) : M nat :=
  let* l := array_contents a in ret (length l).

Definition array_get (a : loc) (k : nat) : M (option ref) :=
  let* l := array_contents a in ret (l !! k).

Definition array_push (a : loc) (x : ref) : M unit :=
  let* l := array_contents a in array_update a (l ++ [x]).

Definition array_unshift (a : loc) (x : ref) : M unit :=
  let* l := array_contents a in array_update a (x :: l).

(** [(a, b) => b.relevance_score - a.relevance_score]. *)
Definition by_score_descending (records : ref → bullet) (a b : ref) : option Qc :=
  Js.minus (relevance_score (records b)) (relevance_score (records a)).

(** The bullets, for a comparison function that reads them. *)
Definition read_records : M (ref → bullet) := λ σ, (Ok (records σ), σ).

(** [a.sort((a, b) => b.relevance_score - a.relevance_score)]: sorts the
    array in place and returns it. *)
Definition array_sort_by_score (a : loc) : M loc :=
  let* l := array_contents a in
  let* records := read_records in
  let* _ := array_update a (Js.sort (by_score_descending records) l) in
  ret a.

(** [a.slice(0, end)]: a new array. *)
Definition array_slice0 (a : loc) (end_ : Z) : M loc :=
  let* l := array_contents a in
  let* s := new_array in
  let* _ := array_update s (Js.slice0 l end_) in
  ret s.

(** [a.forEach(callback)]: the length is read once, the elements as the
    loop reaches them.  [callback] gets the variables it assigns, [s], and
    returns them. *)
Fixpoint forEach_from {V} (a : loc) (callback : ref → V → M V) (k n : nat) (s : V) : M V :=
  match n with
  | 0 => ret s
  | S n =>
      let* x := array_get a k in
      let* s := match x with
                | Some v => callback v s
                | None => ret s
                end in
      forEach_from a callback (k + 1) n s
  end.

Definition forEach {V} (a : loc) (callback : ref → V → M V) (s : V) : M V :=
  let* len := array_length a in
  forEach_from a callback 0 len s.

(** [for (const x of l) body]. *)
Fixpoint for_of {A V} (l : list A) (body : A → V → M V) (s : V) : M V :=
  match l with
  | [] => ret s
  | x :: l =>
      let* s := body x s in
      for_of l body s
  end.

(** [Object.entries(o)], in some order.  JavaScript lists the keys in the
    order of their insertion (those that look like array indices first);
    the loops below treat each entry on its own and write to an object, so
    the order does not show in what they return. *)
Definition entries {A} (o : gmap string A) : list (string * A) := map_to_list o.

(** [new MinHeap()]: the object is its backing array. *)
Definition new_MinHeap : M loc := new_array.

(** A method of the heap at [h], run on the array the object holds. *)
Definition method {A} (h : loc)
    (body : (ref → bullet) → list ref → outcome (A * list ref)) : M A :=
  let* heap := array_contents h in
  λ σ, match body (records σ) heap with
       | Ok (a, heap) => (Ok a, Store (records σ) (<[h := heap]> (arrays σ)))
       | TypeError => (TypeError, σ)
       | OutOfFuel => (OutOfFuel, σ)
       end.

Definition heap_insert (h : loc) (bullet : ref) : M unit :=
  method h (λ records heap,
    obind (MinHeap.insert records heap bullet) (λ heap, Ok ((), heap))).

Definition heap_extractMin (h : loc) : M (option ref) :=
  method h MinHeap.extractMin.

Definition heap_size (h : loc) : M nat :=
  method h (λ _ heap, Ok (MinHeap.size heap, heap)).

(** ** The two selection functions *)

(** [filterBulletsByCompany(bullets, topK, minScore)]; a call that leaves
    out [topK] or [minScore] passes 5 and 0. *)
Definition filterBulletsByCompany (bullets : loc) (topK : Z) (minScore : Qc)
  : M (gmap string loc) :=
  let* companies :=
    forEach bullets (λ bullet (companies : gmap string loc),
      let* b := read_bullet bullet in
      let company := company_or_unknown (company b) in
      let* companies :=
        if Js.falsy (Js.get companies company) then
          let* a := new_array in ret (<[company := a]> companies)
        else ret companies in
      if Js.ge (relevance_score b) (Some minScore) then
        match Js.get companies company with
        | Js.Own a => let* _ := array_push a bullet in ret companies
        | _ => throw
        end
      else ret companies) ∅ in
  for_of (entries companies) (λ '(company, companyBullets) (result : gmap string loc),
    let* sorted := array_sort_by_score companyBullets in
    let* top := array_slice0 sorted topK in
    ret (<[company := top]> result)) ∅.

(** The loop [while (heap.size() > 0) arr.unshift(heap.extractMin())].
    [extractMin] returns [null] on an empty heap only, which the test of
    the loop excludes. *)
Fixpoint drain (fuel : nat) (heap arr : loc) : M unit :=
  let* n := heap_size heap in
  if decide (0 < n) then
    match fuel with
    | 0 => out_of_fuel
    | S fuel =>
        let* x := heap_extractMin heap in
        let* _ := match x with
                  | Some r => array_unshift arr r
                  | None => throw
                  end in
        drain fuel heap arr
    end
  else ret ().

(** [filterBulletsWithHeap(bullets, topK, minScore)]. *)
Definition filterBulletsWithHeap (bullets : loc) (topK : Z) (minScore : Qc)
  : M (gmap string loc) :=
  let* companies :=
    forEach bullets (λ bullet (companies : gmap string loc),
      let* b := read_bullet bullet in
      let company := company_or_unknown (company b) in
      let* companies :=
        if Js.falsy (Js.get companies company) then
          let* h := new_MinHeap in ret (<[company := h]> companies)
        else ret companies in
      if Js.ge (relevance_score b) (Some minScore) then
        match Js.get companies company with
        | Js.Own h =>
            let* _ := heap_insert h bullet in
            let* n := heap_size h in
            if decide (topK < Z.of_nat n)%Z then
              let* _ := heap_extractMin h in ret companies
            else ret companies
        | _ => throw
        end
      else ret companies) ∅ in
  for_of (entries companies) (λ '(company, heap) (result : gmap string loc),
    let* arr := new_array in
    let* n := heap_size heap in
    let* _ := drain n heap arr in
    let* sorted := array_sort_by_score arr in
    ret (<[company := sorted]> result)) ∅.

(** ** The tool [filter_bullets_by_score] of the server

    [filterBulletsByScore(resumeData, minScore, bulletsPerCompany)] reads one
    property of [resumeData], the array [resumeData.data.bullets], and
    returns a copy of [resumeData] that holds a new array in its place: the
    model takes the location of the array and returns that of the new one.
    [bulletsPerCompany] is an integer of either sign. *)

(** [bullet.company] used as a property key, without a default: the string
    that the value converts to. *)
Definition company_key (c : company_value) : string :=
  match c with
  | CompanyAbsent => "undefined"
  | CompanyNull => "null"
  | CompanyFalse => "false"
  | CompanyZero => "0"
  | CompanyString s => s
  end%string.

(** The values [companyCounts] holds: a number, or the string that [+ 1]
    makes of a function or an object ([NotANumber]: as a number it is
    [NaN]). *)
Inductive count : Type :=
  | Count (n : nat)
  | NotANumber.

(** [(companyCounts[company] || 0) + 1]: an inherited property is a function
    or an object, which is truthy, and [+ 1] turns it into a string, as it
    does a string. *)
Definition increment (p : Js.property count) : count :=
  match p with
  | Js.Own (Count n) => Count (n + 1)
  | Js.Own NotANumber => NotANumber
  | Js.Inherited => NotANumber
  | Js.Undefined => Count 1
  end.

(** [companyCounts[company] = v] for a number or a string [v]: the setter of
    [__proto__] ignores such a value, any other key becomes an own
    property. *)
Definition set_count (companyCounts : gmap string count) (company : string) (v : count)
  : gmap string count :=
  if decide (company = "__proto__"%string) then companyCounts
  else <[company := v]> companyCounts.

(** [companyCounts[company] <= bulletsPerCompany]: false for whatever is not
    a number. *)
Definition count_le (p : Js.property count) (bulletsPerCompany : Z) : bool :=
  match p with
  | Js.Own (Count n) => bool_decide (Z.of_nat n ≤ bulletsPerCompany)%Z
  | _ => false
  end.

(** [a.filter(callback)]: the length is read once, the new array is created,
    and the elements the callback accepts are appended to it.  [callback]
    gets the variables it assigns, [s], and returns them with its answer. *)
Fixpoint filter_from {V} (a : loc) (callback : ref → V → M (bool * V)) (out : loc)
    (k n : nat) (s : V) : M V :=
  match n with
  | 0 => ret s
  | S n =>
      let* x := array_get a k in
      let* s := match x with
                | Some v =>
                    let* r := callback v s in
                    let '(selected, s) := r in
                    let* _ := if selected : bool then array_push out v else ret () in
                    ret s
                | None => ret s
                end in
      filter_from a callback out (k + 1) n s
  end.

Definition array_filter {V} (a : loc) (callback : ref → V → M (bool * V)) (s : V)
  : M (loc * V) :=
  let* len := array_length a in
  let* out := new_array in
  let* s := filter_from a callback out 0 len s in
  ret (out, s).

(** [filterBulletsByScore(resumeData, minScore, bulletsPerCompany)]; a call
    that leaves out [minScore] or [bulletsPerCompany] passes 75 and 5. *)
Definition filterBulletsByScore (bullets : loc) (minScore : Qc) (bulletsPerCompany : Z)
  : M loc :=
  let* sorted := array_sort_by_score bullets in
  let* r :=
    array_filter sorted (λ bullet (companyCounts : gmap string count),
      let* b := read_bullet bullet in
      if Js.lt (relevance_score b) (Some minScore) then ret (false, companyCounts)
      else
        let company := company_key (company b) in
        let companyCounts :=
          set_count companyCounts company (increment (Js.get companyCounts company)) in
        ret (count_le (Js.get companyCounts company) bulletsPerCompany, companyCounts)) ∅ in
  let '(bullets, _) := r in
  ret bullets.

(** ** The tool [delete_bullets_by_id] of the server

    [deleteBulletsById(resumeData, bulletIds)] reads the array
    [resumeData.data.bullets] and returns a copy of [resumeData] that holds
    a new array in its place.  [bulletIds] is an array of strings, and the
    [id] of a bullet is one of its other properties. *)

(** [o[key]] for the other properties of a bullet; [None] is [undefined]. *)
Fixpoint property_of (o : list (string * string)) (key : string) : option string :=
  match o with
  | [] => None
  | (k, v) :: o => if decide (k = key) then Some v else property_of o key
  end.

(** [bulletIds.includes(id)] for an array of strings: [undefined] is none of
    them. *)
Definition includes (bulletIds : list string) (id : option string) : bool :=
  match id with
  | Some id => bool_decide (id ∈ bulletIds)
  | None => false
  end.

Definition deleteBulletsById (bullets : loc) (bulletIds : list string) : M loc :=
  let* r :=
    array_filter bullets (λ bullet (s : unit),
      let* b := read_bullet bullet in
      ret (negb (includes bulletIds (property_of (payload b) "id")), s)) () in
  let '(bullets, _) := r in
  ret bullets.

(** * Notions used to state and prove the properties *)

(** The comparison function [(a, b) => b.score - a.score] for a score [sc],
    and the order it sorts by. *)
Definition descending {A} (sc : A → option Qc) (a b : A) : option Qc :=
  Js.minus (sc b) (sc a).

Definition score_ge {A} (sc : A → option Qc) (a b : A) : Prop :=
  Js.ge (sc a) (sc b) = true.

Ltac div_lia := zify; Z.div_mod_to_equations; lia.

(** ** Heaps *)

Section HeapNotions.
Variable records : ref → bullet.

(** The score of a bullet that has one. *)
Definition weight (r : ref) : Qc := default 0%Qc (MinHeap.score records r).

(** Every bullet of the list has a numeric [relevance_score]. *)
Definition scored (l : list ref) : Prop :=
  Forall (λ r, is_Some (MinHeap.score records r)) l.

(** The heap order on the backing array: no element is below its parent. *)
Definition heap_ok (h : list ref) : Prop :=
  ∀ j c p, 0 < j → h !! j = Some c → h !! ((j - 1) / 2) = Some p →
    (weight p ≤ weight c)%Qc.

(** Every edge of the tree is in order except the one into [i]; the
    children of [i] are above the parent of [i]. *)
Definition up_ok (h : list ref) (i : nat) : Prop :=
  (∀ j c p, 0 < j → j ≠ i → h !! j = Some c → h !! ((j - 1) / 2) = Some p →
     (weight p ≤ weight c)%Qc) ∧
  (∀ j c p, 0 < j → (j - 1) / 2 = i → 0 < i →
     h !! j = Some c → h !! ((i - 1) / 2) = Some p → (weight p ≤ weight c)%Qc).

(** Every edge is in order except those out of [i]; the children of [i]
    are above the parent of [i]. *)
Definition down_ok (h : list ref) (i : nat) : Prop :=
  (∀ j c p, 0 < j → (j - 1) / 2 ≠ i → h !! j = Some c → h !! ((j - 1) / 2) = Some p →
     (weight p ≤ weight c)%Qc) ∧
  (∀ j c p, 0 < j → (j - 1) / 2 = i → 0 < i →
     h !! j = Some c → h !! ((i - 1) / 2) = Some p → (weight p ≤ weight c)%Qc).

End HeapNotions.

Definition is_child (i c : nat) : Prop := c = 2 * i + 1 ∨ c = 2 * i + 2.

(** ** The selection loops *)

(** [bullet.company || 'Unknown'] and the threshold test, on a reference. *)
Definition key_of (records : ref → bullet) (b : ref) : string :=
  company_or_unknown (company (records b)).

Definition passes (records : ref → bullet) (minScore : Qc) (b : ref) : bool :=
  Js.ge (relevance_score (records b)) (Some minScore).

(** The bullets of [bs] that the loop hands to the group [k]. *)
Definition selected (records : ref → bullet) (minScore : Qc) (k : string) (bs : list ref)
  : list ref :=
  filter (λ b, key_of records b = k ∧ passes records minScore b = true) bs.

(** A bullet that passes the threshold under an inherited key makes the loop
    throw: [companies[company]] is then not an array nor a heap. *)
Definition throws (records : ref → bullet) (minScore : Qc) (bs : list ref) : Prop :=
  ∃ b, b ∈ bs ∧ Js.inherited (key_of records b) = true ∧ passes records minScore b = true.

(** What a call leaves untouched: the bullets, and every array that existed
    before it. *)
Definition frame (σ0 σ : store) : Prop :=
  records σ = records σ0 ∧
  ∀ l x, arrays σ0 !! l = Some x → arrays σ !! l = Some x.

(** The callback of both [forEach] loops, with what it does to the group
    left open. *)
Definition group_callback (add : loc → ref → M unit) (minScore : Qc)
    (bullet : ref) (companies : gmap string loc) : M (gmap string loc) :=
  let* b := read_bullet bullet in
  let company := company_or_unknown (company b) in
  let* companies :=
    if Js.falsy (Js.get companies company) then
      let* a := new_array in ret (<[company := a]> companies)
    else ret companies in
  if Js.ge (relevance_score b) (Some minScore) then
    match Js.get companies company with
    | Js.Own a => let* _ := add a bullet in ret companies
    | _ => throw
    end
  else ret companies.

(** The state of the first loop after the bullets [pre]. *)
Definition groups_inv (step : (ref → bullet) → list ref → ref → list ref) (minScore : Qc)
    (σ0 σ : store) (companies : gmap string loc) (pre : list ref) : Prop :=
  frame σ0 σ ∧
  (∀ k a, companies !! k = Some a →
     length (arrays σ0) ≤ a ∧
     arrays σ !! a = Some (foldl (step (records σ0)) [] (selected (records σ0) minScore k pre))) ∧
  (∀ k1 k2 a, companies !! k1 = Some a → companies !! k2 = Some a → k1 = k2) ∧
  (∀ k, is_Some (companies !! k) ↔
        Js.inherited k = false ∧ ∃ b, b ∈ pre ∧ key_of (records σ0) b = k).

(** What the heap strategy does to the array of a heap for one bullet that
    passes the threshold: [insert], then [extractMin] when the size exceeds
    [topK]. *)
Definition heap_step (topK : Z) (records : ref → bullet) (heap : list ref) (b : ref)
  : list ref :=
  match MinHeap.insert records heap b with
  | Ok heap =>
      if decide (topK < Z.of_nat (MinHeap.size heap))%Z then
        match MinHeap.extractMin records heap with
        | Ok (_, heap) => heap
        | _ => heap
        end
      else heap
  | _ => heap
  end.

Definition heap_add (topK : Z) (h : loc) (bullet : ref) : M unit :=
  let* _ := heap_insert h bullet in
  let* n := heap_size h in
  if decide (topK < Z.of_nat n)%Z then
    let* _ := heap_extractMin h in ret ()
  else ret ().

(** What the loop [drain] leaves in [arr]. *)
Fixpoint drained (records : ref → bullet) (fuel : nat) (heap arr : list ref) : list ref :=
  match heap, fuel with
  | [], _ => arr
  | _, 0 => arr
  | _, S fuel =>
      match MinHeap.extractMin records heap with
      | Ok (Some r, heap) => drained records fuel heap (r :: arr)
      | _ => arr
      end
  end.

(** The group of key [k] in the result of each function, from the array
    [bs] of the bullets. *)
Definition group_by_sort (records : ref → bullet) (topK : Z) (minScore : Qc)
    (k : string) (bs : list ref) : list ref :=
  Js.slice0 (Js.sort (by_score_descending records) (selected records minScore k bs)) topK.

Definition heap_of (records : ref → bullet) (topK : Z) (minScore : Qc)
    (k : string) (bs : list ref) : list ref :=
  foldl (heap_step topK records) [] (selected records minScore k bs).

Definition group_by_heap (records : ref → bullet) (topK : Z) (minScore : Qc)
    (k : string) (bs : list ref) : list ref :=
  let heap := heap_of records topK minScore k bs in
  Js.sort (by_score_descending records) (drained records (length heap) heap []).

(** The bodies of the second loops. *)
Definition sort_body (topK : Z) : string * loc → gmap string loc → M (gmap string loc) :=
  λ '(company, companyBullets) result,
    let* sorted := array_sort_by_score companyBullets in
    let* top := array_slice0 sorted topK in
    ret (<[company := top]> result).

Definition heap_body : string * loc → gmap string loc → M (gmap string loc) :=
  λ '(company, heap) result,
    let* arr := new_array in
    let* n := heap_size heap in
    let* _ := drain n heap arr in
    let* sorted := array_sort_by_score arr in
    ret (<[company := sorted]> result).

(** The shape the two selection functions share. *)
Definition select (add : loc → ref → M unit)
    (body : string * loc → gmap string loc → M (gmap string loc))
    (minScore : Qc) (bullets : loc) : M (gmap string loc) :=
  let* companies := forEach bullets (group_callback add minScore) ∅ in
  for_of (entries companies) body ∅.

(** ** Scores *)

(** A list of numbers sorted the way the comparison function of the code
    sorts bullets. *)
Definition sort_desc (l : list Qc) : list Qc := Js.sort (descending Some) l.

Definition num_ge (x y : Qc) : Prop := (y ≤ x)%Qc.

(** ** Statements *)

(** The two selection strategies. *)
Inductive strategy : Type := FullSort | BoundedHeap.

Definition run (s : strategy) : loc → Z → Qc → M (gmap string loc) :=
  match s with
  | FullSort => filterBulletsByCompany
  | BoundedHeap => filterBulletsWithHeap
  end.

Definition group_of (s : strategy)
  : (ref → bullet) → Z → Qc → string → list ref → list ref :=
  match s with
  | FullSort => group_by_sort
  | BoundedHeap => group_by_heap
  end.

(** The records of a group are in non-increasing order of [relevance_score]:
    [x.relevance_score >= y.relevance_score] whenever [x] comes before [y]. *)
Definition non_increasing (records : ref → bullet) (l : list ref) : Prop :=
  ∀ i j x y, i < j → l !! i = Some x → l !! j = Some y →
    Js.ge (relevance_score (records x)) (relevance_score (records y)) = true.

Definition non_decreasing (records : ref → bullet) (l : list ref) : Prop :=
  ∀ i j x y, i < j → l !! i = Some x → l !! j = Some y →
    Js.ge (relevance_score (records y)) (relevance_score (records x)) = true.

(** [insert] called for each bullet of a list in turn. *)
Fixpoint insert_all (records : ref → bullet) (heap : list ref) (bullets : list ref)
  : outcome (list ref) :=
  match bullets with
  | [] => Ok heap
  | b :: bullets =>
      obind (MinHeap.insert records heap b) (λ heap, insert_all records heap bullets)
  end.

(** [extractMin] called until it returns [null]; the bullets it returned, in
    the order of the calls. *)
Fixpoint extract_all (records : ref → bullet) (fuel : nat) (heap : list ref)
  : outcome (list ref) :=
  match fuel with
  | 0 => OutOfFuel
  | S fuel =>
      obind (MinHeap.extractMin records heap) (λ '(x, heap),
        match x with
        | None => Ok []
        | Some r => obind (extract_all records fuel heap) (λ out, Ok (r :: out))
        end)
  end.

(** The states of the array of a heap that calls of [insert] and
    [extractMin] lead to from [new MinHeap()]. *)
Inductive reachable (records : ref → bullet) : list ref → Prop :=
  | reachable_new : reachable records []
  | reachable_insert heap b heap' :
      reachable records heap →
      MinHeap.insert records heap b = Ok heap' →
      reachable records heap'
  | reachable_extractMin heap x heap' :
      reachable records heap →
      MinHeap.extractMin records heap = Ok (x, heap') →
      reachable records heap'.

(** The scores a result holds under each key, and the pairs of a key and a
    score it stands for. *)
Definition scores_of (σ : store) (result : gmap string loc)
  : gmap string (list (option Qc)) :=
  (λ r, (λ b, relevance_score (records σ b)) <$> default [] (arrays σ !! r)) <$> result.

Definition pairs (σ : store) (result : gmap string loc) : list (string * option Qc) :=
  '(k, scores) ← map_to_list (scores_of σ result); (λ s, (k, s)) <$> scores.

(** Whenever the full-sort strategy returns, the bounded-heap strategy
    returns as well, and the two results stand for the same pairs up to
    their order. *)
Definition strategies_agree (σ : store) (bullets : loc) (topK : Z) (minScore : Qc) : Prop :=
  ∀ resultA σA,
    filterBulletsByCompany bullets topK minScore σ = (Ok resultA, σA) →
    ∃ resultB σB,
      filterBulletsWithHeap bullets topK minScore σ = (Ok resultB, σB) ∧
      pairs σA resultA ≡ₚ pairs σB resultB.

(** In the ranking of a group, the record of rank [topK] and the next one
    do not have the same score. *)
Definition no_boundary_tie (σ : store) (bullets : loc) (topK : Z) (minScore : Qc) : Prop :=
  ∀ bs b i x y,
    arrays σ !! bullets = Some bs → b ∈ bs → Z.of_nat (i + 1) = topK →
    let ranked := Js.sort (by_score_descending (records σ))
                    (selected (records σ) minScore (key_of (records σ) b) bs) in
    ranked !! i = Some x → ranked !! (i + 1) = Some y →
    relevance_score (records σ x) ≠ relevance_score (records σ y).

(** The falsy values of [company]. *)
Definition falsy_company (c : company_value) : Prop :=
  match c with
  | CompanyString s => s = ""%string
  | _ => True
  end.

(** ** Inputs of the examples *)

Definition example_bullet (c : string) (score : Z) : bullet :=
  Bullet (CompanyString c) (Some (Qc_of_Z score)) [("text", "...")]%string.

Definition no_bullet : bullet := Bullet CompanyAbsent None [].

(** The store of the scenario of the specification: the bullets 0 to 3 and,
    at location 0, the array that holds them. *)
Definition scenario : store :=
  Store (λ r, nth r [ example_bullet "A" 90; example_bullet "A" 50;
                      example_bullet "A" 70; example_bullet "B" 40 ] no_bullet)
        [[0; 1; 2; 3]].

(** Two bullets of one company with different scores. *)
Definition two_bullets : store :=
  Store (λ r, nth r [ example_bullet "A" 90; example_bullet "A" 70 ] no_bullet)
        [[0; 1]].

(** One bullet that has no [relevance_score]. *)
Definition unscored_bullet : store :=
  Store (λ r, nth r [ Bullet (CompanyString "A") None [] ] no_bullet) [[0]].

(** One bullet of a company called [constructor]. *)
Definition inherited_company : store :=
  Store (λ r, nth r [ example_bullet "constructor" 10 ] no_bullet) [[0]].

(** Five bullets of the same score whose [company] is absent, [null],
    [false], 0 and the empty string. *)
Definition falsy_companies : store :=
  Store (λ r, nth r [ Bullet CompanyAbsent (Some (Qc_of_Z 80)) [];
                      Bullet CompanyNull (Some (Qc_of_Z 80)) [];
                      Bullet CompanyFalse (Some (Qc_of_Z 80)) [];
                      Bullet CompanyZero (Some (Qc_of_Z 80)) [];
                      Bullet (CompanyString "") (Some (Qc_of_Z 80)) [] ] no_bullet)
        [[0; 1; 2; 3; 4]].

(** ** The filter of [filterBulletsByScore] *)

(** The bullets of [l] that the callback of [filterBulletsByScore] accepts,
    from the counts [companyCounts]. *)
Fixpoint kept (records : ref → bullet) (minScore : Qc) (bulletsPerCompany : Z)
    (companyCounts : gmap string count) (l : list ref) : list ref :=
  match l with
  | [] => []
  | bullet :: l =>
      if Js.lt (relevance_score (records bullet)) (Some minScore)
      then kept records minScore bulletsPerCompany companyCounts l
      else
        let company := company_key (company (records bullet)) in
        let companyCounts :=
          set_count companyCounts company (increment (Js.get companyCounts company)) in
        if count_le (Js.get companyCounts company) bulletsPerCompany
        then bullet :: kept records minScore bulletsPerCompany companyCounts l
        else kept records minScore bulletsPerCompany companyCounts l
  end.

(** The counts after the bullets of [l]. *)
Fixpoint counted (records : ref → bullet) (minScore : Qc)
    (companyCounts : gmap string count) (l : list ref) : gmap string count :=
  match l with
  | [] => companyCounts
  | bullet :: l =>
      if Js.lt (relevance_score (records bullet)) (Some minScore)
      then counted records minScore companyCounts l
      else
        let company := company_key (company (records bullet)) in
        counted records minScore
          (set_count companyCounts company (increment (Js.get companyCounts company))) l
  end.

(** The number a count stands for in the test against [bulletsPerCompany];
    an absent count is 0. *)
Definition count_of (companyCounts : gmap string count) (k : string) : option nat :=
  match companyCounts !! k with
  | None => Some 0
  | Some (Count n) => Some n
  | Some NotANumber => None
  end.

Global Instance company_value_eq_dec : EqDecision company_value.
Proof. solve_decision. Defined.

(** A bullet whose [company] is a string that is not empty. *)
Definition named (records : ref → bullet) (b : ref) : Prop :=
  ∃ s, company (records b) = CompanyString s ∧ s ≠ ""%string.

(** The callback of the filter. *)
Definition score_callback (minScore : Qc) (bulletsPerCompany : Z)
    (bullet : ref) (companyCounts : gmap string count) : M (bool * gmap string count) :=
  let* b := read_bullet bullet in
  if Js.lt (relevance_score b) (Some minScore) then ret (false, companyCounts)
  else
    let company := company_key (company b) in
    let companyCounts :=
      set_count companyCounts company (increment (Js.get companyCounts company)) in
    ret (count_le (Js.get companyCounts company) bulletsPerCompany, companyCounts).

(** No count under an inherited key is a number. *)
Definition counts_ok (companyCounts : gmap string count) : Prop :=
  ∀ k n, Js.inherited k = true → companyCounts !! k ≠ Some (Count n).

(** ** The filter of [deleteBulletsById] *)

(** The bullet is one that [deleteBulletsById] takes out. *)
Definition listed (records : ref → bullet) (bulletIds : list string) (b : ref) : bool :=
  includes bulletIds (property_of (payload (records b)) "id").

(** Bullets with the ids A1, A2 and B1, and one that has no id. *)
Definition with_ids : store :=
  Store (λ r, nth r [ Bullet (CompanyString "A") (Some (Qc_of_Z 90)) [("id", "A1")];
                      Bullet (CompanyString "A") (Some (Qc_of_Z 70)) [("id", "A2")];
                      Bullet (CompanyString "B") (Some (Qc_of_Z 80)) [("id", "B1")];
                      Bullet (CompanyString "B") (Some (Qc_of_Z 60)) [] ]%string no_bullet)
        [[0; 1; 2; 3]].

(** * Properties *)

(** ** Comparisons *)

Lemma Qccompare_opp (x y : Qc) : (y ?= x)%Qc = CompOpp (x ?= y)%Qc.
Proof. unfold Qccompare. symmetry. apply Qcompare_antisym. Qed.

Lemma ge_Some (x y : Qc) : Js.ge (Some x) (Some y) = true ↔ (y ≤ x)%Qc.
Proof.
  simpl. rewrite Qcle_alt, (Qccompare_opp x y).
  destruct (x ?= y)%Qc; simpl; split; congruence.
Qed.

Lemma lt_Some (x y : Qc) : Js.lt (Some x) (Some y) = true ↔ (x < y)%Qc.
Proof. simpl. rewrite Qclt_alt. destruct (x ?= y)%Qc; split; congruence. Qed.

Lemma ge_true_Some (a b : option Qc) :
  Js.ge a b = true → ∃ x y, a = Some x ∧ b = Some y ∧ (y ≤ x)%Qc.
Proof.
  destruct a as [x|], b as [y|]; try discriminate.
  intros H. exists x, y. by rewrite <-ge_Some.
Qed.

Lemma lt_false_Some (x y : Qc) : Js.lt (Some x) (Some y) = false ↔ (y ≤ x)%Qc.
Proof.
  rewrite <-not_true_iff_false, lt_Some. split.
  - apply Qcnot_lt_le.
  - intros H1 H2. by apply (Qclt_not_le _ _ H2).
Qed.

Lemma ge_false_Some (x y : Qc) : Js.ge (Some x) (Some y) = false ↔ (x < y)%Qc.
Proof.
  rewrite <-not_true_iff_false, ge_Some. split.
  - apply Qcnot_le_lt.
  - intros H1 H2. by apply (Qclt_not_le _ _ H1).
Qed.

Lemma sort_compare_minus_Gt (x y : Qc) :
  Js.sort_compare (Js.minus (Some y) (Some x)) = Gt ↔ (x < y)%Qc.
Proof. simpl. rewrite <-Qcgt_alt. unfold Qcminus. by rewrite Qclt_minus_iff. Qed.

(** ** Sorting *)

Section Sort.
Context {A : Type} (sc : A → option Qc).

Abbreviation comparefn := (descending sc).
Abbreviation R := (score_ge sc).

Lemma sort_insert_perm (c : A → A → option Qc) x l : Js.sort_insert c x l ≡ₚ x :: l.
Proof.
  induction l as [|y l IH]; simpl; [done|].
  destruct (Js.sort_compare (c x y)); try done.
  rewrite IH. apply perm_swap.
Qed.

Lemma sort_perm (c : A → A → option Qc) l : Js.sort c l ≡ₚ l.
Proof.
  induction l as [|x l IH]; simpl; [done|].
  by rewrite sort_insert_perm, IH.
Qed.

Lemma sort_length (c : A → A → option Qc) l : length (Js.sort c l) = length l.
Proof. by rewrite sort_perm. Qed.

Lemma ge_trans (a b c : A) : R a b → R b c → R a c.
Proof.
  unfold score_ge. intros H1 H2.
  destruct (ge_true_Some _ _ H1) as (x & y & -> & Hy & Hxy).
  destruct (ge_true_Some _ _ H2) as (y' & z & Hy' & -> & Hyz).
  rewrite Hy in Hy'. injection Hy' as <-.
  apply ge_Some. by apply Qcle_trans with y.
Qed.

Lemma sort_insert_sorted x l :
  is_Some (sc x) → Forall (λ a, is_Some (sc a)) l →
  StronglySorted R l → StronglySorted R (Js.sort_insert comparefn x l).
Proof.
  intros [qx Hx] Hl Hs. induction Hs as [|y l Hs IH Hy]; simpl.
  - repeat constructor.
  - apply Forall_cons in Hl as [[qy Hqy] Hl].
    destruct (Js.sort_compare (comparefn x y)) eqn:Hc.
    1,2: assert (R x y) as Hxy
      by (unfold score_ge, descending in *; rewrite Hx, Hqy in *; apply ge_Some;
          apply Qcnot_lt_le; rewrite <-sort_compare_minus_Gt; congruence).
    1,2: constructor; [by constructor|]; constructor; [done|];
      eapply Forall_impl; [exact Hy|]; intros z Hz; by apply ge_trans with y.
    constructor; [by apply IH|].
    rewrite sort_insert_perm. constructor; [|done].
    unfold score_ge, descending in *. rewrite Hx, Hqy in *. apply ge_Some.
    apply Qclt_le_weak. by apply sort_compare_minus_Gt.
Qed.

Lemma sort_sorted l :
  Forall (λ a, is_Some (sc a)) l → StronglySorted R (Js.sort comparefn l).
Proof.
  induction 1 as [|x l Hx Hl IH]; simpl; [constructor|].
  apply sort_insert_sorted; [done| |done].
  by rewrite sort_perm.
Qed.

Lemma slice0_sublist (l : list A) k : Js.slice0 l k `prefix_of` l.
Proof. unfold Js.slice0. apply prefix_take. Qed.

Lemma slice0_length (l : list A) (k : Z) : (0 ≤ k)%Z → (Z.of_nat (length (Js.slice0 l k)) ≤ k)%Z.
Proof.
  intros Hk. unfold Js.slice0. rewrite length_take.
  destruct (Z.ltb_spec k 0); lia.
Qed.

Lemma slice0_nonneg (l : list A) (k : Z) : (0 ≤ k)%Z → Js.slice0 l k = take (Z.to_nat k) l.
Proof.
  intros Hk. unfold Js.slice0.
  destruct (Z.ltb_spec k 0); [lia|].
  destruct (Z.le_gt_cases k (Z.of_nat (length l))).
  - by rewrite Z.min_l.
  - rewrite Z.min_r, Nat2Z.id by lia. rewrite !take_ge; [done|lia..].
Qed.

End Sort.

(** ** The heap *)

Lemma insert_head_perm {A} (h : list A) i a b :
  h !! i = Some a → a :: <[i := b]> h ≡ₚ b :: h.
Proof.
  intros Hi. pose proof (lookup_lt_Some _ _ _ Hi) as Hlt.
  rewrite insert_take_drop by done.
  rewrite <-(take_drop_middle h i a Hi) at 3.
  rewrite <-!Permutation_middle. apply perm_swap.
Qed.

Lemma swap_perm {A} (h : list A) i j a b :
  h !! i = Some a → h !! j = Some b → <[j := a]> (<[i := b]> h) ≡ₚ h.
Proof.
  intros Hi Hj. destruct (decide (i = j)) as [->|Hne].
  - assert (a = b) as -> by congruence.
    by rewrite list_insert_insert_eq, list_insert_id.
  - apply (Permutation_cons_inv (a := b)).
    rewrite (insert_head_perm (<[i := b]> h) j b a)
      by (by rewrite list_lookup_insert_ne).
    by apply insert_head_perm.
Qed.

Lemma lookup_swap {A} (h : list A) i j a b k :
  i < length h → j < length h → i ≠ j →
  <[j := a]> (<[i := b]> h) !! k =
    if decide (k = j) then Some a else if decide (k = i) then Some b else h !! k.
Proof.
  intros Hi Hj Hne. repeat case_decide; subst.
  - rewrite list_lookup_insert_eq; [done|by rewrite length_insert].
  - rewrite list_lookup_insert_ne by done. by rewrite list_lookup_insert_eq.
  - by rewrite !list_lookup_insert_ne.
Qed.

Section Heap.
Variable records : ref → bullet.
Abbreviation sc := (MinHeap.score records).
Abbreviation w := (weight records).
Abbreviation scored := (scored records).
Abbreviation heap_ok := (heap_ok records).
Abbreviation up_ok := (up_ok records).
Abbreviation down_ok := (down_ok records).

Lemma sc_weight r : is_Some (sc r) → sc r = Some (w r).
Proof. unfold weight. by intros [q ->]. Qed.

Lemma scored_lookup l i r : scored l → l !! i = Some r → sc r = Some (w r).
Proof.
  intros Hl Hi. apply sc_weight.
  by apply (Forall_lookup_1 _ _ _ _ Hl Hi).
Qed.

Lemma bubbleUp_loop_spec fuel : ∀ h e i,
  i ≤ fuel → h !! i = Some e →
  ∃ h', MinHeap.bubbleUp_loop records fuel h e i = Ok h' ∧ h' ≡ₚ h ∧
        (scored h → up_ok h i → heap_ok h').
Proof.
  induction fuel as [|fuel IH]; intros h e i Hfuel Hi; cbn [MinHeap.bubbleUp_loop].
  all: destruct (decide (i = 0)) as [->|Hpos].
  1,3: exists h; split_and!; [done..|];
    intros _ [Hup _] j c p Hj; apply Hup; [done|lia].
  { lia. }
  pose proof (lookup_lt_Some _ _ _ Hi) as Hlen.
  assert ((i - 1) / 2 < i) as Hpi by div_lia.
  destruct (lookup_lt_is_Some_2 h ((i - 1) / 2)) as [p Hp]; [lia|].
  rewrite Hp.
  destruct (Js.ge (sc e) (sc p)) eqn:Hge.
  { exists h. split_and!; [done..|]. intros Hsc [Hup _] j c p' Hj Hc Hp'.
    destruct (decide (j = i)) as [->|]; [|by eapply Hup].
    assert (c = e) as -> by congruence. assert (p' = p) as -> by congruence.
    apply ge_Some. by rewrite <-(scored_lookup h i e), <-(scored_lookup h _ p Hsc Hp). }
  set (h1 := <[i := p]> (<[(i - 1) / 2 := e]> h)).
  assert (h1 ≡ₚ h) as Hperm by (by apply swap_perm).
  destruct (IH h1 e ((i - 1) / 2)) as (h' & -> & Hperm' & Hok); [lia| |].
  { unfold h1. rewrite lookup_swap by lia. rewrite decide_False by lia.
    by rewrite decide_True. }
  exists h'. split_and!; [done|by rewrite Hperm'|].
  intros Hsc [Hup Hgp]. apply Hok; [unfold scored; by rewrite Hperm|].
  assert (w e < w p)%Qc as Hlt.
  { apply ge_false_Some. by rewrite <-(scored_lookup h i e), <-(scored_lookup h _ p Hsc Hp). }
  split.
  - intros j c p' Hj Hne. unfold h1. rewrite !lookup_swap by lia.
    repeat case_decide; intros Hc Hp'; simplify_eq; try div_lia.
    + by apply Qclt_le_weak.
    + apply (Hgp j c p'); try done; lia.
    + apply Qclt_le_weak, Qclt_le_trans with (w p); [done|].
      apply (Hup j c p); try done. congruence.
    + by apply (Hup j c p').
  - intros j c p' Hj Hpar Hpos'. unfold h1. rewrite !lookup_swap by lia.
    repeat case_decide; intros Hc Hp'; simplify_eq; try div_lia.
    + apply (Hup ((i-1)/2) c p'); try done; lia.
    + apply Qcle_trans with (w p).
      * apply (Hup ((i-1)/2) p p'); try done; lia.
      * apply (Hup j c p); try done. congruence.
Qed.

Lemma lt_weight a b :
  is_Some (sc a) → is_Some (sc b) →
  (Js.lt (sc a) (sc b) = true ↔ (w a < w b)%Qc) ∧
  (Js.lt (sc a) (sc b) = false ↔ (w b ≤ w a)%Qc).
Proof.
  intros Ha Hb. rewrite (sc_weight a Ha), (sc_weight b Hb).
  split; [apply lt_Some|apply lt_false_Some].
Qed.

(** What the first half of a pass of [sinkDown] leaves in [swap]: nothing
    when no child is below [element], else the index of the least child. *)
Lemma sinkDown_swap_spec h e i :
  ∃ sw, MinHeap.sinkDown_swap records h (length h) e i = Ok sw ∧
    match sw with
    | None =>
        scored h → is_Some (sc e) →
        ∀ c y, is_child i c → h !! c = Some y → (w e ≤ w y)%Qc
    | Some s =>
        is_child i s ∧ ∃ x, h !! s = Some x ∧
          (scored h → is_Some (sc e) →
           (w x < w e)%Qc ∧ ∀ c y, is_child i c → h !! c = Some y → (w x ≤ w y)%Qc)
    end.
Proof.
  unfold MinHeap.sinkDown_swap, is_child.
  assert (∀ c y, scored h → h !! c = Some y → is_Some (sc y)) as Hsome.
  { intros c y Hs Hc. by apply (Forall_lookup_1 _ _ _ _ Hs Hc). }
  destruct (decide (2 * i + 1 < length h)) as [Hl|Hl]; cbn [obind].
  - destruct (lookup_lt_is_Some_2 h (2 * i + 1) Hl) as [l Hlk]. rewrite Hlk.
    cbn [obind].
    destruct (decide (2 * i + 2 < length h)) as [Hr|Hr].
    + destruct (lookup_lt_is_Some_2 h (2 * i + 2) Hr) as [r Hrk]. rewrite Hrk.
      destruct (Js.lt (sc l) (sc e)) eqn:Hle.
      * rewrite Hlk. destruct (Js.lt (sc r) (sc l)) eqn:Hrl; eexists; (split; [done|]).
        -- split; [by right|]. exists r. split; [done|]. intros Hs He.
           apply (lt_weight _ e) in Hle; eauto. apply (lt_weight _ _) in Hrl; eauto.
           split; [by eapply Qclt_trans|].
           intros c y [->| ->] Hy; simplify_eq; [by apply Qclt_le_weak|apply Qcle_refl].
        -- split; [by left|]. exists l. split; [done|]. intros Hs He.
           apply (lt_weight _ e) in Hle; eauto. apply (lt_weight _ _) in Hrl; eauto.
           split; [done|].
           intros c y [->| ->] Hy; simplify_eq; [apply Qcle_refl|done].
      * destruct (Js.lt (sc r) (sc e)) eqn:Hre; eexists; (split; [done|]).
        -- split; [by right|]. exists r. split; [done|]. intros Hs He.
           apply (lt_weight _ e) in Hle; eauto. apply (lt_weight _ e) in Hre; eauto.
           split; [done|].
           intros c y [->| ->] Hy; simplify_eq; [|apply Qcle_refl].
           apply Qclt_le_weak. by eapply Qclt_le_trans.
        -- intros Hs He c y [->| ->] Hy; simplify_eq.
           ++ apply (lt_weight _ e) in Hle; eauto.
           ++ apply (lt_weight _ e) in Hre; eauto.
    + destruct (Js.lt (sc l) (sc e)) eqn:Hle; eexists; (split; [done|]).
      * split; [by left|]. exists l. split; [done|]. intros Hs He.
        apply (lt_weight _ e) in Hle; eauto. split; [done|].
        intros c y [->| ->] Hy; simplify_eq; [apply Qcle_refl|].
        apply lookup_lt_Some in Hy. lia.
      * intros Hs He c y [->| ->] Hy; simplify_eq.
        -- apply (lt_weight _ e) in Hle; eauto.
        -- apply lookup_lt_Some in Hy. lia.
  - rewrite decide_False by lia. eexists; split; [done|].
    intros Hs He c y [->| ->] Hy; apply lookup_lt_Some in Hy; lia.
Qed.

Lemma sinkDown_loop_spec fuel : ∀ h e i,
  length h < fuel + i → h !! i = Some e →
  ∃ h', MinHeap.sinkDown_loop records fuel h (length h) e i = Ok h' ∧ h' ≡ₚ h ∧
        (scored h → down_ok h i → heap_ok h').
Proof.
  induction fuel as [|fuel IH]; intros h e i Hfuel Hi.
  { apply lookup_lt_Some in Hi. lia. }
  cbn [MinHeap.sinkDown_loop].
  assert (∀ j, 0 < j → (j - 1) / 2 = i ↔ is_child i j) as Hchild
    by (unfold is_child; intros; div_lia).
  destruct (sinkDown_swap_spec h e i) as ([s|] & -> & Hsw); cbn [obind].
  2:{ exists h. split_and!; [done..|]. intros Hs [Hdown _] j c p Hj Hc Hp.
      destruct (decide ((j - 1) / 2 = i)) as [Hpar|]; [|by eapply Hdown].
      rewrite Hpar in Hp. assert (p = e) as -> by congruence.
      apply (Hsw Hs (Forall_lookup_1 _ _ _ _ Hs Hi) j c); [by apply Hchild|done]. }
  destruct Hsw as (Hs & x & Hx & Hmin). rewrite Hx.
  pose proof (lookup_lt_Some _ _ _ Hi) as Hlen.
  pose proof (lookup_lt_Some _ _ _ Hx) as Hlens.
  assert (i < s) as His by (unfold is_child in Hs; lia).
  set (h1 := <[s := e]> (<[i := x]> h)).
  assert (h1 ≡ₚ h) as Hperm by (by apply swap_perm).
  assert (length h1 = length h) as Hlen1 by (unfold h1; by rewrite !length_insert).
  destruct (IH h1 e s) as (h' & Heq & Hperm' & Hok); [lia| |].
  { unfold h1. rewrite lookup_swap by lia. by rewrite decide_True. }
  rewrite Hlen1 in Heq. rewrite Heq.
  exists h'. split_and!; [done|by rewrite Hperm'|].
  intros Hsc [Hdown Hgp]. apply Hok; [unfold scored; by rewrite Hperm|].
  destruct (Hmin Hsc (Forall_lookup_1 _ _ _ _ Hsc Hi)) as [Hlt Hmin'].
  assert (0 < s ∧ (s - 1) / 2 = i) as [Hs0 Hsp] by (split; [lia|apply Hchild; [lia|done]]).
  split.
  - intros j c p Hj Hne. unfold h1. rewrite !lookup_swap by lia.
    destruct (decide (j = s)) as [->|Hjs].
    { rewrite decide_False, decide_True by lia. intros [= <-] [= <-].
      by apply Qclt_le_weak. }
    destruct (decide (j = i)) as [->|Hji].
    { rewrite !decide_False by div_lia. intros [= <-] Hp.
      apply (Hgp s x p); try done; lia. }
    rewrite decide_False by done.
    destruct (decide ((j - 1) / 2 = i)) as [Hpar|Hpar]; intros Hc.
    + intros [= <-]. apply (Hmin' j c); [|done]. by apply Hchild.
    + intros Hp. by apply (Hdown j c p).
  - intros j c p Hj Hpar Hpos. unfold h1. rewrite !lookup_swap by lia.
    rewrite !decide_False by div_lia. rewrite Hsp, decide_True by lia.
    intros Hc [= <-]. apply (Hdown j c x); try done; rewrite Hpar; [lia|done].
Qed.

Lemma sinkDown_spec h i :
  ∃ h', MinHeap.sinkDown records h i = Ok h' ∧ h' ≡ₚ h ∧
        (scored h → down_ok h i → heap_ok h').
Proof.
  unfold MinHeap.sinkDown. destruct (h !! i) as [e|] eqn:Hi.
  - apply sinkDown_loop_spec; [lia|done].
  - exists h. split_and!; [done..|]. intros _ [Hdown _] j c p Hj Hc Hp.
    apply (Hdown j c p); try done. intros Heq. rewrite Heq in Hp. congruence.
Qed.

Lemma insert_spec h b :
  ∃ h', MinHeap.insert records h b = Ok h' ∧ h' ≡ₚ b :: h ∧
        (scored (b :: h) → heap_ok h → heap_ok h').
Proof.
  unfold MinHeap.insert, MinHeap.bubbleUp.
  rewrite length_app, Nat.add_sub. cbn [length].
  assert ((h ++ [b]) !! length h = Some b) as Hb
    by (rewrite lookup_app_r, Nat.sub_diag by lia; done).
  rewrite Hb.
  destruct (bubbleUp_loop_spec (length h) (h ++ [b]) b (length h))
    as (h' & Heq & Hperm & Hok); [lia|done|].
  exists h'. split_and!; [done| |].
  { rewrite Hperm. by rewrite Permutation_app_comm. }
  intros Hsc Hheap. apply Hok.
  { unfold scored in *. by rewrite Permutation_app_comm. }
  split.
  - intros j c p Hj Hne Hc Hp.
    assert (j < length h).
    { apply lookup_lt_Some in Hc. rewrite length_app in Hc. simpl in Hc. lia. }
    rewrite lookup_app_l in Hc by done. rewrite lookup_app_l in Hp by div_lia.
    by apply (Hheap j c p).
  - intros j c p Hj Hpar _ Hc _.
    apply lookup_lt_Some in Hc. rewrite length_app in Hc. simpl in Hc. div_lia.
Qed.

Lemma extractMin_nil : MinHeap.extractMin records [] = Ok (None, []).
Proof. done. Qed.

Lemma extractMin_spec h :
  h ≠ [] →
  ∃ m h', MinHeap.extractMin records h = Ok (Some m, h') ∧ h !! 0 = Some m ∧
          h ≡ₚ m :: h' ∧ (scored h → heap_ok h → heap_ok h').
Proof.
  destruct h as [|m t]; [done|]. intros _.
  destruct t as [|l t _] using rev_ind.
  { exists m, []. by split_and!. }
  unfold MinHeap.extractMin, Js.pop. cbn [length]. rewrite length_app.
  cbn [length]. rewrite Nat.add_1_r.
  rewrite app_comm_cons, last_snoc, removelast_last. cbn [list_insert insert].
  change (<[0:=l]> (m :: t)) with (l :: t).
  destruct (sinkDown_spec (l :: t) 0) as (h' & -> & Hperm & Hok). cbn [obind].
  exists m, h'. split_and!; [done|done| |].
  { rewrite Hperm. cbn [app]. apply perm_skip. by rewrite Permutation_app_comm. }
  cbn [app]. intros Hsc Hheap. apply Hok.
  { apply Forall_cons in Hsc as [_ Hsc]. unfold scored.
    rewrite Permutation_app_comm in Hsc. done. }
  split; [|lia].
  intros j c p Hj Hpar Hc Hp.
  destruct j as [|j]; [lia|].
  destruct ((S j - 1) / 2) as [|k] eqn:Hk; [done|].
  change (t !! j = Some c) in Hc. change (t !! k = Some p) in Hp.
  apply (Hheap (S j) c p); [lia|..].
  - change ((t ++ [l]) !! j = Some c). by apply lookup_app_l_Some.
  - rewrite Hk. change ((t ++ [l]) !! k = Some p). by apply lookup_app_l_Some.
Qed.

(** The root of a heap is a least element. *)
Lemma heap_root_min h m :
  heap_ok h → h !! 0 = Some m → ∀ r, r ∈ h → (w m ≤ w r)%Qc.
Proof.
  intros Hheap Hm r Hr. apply list_elem_of_lookup in Hr as [j Hj].
  revert r Hj. induction j as [j IH] using lt_wf_ind. intros r Hj.
  destruct (decide (j = 0)) as [->|Hpos].
  { assert (r = m) as -> by congruence. apply Qcle_refl. }
  pose proof (lookup_lt_Some _ _ _ Hj) as Hlt.
  destruct (lookup_lt_is_Some_2 h ((j - 1) / 2)) as [p Hp]; [div_lia|].
  apply Qcle_trans with (w p).
  - apply (IH ((j - 1) / 2)); [div_lia|done].
  - apply (Hheap j r p); [lia|done..].
Qed.

End Heap.

(** ** The first loop of the selection functions *)

Lemma frame_refl σ : frame σ σ.
Proof. by split. Qed.

Lemma frame_trans σ0 σ1 σ2 : frame σ0 σ1 → frame σ1 σ2 → frame σ0 σ2.
Proof. intros [H1 H2] [H3 H4]. split; [congruence|eauto]. Qed.

Lemma selected_app records minScore k l1 l2 :
  selected records minScore k (l1 ++ l2) =
  selected records minScore k l1 ++ selected records minScore k l2.
Proof. apply filter_app. Qed.

Lemma selected_singleton records minScore k b :
  selected records minScore k [b] =
  if decide (key_of records b = k ∧ passes records minScore b = true) then [b] else [].
Proof. unfold selected. rewrite filter_cons, filter_nil. by case_decide. Qed.

Lemma selected_nil_key records minScore k l :
  (∀ b, b ∈ l → key_of records b ≠ k) → selected records minScore k l = [].
Proof.
  intros H. unfold selected. induction l as [|b l IH]; [done|].
  rewrite filter_cons. rewrite decide_False.
  - apply IH. intros b' Hb'. apply H. by right.
  - intros [Hk _]. apply (H b); [by left|done].
Qed.

Section Groups.
Variable add : loc → ref → M unit.
Variable step : (ref → bullet) → list ref → ref → list ref.
Variable minScore : Qc.
Hypothesis add_step : ∀ σ a l b,
  arrays σ !! a = Some l →
  add a b σ = (Ok (), Store (records σ) (<[a := step (records σ) l b]> (arrays σ))).

Lemma group_callback_step σ0 σ companies pre b :
  groups_inv step minScore σ0 σ companies pre →
  (Js.inherited (key_of (records σ0) b) = true ∧ passes (records σ0) minScore b = true ∧
   ∃ σ', group_callback add minScore b companies σ = (TypeError, σ') ∧ frame σ0 σ') ∨
  (¬ (Js.inherited (key_of (records σ0) b) = true ∧ passes (records σ0) minScore b = true) ∧
   ∃ companies' σ', group_callback add minScore b companies σ = (Ok companies', σ') ∧
     groups_inv step minScore σ0 σ' companies' (pre ++ [b])).
Proof.
  intros ([Hrec Hfr] & Hcont & Hinj & Hdom).
  unfold group_callback, bind, read_bullet. rewrite Hrec.
  fold (key_of (records σ0) b). fold (passes (records σ0) minScore b).
  remember (key_of (records σ0) b) as k eqn:Hkdef.
  remember (passes (records σ0) minScore b) as ps eqn:Hpsdef.
  assert (∀ k', k' ≠ k ∨ ps = false →
            selected (records σ0) minScore k' (pre ++ [b]) =
            selected (records σ0) minScore k' pre) as Hsel_other.
  { intros k' Hk'. rewrite selected_app, selected_singleton, decide_False, app_nil_r; [done|].
    rewrite <-Hkdef, <-Hpsdef. intros [? ?]. destruct Hk'; congruence. }
  assert (ps = true →
            selected (records σ0) minScore k (pre ++ [b]) =
            selected (records σ0) minScore k pre ++ [b]) as Hsel_same.
  { intros Hps. rewrite selected_app, selected_singleton, decide_True; [done|].
    by rewrite <-Hkdef, <-Hpsdef. }
  assert (is_Some (companies !! k) ∨ Js.inherited k = true →
          ∀ k', is_Some (companies !! k') ↔
                Js.inherited k' = false ∧
                ∃ b', b' ∈ pre ++ [b] ∧ key_of (records σ0) b' = k') as Hdom_keep.
  { intros Hk k'. rewrite Hdom.
    split; intros [Hni (b' & Hb' & Hkb)]; (split; [done|]).
    - exists b'. split; [|done]. apply elem_of_app. by left.
    - apply elem_of_app in Hb' as [Hb'|Hb'%list_elem_of_singleton]; [by eauto|].
      subst b'. rewrite <-Hkdef in Hkb. subst k'. destruct Hk as [Hk|Hk]; [|congruence].
      by apply Hdom in Hk as [_ ?]. }
  assert (∀ k' a', companies !! k' = Some a' → a' < length (arrays σ)) as Hlt.
  { intros k' a' Hk'. destruct (Hcont k' a' Hk') as [_ Ha']. by eapply lookup_lt_Some. }
  assert (length (arrays σ0) ≤ length (arrays σ)) as Hlen.
  { destruct (decide (length (arrays σ0) ≤ length (arrays σ))); [done|].
    destruct (lookup_lt_is_Some_2 (arrays σ0) (length (arrays σ))) as [x Hx]; [lia|].
    apply Hfr, lookup_lt_Some in Hx. lia. }
  destruct (companies !! k) as [a|] eqn:Hk.
  - (* the group exists *)
    do 2 (unfold Js.get; rewrite ?Hk; cbv beta iota delta [Js.falsy ret]).
    assert (Js.inherited k = false) as Hni by (apply Hdom; eauto).
    right. split; [rewrite Hni; by intros [? _]|].
    destruct (Hcont k a Hk) as [Hge Ha].
    destruct ps eqn:Hps.
    + rewrite (add_step _ _ _ _ Ha). eexists _, _. split; [done|].
      unfold groups_inv, frame; cbn [records arrays]. rewrite Hrec.
      split_and!; [done| | |done|by eauto].
      * intros l x Hl. rewrite list_lookup_insert_ne; [by apply Hfr|].
        apply lookup_lt_Some in Hl. lia.
      * intros k' a' Hk'. destruct (Hcont k' a' Hk') as [Hge' Ha']. split; [done|].
        destruct (decide (k' = k)) as [->|Hne].
        -- assert (a' = a) as -> by congruence.
           rewrite list_lookup_insert_eq by (by eapply lookup_lt_Some).
           by rewrite Hsel_same, foldl_app.
        -- rewrite list_lookup_insert_ne by (intros ->; by apply Hne, (Hinj _ _ a')).
           by rewrite Hsel_other by (by left).
    + eexists _, _. split; [done|].
      split_and!; [by split| |done|by eauto].
      intros k' a' Hk'. rewrite Hsel_other by (by right). by apply Hcont.
  - destruct (Js.inherited k) eqn:Hin.
    + (* an inherited property stands in for the group *)
      do 2 (unfold Js.get; rewrite ?Hk, ?Hin; cbv beta iota delta [Js.falsy ret]).
      destruct ps eqn:Hps.
      * left. split_and!; [done..|]. eexists. split; [done|]. by split.
      * right. split; [by intros [_ ?]|]. eexists _, _. split; [done|].
        split_and!; [by split| |done|by eauto].
        intros k' a' Hk'. rewrite Hsel_other by (by right). by apply Hcont.
    + (* a new group *)
      do 2 (unfold Js.get;
            rewrite ?Hk, ?Hin, ?lookup_insert_eq;
            cbv beta iota delta [Js.falsy ret new_array]).
      right. split; [by intros [? _]|].
      assert (selected (records σ0) minScore k pre = []) as Hnil.
      { apply selected_nil_key. intros b' Hb' Hkb.
        assert (is_Some (companies !! k)) as [? ?] by (apply Hdom; eauto). congruence. }
      assert (∀ k', is_Some (<[k := length (arrays σ)]> companies !! k') ↔
                Js.inherited k' = false ∧
                ∃ b', b' ∈ pre ++ [b] ∧ key_of (records σ0) b' = k') as Hdom'.
      { intros k'. destruct (decide (k' = k)) as [->|Hne].
        - rewrite lookup_insert_eq. split; [intros _|by eauto].
          split; [done|]. exists b. split; [|done]. apply elem_of_app. right. by left.
        - rewrite lookup_insert_ne by done. rewrite Hdom.
          split; intros [Hni (b' & Hb' & Hkb)]; (split; [done|]).
          + exists b'. split; [|done]. apply elem_of_app. by left.
          + apply elem_of_app in Hb' as [Hb'|Hb'%list_elem_of_singleton]; [by eauto|].
            subst b'. destruct Hne. congruence. }
      assert (∀ k1 k2 a', <[k := length (arrays σ)]> companies !! k1 = Some a' →
                <[k := length (arrays σ)]> companies !! k2 = Some a' → k1 = k2) as Hinj'.
      { intros k1 k2 a'. rewrite !lookup_insert.
        repeat case_decide; subst; try done.
        - intros [= <-] Hk2. apply Hlt in Hk2. lia.
        - intros Hk1 [= <-]. apply Hlt in Hk1. lia.
        - apply Hinj. }
      destruct ps eqn:Hps.
      * rewrite (add_step _ _ []) by (cbn; by rewrite lookup_app_r, Nat.sub_diag by lia).
        eexists _, _. split; [done|]. unfold groups_inv, frame; cbn [records arrays].
        split_and!; [done| | |done|done].
        -- intros l x Hl.
           rewrite list_lookup_insert_ne by (apply lookup_lt_Some in Hl; lia).
           apply lookup_app_l_Some. by apply Hfr.
        -- intros k' a'. rewrite lookup_insert. case_decide as Hkk.
           ++ intros [= <-]. subst k'. split; [done|].
              rewrite list_lookup_insert_eq by (rewrite length_app; cbn; lia).
              by rewrite Hrec, Hsel_same, Hnil.
           ++ intros Hk'. destruct (Hcont k' a' Hk') as [Hge' Ha']. split; [done|].
              rewrite list_lookup_insert_ne by (apply Hlt in Hk'; lia).
              rewrite Hsel_other by (left; congruence).
              by apply lookup_app_l_Some.
      * eexists _, _. split; [done|]. unfold groups_inv, frame; cbn [records arrays].
        split_and!; [done| | |done|done].
        -- intros l x Hl. apply lookup_app_l_Some. by apply Hfr.
        -- intros k' a'. rewrite Hsel_other by (by right).
           rewrite lookup_insert. case_decide as Hkk.
           ++ intros [= <-]. subst k'. split; [done|].
              rewrite lookup_app_r, Nat.sub_diag by lia. by rewrite Hnil.
           ++ intros Hk'. destruct (Hcont k' a' Hk') as [Hge' Ha']. split; [done|].
              by apply lookup_app_l_Some.
Qed.
End Groups.

Lemma throws_nil records minScore : ¬ throws records minScore [].
Proof. intros (b & Hb & _). by apply elem_of_nil in Hb. Qed.

Lemma throws_cons records minScore b bs :
  throws records minScore (b :: bs) ↔
  (Js.inherited (key_of records b) = true ∧ passes records minScore b = true) ∨
  throws records minScore bs.
Proof.
  unfold throws. split.
  - intros (b' & [->|Hb']%elem_of_cons & Hk & Hp); [by left|right; eauto].
  - intros [[Hk Hp]|(b' & Hb' & Hk & Hp)].
    + exists b. split; [by left|done].
    + exists b'. split; [by right|done].
Qed.

Lemma forEach_from_step {V} (a : loc) (callback : ref → V → M V) k n s σ bs b :
  arrays σ !! a = Some bs → bs !! k = Some b →
  forEach_from a callback k (S n) s σ =
  bind (callback b s) (forEach_from a callback (k + 1) n) σ.
Proof.
  intros Ha Hb. cbn [forEach_from]. unfold bind at 1 2, array_get, bind, array_contents, ret.
  by rewrite Ha, Hb.
Qed.

Lemma forEach_from_ext {V} (a : loc) (f g : ref → V → M V) :
  (∀ b s σ, f b s σ = g b s σ) →
  ∀ n k s σ, forEach_from a f k n s σ = forEach_from a g k n s σ.
Proof.
  intros Hfg. induction n as [|n IH]; intros k s σ; [done|].
  cbn [forEach_from]. unfold bind.
  destruct (array_get a k σ) as [[x| |] σ1]; [|done..].
  destruct x as [b|]; [rewrite Hfg|]; cbn [ret].
  - destruct (g b s σ1) as [[s'| |] σ2]; [apply IH|done..].
  - apply IH.
Qed.

Section Groups.
Variable add : loc → ref → M unit.
Variable step : (ref → bullet) → list ref → ref → list ref.
Variable minScore : Qc.
Hypothesis add_step : ∀ σ a l b,
  arrays σ !! a = Some l →
  add a b σ = (Ok (), Store (records σ) (<[a := step (records σ) l b]> (arrays σ))).

Lemma forEach_from_groups σ0 bullets bs :
  arrays σ0 !! bullets = Some bs →
  ∀ n k σ companies,
    k + n = length bs →
    groups_inv step minScore σ0 σ companies (take k bs) →
    (throws (records σ0) minScore (drop k bs) ∧
     ∃ σ', forEach_from bullets (group_callback add minScore) k n companies σ
             = (TypeError, σ') ∧ frame σ0 σ') ∨
    (¬ throws (records σ0) minScore (drop k bs) ∧
     ∃ companies' σ',
       forEach_from bullets (group_callback add minScore) k n companies σ
         = (Ok companies', σ') ∧
       groups_inv step minScore σ0 σ' companies' bs).
Proof.
  intros Hbs. induction n as [|n IH]; intros k σ companies Hk Hinv.
  { right. rewrite drop_ge by lia. split; [apply throws_nil|].
    exists companies, σ. split; [done|]. by rewrite take_ge in Hinv by lia. }
  destruct (lookup_lt_is_Some_2 bs k) as [b Hb]; [lia|].
  assert (arrays σ !! bullets = Some bs) as Hbs' by (by apply Hinv).
  rewrite (forEach_from_step _ _ _ _ _ _ _ _ Hbs' Hb).
  rewrite (drop_S _ _ _ Hb), throws_cons. unfold bind.
  destruct (group_callback_step add step minScore add_step σ0 σ companies _ b Hinv)
    as [(Hin & Hps & σ' & -> & Hfr)|(Hno & companies' & σ' & -> & Hinv')].
  { left. split; [by left|]. by exists σ'. }
  rewrite <-(take_S_r _ _ _ Hb), <-Nat.add_1_r in Hinv'.
  destruct (IH (k + 1) σ' companies') as [[Hthr Hrun]|[Hthr Hrun]]; [lia|done|..].
  - left. rewrite Nat.add_1_r in Hthr. split; [by right|done].
  - right. rewrite Nat.add_1_r in Hthr. split; [|done]. by intros [?|?].
Qed.

Lemma forEach_groups σ0 bullets bs :
  arrays σ0 !! bullets = Some bs →
  (throws (records σ0) minScore bs ∧
   ∃ σ', forEach bullets (group_callback add minScore) ∅ σ0 = (TypeError, σ') ∧
         frame σ0 σ') ∨
  (¬ throws (records σ0) minScore bs ∧
   ∃ companies σ',
     forEach bullets (group_callback add minScore) ∅ σ0 = (Ok companies, σ') ∧
     groups_inv step minScore σ0 σ' companies bs).
Proof.
  intros Hbs. unfold forEach, bind, array_length, bind, array_contents, ret.
  rewrite Hbs.
  apply (forEach_from_groups σ0 bullets bs Hbs (length bs) 0 σ0 ∅); [done|].
  split_and!; [apply frame_refl|..].
  - intros k a. by rewrite lookup_empty.
  - intros k1 k2 a. by rewrite lookup_empty.
  - intros k. rewrite lookup_empty. split; [by intros [? ?]|].
    intros [_ (b & Hb & _)]. by apply elem_of_nil in Hb.
Qed.
End Groups.

(** ** The second loop *)

Section Entries.
Variable body : string * loc → gmap string loc → M (gmap string loc).
Variable g : (ref → bullet) → list ref → list ref.
Hypothesis body_spec : ∀ σ k a result l,
  arrays σ !! a = Some l →
  ∃ σ', body (k, a) result σ = (Ok (<[k := length (arrays σ)]> result), σ') ∧
        records σ' = records σ ∧
        length (arrays σ') = S (length (arrays σ)) ∧
        arrays σ' !! length (arrays σ) = Some (g (records σ) l) ∧
        ∀ j, j ≠ a → j < length (arrays σ) → arrays σ' !! j = arrays σ !! j.

Lemma for_of_entries es : ∀ σ result,
  NoDup es.*1 → NoDup es.*2 →
  (∀ k a, (k, a) ∈ es → is_Some (arrays σ !! a)) →
  ∃ result' σ',
    for_of es body result σ = (Ok result', σ') ∧
    records σ' = records σ ∧
    length (arrays σ) ≤ length (arrays σ') ∧
    (∀ j, j < length (arrays σ) → j ∉ es.*2 → arrays σ' !! j = arrays σ !! j) ∧
    (∀ k, k ∉ es.*1 → result' !! k = result !! k) ∧
    (∀ k a l, (k, a) ∈ es → arrays σ !! a = Some l →
       ∃ r, result' !! k = Some r ∧ length (arrays σ) ≤ r ∧
            arrays σ' !! r = Some (g (records σ) l)).
Proof.
  induction es as [|[k a] es IH]; intros σ result Hnd1 Hnd2 Hes.
  { exists result, σ. split_and!; try done. intros k a l Hin. by apply elem_of_nil in Hin. }
  cbn [for_of]. unfold bind.
  apply NoDup_cons in Hnd1 as [Hk Hnd1]. apply NoDup_cons in Hnd2 as [Ha Hnd2].
  cbn [fmap list_fmap fst snd] in Hk, Ha.
  destruct (Hes k a) as [l Hl]; [by left|].
  destruct (body_spec σ k a result l Hl) as (σ1 & -> & Hrec1 & Hlen1 & Hnew1 & Hold1).
  assert (∀ k' a', (k', a') ∈ es → a' ≠ a ∧ a' < length (arrays σ)) as Hother.
  { intros k' a' Hin. split.
    - intros ->. apply Ha. apply list_elem_of_fmap. by exists (k', a).
    - destruct (Hes k' a') as [? ?%lookup_lt_Some]; [by right|done]. }
  destruct (IH σ1 (<[k := length (arrays σ)]> result) Hnd1 Hnd2)
    as (result' & σ' & -> & Hrec & Hlen & Hold & Hres & Hnew).
  { intros k' a' Hin. destruct (Hother k' a' Hin) as [Hne Hlt].
    rewrite Hold1 by done. apply (Hes k' a'). by right. }
  exists result', σ'. split_and!; [done|congruence|lia| | |].
  - intros j Hj Hjn. rewrite Hold, Hold1; [done| |lia|lia|].
    + intros ->. apply Hjn. by left.
    + intros Hin. apply Hjn. by right.
  - intros k' Hk'. rewrite Hres.
    + apply lookup_insert_ne. intros ->. apply Hk'. by left.
    + intros Hin. apply Hk'. by right.
  - intros k' a' l' [[= -> ->]|Hin]%elem_of_cons Hl'.
    + assert (l' = l) as -> by congruence.
      exists (length (arrays σ)). split_and!; [|done|].
      * by rewrite Hres, lookup_insert_eq.
      * rewrite Hold, Hnew1; [done|lia|].
        intros (x & Hx & Hin)%list_elem_of_fmap. destruct x as [k' a'].
        cbn in Hx. subst a'. apply Hother in Hin. lia.
    + destruct (Hother k' a' Hin) as [Hne Hlt].
      destruct (Hnew k' a' l' Hin) as (r & Hr & Hge & Hcont).
      { by rewrite Hold1. }
      exists r. split_and!; [done|lia|by rewrite <-Hrec1].
Qed.
End Entries.

(** ** Both loops together *)

Lemma store_eta σ : Store (records σ) (arrays σ) = σ.
Proof. by destruct σ. Qed.

Section Select.
Variable add : loc → ref → M unit.
Variable step : (ref → bullet) → list ref → ref → list ref.
Variable body : string * loc → gmap string loc → M (gmap string loc).
Variable g : (ref → bullet) → list ref → list ref.
Variable minScore : Qc.
Hypothesis add_step : ∀ σ a l b,
  arrays σ !! a = Some l →
  add a b σ = (Ok (), Store (records σ) (<[a := step (records σ) l b]> (arrays σ))).
Hypothesis body_spec : ∀ σ k a result l,
  arrays σ !! a = Some l →
  ∃ σ', body (k, a) result σ = (Ok (<[k := length (arrays σ)]> result), σ') ∧
        records σ' = records σ ∧
        length (arrays σ') = S (length (arrays σ)) ∧
        arrays σ' !! length (arrays σ) = Some (g (records σ) l) ∧
        ∀ j, j ≠ a → j < length (arrays σ) → arrays σ' !! j = arrays σ !! j.

Abbreviation select := (select add body minScore).

Lemma select_not_array σ0 bullets :
  arrays σ0 !! bullets = None → select bullets σ0 = (TypeError, σ0).
Proof.
  intros Hb. unfold select, bind, forEach, bind, array_length, bind, array_contents.
  by rewrite Hb.
Qed.

Lemma select_spec σ0 bullets bs :
  arrays σ0 !! bullets = Some bs →
  (throws (records σ0) minScore bs ∧
   ∃ σ', select bullets σ0 = (TypeError, σ') ∧ frame σ0 σ') ∨
  (¬ throws (records σ0) minScore bs ∧
   ∃ result σ',
     select bullets σ0 = (Ok result, σ') ∧ frame σ0 σ' ∧
     (∀ k, is_Some (result !! k) ↔
           Js.inherited k = false ∧ ∃ b, b ∈ bs ∧ key_of (records σ0) b = k) ∧
     (∀ k r, result !! k = Some r →
        arrays σ' !! r =
        Some (g (records σ0)
                (foldl (step (records σ0)) [] (selected (records σ0) minScore k bs))))).
Proof.
  intros Hbs. unfold select, bind.
  destruct (forEach_groups add step minScore add_step σ0 bullets bs Hbs)
    as [(Hthr & σ1 & -> & Hfr)|(Hthr & companies & σ1 & -> & Hinv)].
  { left. split; [done|]. by exists σ1. }
  right. split; [done|].
  destruct Hinv as ([Hrec1 Hfr1] & Hcont & Hinj & Hdom).
  assert (∀ k a, (k, a) ∈ entries companies ↔ companies !! k = Some a) as Hes.
  { intros k a. apply elem_of_map_to_list. }
  destruct (for_of_entries body g body_spec (entries companies) σ1 ∅)
    as (result & σ' & -> & Hrec & Hlen & Hold & Hres & Hnew).
  { apply NoDup_fst_map_to_list. }
  { apply NoDup_fmap_2_strong; [|apply NoDup_map_to_list].
    intros [k1 a1] [k2 a2] H1%Hes H2%Hes. cbn. intros <-.
    by rewrite (Hinj k1 k2 a1). }
  { intros k a Hka%Hes. destruct (Hcont k a Hka) as [_ ->]. eauto. }
  assert (∀ k, k ∈ (entries companies).*1 ↔ is_Some (companies !! k)) as Hkeys.
  { intros k. rewrite list_elem_of_fmap. split.
    - intros ([k' a] & -> & Hin%Hes). eauto.
    - intros [a Ha%Hes]. by exists (k, a). }
  exists result, σ'. split_and!; [done|split| |].
  - congruence.
  - intros l x Hl. rewrite Hold; [by apply Hfr1| |].
    + by apply Hfr1, lookup_lt_Some in Hl.
    + intros ([k a] & -> & Hin%Hes)%list_elem_of_fmap. cbn in Hl.
      destruct (Hcont k a Hin) as [Hge _]. apply lookup_lt_Some in Hl. lia.
  - intros k. rewrite <-Hdom, <-Hkeys.
    destruct (decide (k ∈ (entries companies).*1)) as [Hin|Hin].
    + split; [done|intros _]. apply Hkeys in Hin as [a Ha].
      destruct (Hcont k a Ha) as [_ Hl].
      destruct (Hnew k a _ (proj2 (Hes k a) Ha) Hl) as (r & -> & _). eauto.
    + rewrite Hres, lookup_empty by done. split; [by intros [? ?]|done].
  - intros k r Hr.
    destruct (decide (k ∈ (entries companies).*1)) as [Hin|Hin].
    + apply Hkeys in Hin as [a Ha]. destruct (Hcont k a Ha) as [_ Hl].
      destruct (Hnew k a _ (proj2 (Hes k a) Ha) Hl) as (r' & Hr' & _ & Hc).
      assert (r' = r) as -> by congruence. by rewrite Hc, Hrec1.
    + rewrite Hres, lookup_empty in Hr by done. done.
Qed.
End Select.

(** ** The full-sort strategy *)

Lemma array_push_step σ a l b :
  arrays σ !! a = Some l →
  array_push a b σ = (Ok (), Store (records σ) (<[a := l ++ [b]]> (arrays σ))).
Proof. intros Ha. unfold array_push, bind, array_contents, array_update. by rewrite Ha. Qed.

Lemma foldl_snoc (l : list ref) : foldl (λ l b, l ++ [b]) [] l = l.
Proof.
  induction l as [|x l IH] using rev_ind; [done|]. by rewrite foldl_app, IH.
Qed.

Lemma sort_body_spec topK σ k a result l :
  arrays σ !! a = Some l →
  ∃ σ', sort_body topK (k, a) result σ = (Ok (<[k := length (arrays σ)]> result), σ') ∧
        records σ' = records σ ∧
        length (arrays σ') = S (length (arrays σ)) ∧
        arrays σ' !! length (arrays σ) =
          Some (Js.slice0 (Js.sort (by_score_descending (records σ)) l) topK) ∧
        ∀ j, j ≠ a → j < length (arrays σ) → arrays σ' !! j = arrays σ !! j.
Proof.
  intros Ha. pose proof (lookup_lt_Some _ _ _ Ha) as Hlt.
  unfold sort_body, array_sort_by_score, array_slice0, bind, array_contents, array_update,
    new_array, read_records, ret. rewrite Ha. cbn [records arrays].
  rewrite list_lookup_insert_eq by done. cbn [records arrays]. rewrite length_insert.
  eexists. split; [done|]. cbn [records arrays]. split_and!; [done|..].
  - by rewrite length_insert, length_app, length_insert, Nat.add_1_r.
  - rewrite list_lookup_insert_eq; [done|]. rewrite length_app, length_insert. cbn. lia.
  - intros j Hja Hj. rewrite list_lookup_insert_ne by lia.
    rewrite lookup_app_l by (by rewrite length_insert).
    by rewrite list_lookup_insert_ne.
Qed.

Lemma filterBulletsByCompany_select bullets topK minScore :
  filterBulletsByCompany bullets topK minScore =
  select array_push (sort_body topK) minScore bullets.
Proof. done. Qed.

(** What [filterBulletsByCompany] does: it throws on a bullet that passes
    the threshold under an inherited key, and else returns the groups
    [group_by_sort], one for each other key of the input; it never changes
    what was in the store. *)
Lemma filterBulletsByCompany_spec σ0 bullets topK minScore bs :
  arrays σ0 !! bullets = Some bs →
  (throws (records σ0) minScore bs ∧
   ∃ σ', filterBulletsByCompany bullets topK minScore σ0 = (TypeError, σ') ∧ frame σ0 σ') ∨
  (¬ throws (records σ0) minScore bs ∧
   ∃ result σ',
     filterBulletsByCompany bullets topK minScore σ0 = (Ok result, σ') ∧ frame σ0 σ' ∧
     (∀ k, is_Some (result !! k) ↔
           Js.inherited k = false ∧ ∃ b, b ∈ bs ∧ key_of (records σ0) b = k) ∧
     (∀ k r, result !! k = Some r →
        arrays σ' !! r = Some (group_by_sort (records σ0) topK minScore k bs))).
Proof.
  intros Hbs. rewrite filterBulletsByCompany_select.
  destruct (select_spec array_push (λ _ l b, l ++ [b]) (sort_body topK)
              (λ records l, Js.slice0 (Js.sort (by_score_descending records) l) topK)
              minScore array_push_step (sort_body_spec topK) σ0 bullets bs Hbs)
    as [?|(Hthr & result & σ' & Hrun & Hfr & Hdom & Hcont)]; [by left|].
  right. split; [done|]. exists result, σ'. split_and!; try done.
  intros k r Hr. rewrite (Hcont k r Hr). by rewrite foldl_snoc.
Qed.

(** ** The bounded-heap strategy *)

Lemma heap_size_run σ h heap :
  arrays σ !! h = Some heap → heap_size h σ = (Ok (length heap), σ).
Proof.
  intros Hh. unfold heap_size, method, bind, array_contents. rewrite Hh.
  unfold MinHeap.size. by rewrite list_insert_id, store_eta.
Qed.

Lemma heap_insert_run σ h heap b :
  arrays σ !! h = Some heap →
  ∃ heap', MinHeap.insert (records σ) heap b = Ok heap' ∧
           heap_insert h b σ = (Ok (), Store (records σ) (<[h := heap']> (arrays σ))).
Proof.
  intros Hh. destruct (insert_spec (records σ) heap b) as (heap' & Hins & _).
  exists heap'. split; [done|].
  unfold heap_insert, method, bind, array_contents. by rewrite Hh, Hins.
Qed.

Lemma extractMin_total records heap :
  ∃ x heap', MinHeap.extractMin records heap = Ok (x, heap') ∧
             (heap = [] → x = None ∧ heap' = []) ∧
             (heap ≠ [] → ∃ m, x = Some m ∧ heap ≡ₚ m :: heap').
Proof.
  destruct heap as [|r heap].
  - exists None, []. by split_and!.
  - destruct (extractMin_spec records (r :: heap)) as (m & heap' & -> & _ & Hperm & _); [done|].
    exists (Some m), heap'. split_and!; [done..|]. intros _. by exists m.
Qed.

Lemma heap_extractMin_run σ h heap :
  arrays σ !! h = Some heap →
  ∃ x heap', MinHeap.extractMin (records σ) heap = Ok (x, heap') ∧
             heap_extractMin h σ = (Ok x, Store (records σ) (<[h := heap']> (arrays σ))).
Proof.
  intros Hh. destruct (extractMin_total (records σ) heap) as (x & heap' & Hex & _).
  exists x, heap'. split; [done|].
  unfold heap_extractMin, method, bind, array_contents. by rewrite Hh, Hex.
Qed.

Lemma heap_add_step topK σ h heap b :
  arrays σ !! h = Some heap →
  heap_add topK h b σ =
  (Ok (), Store (records σ) (<[h := heap_step topK (records σ) heap b]> (arrays σ))).
Proof.
  intros Hh. pose proof (lookup_lt_Some _ _ _ Hh) as Hlt.
  unfold heap_add, heap_step, bind.
  destruct (heap_insert_run σ h heap b Hh) as (heap1 & -> & ->).
  rewrite (heap_size_run _ h heap1) by (by apply list_lookup_insert_eq).
  unfold MinHeap.size. case_decide; [|done].
  destruct (heap_extractMin_run (Store (records σ) (<[h := heap1]> (arrays σ))) h heap1)
    as (x & heap2 & Hex & ->); [by apply list_lookup_insert_eq|].
  cbn [records arrays] in *. rewrite Hex. unfold ret.
  by rewrite list_insert_insert_eq.
Qed.

Lemma heap_callback_eq topK minScore bullet companies σ :
  (let* b := read_bullet bullet in
   let company := company_or_unknown (company b) in
   let* companies :=
     if Js.falsy (Js.get companies company) then
       let* h := new_MinHeap in ret (<[company := h]> companies)
     else ret companies in
   if Js.ge (relevance_score b) (Some minScore) then
     match Js.get companies company with
     | Js.Own h =>
         let* _ := heap_insert h bullet in
         let* n := heap_size h in
         if decide (topK < Z.of_nat n)%Z then
           let* _ := heap_extractMin h in ret companies
         else ret companies
     | _ => throw
     end
   else ret companies) σ =
  group_callback (heap_add topK) minScore bullet companies σ.
Proof.
  unfold group_callback, heap_add, new_MinHeap, bind, ret.
  repeat (case_match; simplify_eq; try done).
Qed.

Lemma bind_ext_l {A B} (m1 m2 : M A) (k : A → M B) σ :
  m1 σ = m2 σ → bind m1 k σ = bind m2 k σ.
Proof. unfold bind. by intros ->. Qed.

Lemma forEach_ext {V} (a : loc) (f g : ref → V → M V) s σ :
  (∀ b s σ, f b s σ = g b s σ) → forEach a f s σ = forEach a g s σ.
Proof.
  intros Hfg. unfold forEach, bind.
  destruct (array_length a σ) as [[n| |] σ1]; [|done..].
  by apply forEach_from_ext.
Qed.

Lemma filterBulletsWithHeap_select bullets topK minScore σ :
  filterBulletsWithHeap bullets topK minScore σ =
  select (heap_add topK) heap_body minScore bullets σ.
Proof.
  unfold filterBulletsWithHeap, select.
  apply (bind_ext_l _ (forEach bullets (group_callback (heap_add topK) minScore) ∅)).
  apply forEach_ext. intros b s σ'. apply heap_callback_eq.
Qed.

Lemma drain_run fuel : ∀ σ heap arr H A,
  heap ≠ arr →
  arrays σ !! heap = Some H → arrays σ !! arr = Some A →
  length H ≤ fuel →
  drain fuel heap arr σ =
  (Ok (), Store (records σ)
            (<[arr := drained (records σ) fuel H A]> (<[heap := []]> (arrays σ)))).
Proof.
  induction fuel as [|fuel IH]; intros σ heap arr H A Hne Hh Ha Hfuel.
  - destruct H; [|cbn in Hfuel; lia].
    cbn [drain drained]. unfold bind. rewrite (heap_size_run _ _ _ Hh). cbn.
    rewrite decide_False by lia. unfold ret.
    rewrite (list_insert_id _ heap []), (list_insert_id _ arr A) by done.
    by rewrite store_eta.
  - cbn [drain]. unfold bind. rewrite (heap_size_run _ _ _ Hh).
    destruct H as [|r H].
    { cbn. rewrite decide_False by lia. unfold ret.
      rewrite (list_insert_id _ heap []), (list_insert_id _ arr A) by done.
      by rewrite store_eta. }
    rewrite decide_True by (cbn; lia).
    destruct (heap_extractMin_run σ heap (r :: H) Hh) as (x & H' & Hex & ->).
    destruct (extractMin_total (records σ) (r :: H)) as (x' & H'' & Hex' & _ & Hsome).
    rewrite Hex in Hex'. injection Hex' as <- <-.
    destruct Hsome as (m & -> & Hperm); [done|].
    pose proof (lookup_lt_Some _ _ _ Hh) as Hlth. pose proof (lookup_lt_Some _ _ _ Ha) as Hlta.
    unfold array_unshift, bind, array_contents, array_update. cbn [records arrays].
    rewrite list_lookup_insert_ne by done. rewrite Ha.
    erewrite IH; [|done| | |]; cbn [records arrays].
    + cbn [drained]. rewrite Hex. f_equal. f_equal.
      rewrite (list_insert_insert_ne _ heap arr [] (m :: A)) by done.
      by rewrite !list_insert_insert_eq.
    + rewrite list_lookup_insert_ne by done. apply list_lookup_insert_eq. lia.
    + apply list_lookup_insert_eq. by rewrite length_insert.
    + apply Permutation_length in Hperm. cbn in Hperm, Hfuel. lia.
Qed.

Lemma drained_perm records fuel : ∀ H A,
  length H ≤ fuel → drained records fuel H A ≡ₚ H ++ A.
Proof.
  induction fuel as [|fuel IH]; intros H A Hfuel.
  - destruct H; [done|cbn in Hfuel; lia].
  - destruct H as [|r H]; [done|]. cbn [drained].
    destruct (extractMin_spec records (r :: H)) as (m & H' & -> & _ & Hperm & _); [done|].
    rewrite IH.
    + rewrite Hperm. cbn. by rewrite Permutation_middle.
    + apply Permutation_length in Hperm. cbn in Hperm, Hfuel. lia.
Qed.

Lemma heap_body_spec σ k h result H :
  arrays σ !! h = Some H →
  ∃ σ', heap_body (k, h) result σ = (Ok (<[k := length (arrays σ)]> result), σ') ∧
        records σ' = records σ ∧
        length (arrays σ') = S (length (arrays σ)) ∧
        arrays σ' !! length (arrays σ) =
          Some (Js.sort (by_score_descending (records σ))
                  (drained (records σ) (length H) H [])) ∧
        ∀ j, j ≠ h → j < length (arrays σ) → arrays σ' !! j = arrays σ !! j.
Proof.
  intros Hh. pose proof (lookup_lt_Some _ _ _ Hh) as Hlt.
  unfold heap_body, bind, new_array.
  set (σ1 := Store (records σ) (arrays σ ++ [[]])).
  assert (arrays σ1 !! h = Some H) as Hh1 by (by apply lookup_app_l_Some).
  assert (arrays σ1 !! length (arrays σ) = Some []) as Ha1
    by (cbn; by rewrite lookup_app_r, Nat.sub_diag by lia).
  rewrite (heap_size_run _ _ _ Hh1).
  rewrite (drain_run _ σ1 h (length (arrays σ)) H []) by (done || lia).
  unfold array_sort_by_score, bind, array_contents, array_update, read_records, ret.
  subst σ1. cbn [records arrays].
  rewrite list_lookup_insert_eq by (rewrite length_insert, length_app; cbn; lia).
  eexists. split; [done|]. cbn [records arrays]. split_and!; [done|..].
  - rewrite !length_insert, length_app. cbn. lia.
  - rewrite list_lookup_insert_eq; [done|]. rewrite !length_insert, length_app. cbn. lia.
  - intros j Hj Hjlt. rewrite !list_lookup_insert_ne by lia. by apply lookup_app_l.
Qed.

(** What [filterBulletsWithHeap] does: it throws when [filterBulletsByCompany]
    does, and else returns the groups [group_by_heap] under the same keys;
    it never changes what was in the store. *)
Lemma filterBulletsWithHeap_spec σ0 bullets topK minScore bs :
  arrays σ0 !! bullets = Some bs →
  (throws (records σ0) minScore bs ∧
   ∃ σ', filterBulletsWithHeap bullets topK minScore σ0 = (TypeError, σ') ∧ frame σ0 σ') ∨
  (¬ throws (records σ0) minScore bs ∧
   ∃ result σ',
     filterBulletsWithHeap bullets topK minScore σ0 = (Ok result, σ') ∧ frame σ0 σ' ∧
     (∀ k, is_Some (result !! k) ↔
           Js.inherited k = false ∧ ∃ b, b ∈ bs ∧ key_of (records σ0) b = k) ∧
     (∀ k r, result !! k = Some r →
        arrays σ' !! r = Some (group_by_heap (records σ0) topK minScore k bs))).
Proof.
  intros Hbs. rewrite filterBulletsWithHeap_select.
  apply (select_spec (heap_add topK) (heap_step topK) heap_body
           (λ records H, Js.sort (by_score_descending records)
                           (drained records (length H) H []))
           minScore (heap_add_step topK) heap_body_spec σ0 bullets bs Hbs).
Qed.

Lemma filter_not_array σ0 bullets topK minScore :
  arrays σ0 !! bullets = None →
  filterBulletsByCompany bullets topK minScore σ0 = (TypeError, σ0) ∧
  filterBulletsWithHeap bullets topK minScore σ0 = (TypeError, σ0).
Proof.
  intros Hb. rewrite filterBulletsWithHeap_select, filterBulletsByCompany_select.
  split; by apply select_not_array.
Qed.

(** ** Sorted lists of scores *)

Lemma StronglySorted_impl {A} (R R' : A → A → Prop) l :
  (∀ x y, R x y → R' x y) → StronglySorted R l → StronglySorted R' l.
Proof.
  intros HR. induction 1 as [|x l Hs IH Hx]; constructor; [done|].
  eapply Forall_impl; [exact Hx|]. intros y. apply HR.
Qed.

Lemma StronglySorted_take {A} (R : A → A → Prop) n l :
  StronglySorted R l → StronglySorted R (take n l).
Proof.
  intros Hs. rewrite <-(take_drop n l) in Hs. by apply StronglySorted_app_1_l in Hs.
Qed.

Lemma StronglySorted_lookup {A} (R : A → A → Prop) l i j x y :
  StronglySorted R l → i < j → l !! i = Some x → l !! j = Some y → R x y.
Proof.
  intros Hs. revert i j. induction Hs as [|z l Hs IH Hz]; intros i j Hij Hi Hj; [done|].
  destruct j as [|j]; [lia|]. destruct i as [|i].
  - injection Hi as ->. cbn in Hj.
    by apply (Forall_lookup_1 _ _ _ _ Hz Hj).
  - apply (IH i j); [lia|done..].
Qed.

Global Instance num_ge_antisym : AntiSymm (=) num_ge.
Proof. intros x y Hxy Hyx. by apply Qcle_antisym. Qed.

Lemma sort_desc_perm l : sort_desc l ≡ₚ l.
Proof. apply sort_perm. Qed.

Lemma sort_desc_sorted l : StronglySorted num_ge (sort_desc l).
Proof.
  eapply StronglySorted_impl; [|apply (sort_sorted Some)].
  - intros x y. apply ge_Some.
  - apply Forall_forall. eauto.
Qed.

Lemma sort_desc_unique l l' :
  StronglySorted num_ge l → l' ≡ₚ l → sort_desc l' = l.
Proof.
  intros Hs Hp. apply (StronglySorted_unique num_ge); [apply sort_desc_sorted|done|].
  by rewrite sort_desc_perm.
Qed.

Lemma sort_desc_proper l l' : l ≡ₚ l' → sort_desc l = sort_desc l'.
Proof. intros Hp. apply sort_desc_unique; [apply sort_desc_sorted|]. by rewrite sort_desc_perm. Qed.

Lemma sort_desc_cons x l :
  sort_desc (x :: l) = Js.sort_insert (λ x y, Js.minus (Some y) (Some x)) x (sort_desc l).
Proof. done. Qed.

Lemma sort_desc_snoc_min x l :
  Forall (λ y, (x ≤ y)%Qc) l → sort_desc (x :: l) = sort_desc l ++ [x].
Proof.
  intros Hmin. apply sort_desc_unique.
  - apply StronglySorted_app_2; [| apply sort_desc_sorted |repeat constructor].
    intros y z Hy Hz%list_elem_of_singleton. subst z.
    rewrite sort_desc_perm in Hy. by apply (proj1 (Forall_forall _ _) Hmin).
  - by rewrite sort_desc_perm, Permutation_app_comm.
Qed.

Lemma take_sort_insert {A} (c : A → A → option Qc) x : ∀ n l,
  take n (Js.sort_insert c x (take n l)) = take n (Js.sort_insert c x l).
Proof.
  induction n as [|n IH]; intros l; [done|].
  destruct l as [|y l]; [done|]. cbn [take Js.sort_insert].
  destruct (Js.sort_compare (c x y)); cbn [take].
  1,2: f_equal; destruct n; [done|]; cbn [take]; f_equal;
    rewrite take_take; f_equal; lia.
  f_equal. apply IH.
Qed.

Section Weights.
Variable records : ref → bullet.
Abbreviation sc := (MinHeap.score records).
Abbreviation w := (weight records).

Lemma scored_perm l l' : l ≡ₚ l' → scored records l → scored records l'.
Proof. intros Hp. unfold scored. by rewrite Hp. Qed.

Lemma sorted_weights l :
  scored records l →
  StronglySorted (λ a b, Js.ge (sc a) (sc b) = true) l →
  StronglySorted num_ge (w <$> l).
Proof.
  intros Hsc Hs. induction Hs as [|x l Hs IH Hx]; [constructor|].
  apply Forall_cons in Hsc as [Hx' Hsc]. cbn. constructor; [by apply IH|].
  apply Forall_fmap, Forall_forall. intros y Hy. cbn.
  pose proof (proj1 (Forall_forall _ _) Hx y Hy) as Hxy.
  pose proof (proj1 (Forall_forall _ _) Hsc y Hy) as Hy'. cbn in Hxy.
  rewrite (sc_weight records x Hx'), (sc_weight records y Hy') in Hxy.
  by apply ge_Some in Hxy.
Qed.

(** The scores of the sorted bullets are the sorted scores. *)
Lemma sort_weights l :
  scored records l →
  w <$> Js.sort (by_score_descending records) l = sort_desc (w <$> l).
Proof.
  intros Hsc. symmetry. apply sort_desc_unique.
  - apply sorted_weights.
    + eapply scored_perm; [|done]. by rewrite sort_perm.
    + by apply (sort_sorted (λ r, relevance_score (records r))).
  - by rewrite sort_perm.
Qed.
End Weights.

(** ** The groups of the two strategies *)

Section GroupProperties.
Variable records : ref → bullet.
Variable topK : Z.
Variable minScore : Qc.
Abbreviation sc := (MinHeap.score records).
Abbreviation w := (weight records).
Abbreviation sel := (selected records minScore).

Lemma elem_of_selected k bs b :
  b ∈ sel k bs ↔ b ∈ bs ∧ key_of records b = k ∧ passes records minScore b = true.
Proof. unfold selected. rewrite list_elem_of_filter. tauto. Qed.

Lemma passes_scored b : passes records minScore b = true → is_Some (sc b).
Proof. intros (x & y & Hx & _)%ge_true_Some. unfold MinHeap.score. rewrite Hx. eauto. Qed.

Lemma selected_scored k bs : scored records (sel k bs).
Proof.
  apply Forall_forall. intros b (_ & _ & Hb)%elem_of_selected. by apply passes_scored.
Qed.

(** *** Full sort *)

Lemma group_by_sort_prefix k bs :
  group_by_sort records topK minScore k bs `prefix_of`
  Js.sort (by_score_descending records) (sel k bs).
Proof. apply slice0_sublist. Qed.

Lemma group_by_sort_elem k bs b :
  b ∈ group_by_sort records topK minScore k bs → b ∈ sel k bs.
Proof.
  intros Hb. destruct (group_by_sort_prefix k bs) as [l' Hl'].
  rewrite <-(sort_perm (by_score_descending records)), Hl'.
  apply elem_of_app. by left.
Qed.

Lemma group_by_sort_sorted k bs :
  StronglySorted (λ a b, Js.ge (sc a) (sc b) = true)
    (group_by_sort records topK minScore k bs).
Proof.
  destruct (group_by_sort_prefix k bs) as [l' Hl'].
  eapply StronglySorted_app_1_l. rewrite <-Hl'.
  apply (sort_sorted (λ r, relevance_score (records r))), selected_scored.
Qed.

Lemma group_by_sort_length k bs :
  (0 ≤ topK)%Z →
  (Z.of_nat (length (group_by_sort records topK minScore k bs)) ≤ topK)%Z.
Proof. apply slice0_length. Qed.

(** *** Bounded heap *)

(** One step of the heap strategy: the bullet goes in, and the root goes
    out when the heap has grown beyond [topK]. *)
Lemma heap_step_spec heap b :
  let heap' := heap_step topK records heap b in
  ((topK < Z.of_nat (S (length heap)))%Z ∧
     ∃ m, b :: heap ≡ₚ m :: heap' ∧
          (scored records (b :: heap) → heap_ok records heap →
           heap_ok records heap' ∧ Forall (λ r, (w m ≤ w r)%Qc) heap')) ∨
  (¬ (topK < Z.of_nat (S (length heap)))%Z ∧ heap' ≡ₚ b :: heap ∧
     (scored records (b :: heap) → heap_ok records heap → heap_ok records heap')).
Proof.
  unfold heap_step.
  destruct (insert_spec records heap b) as (h1 & -> & Hp1 & Hok1).
  assert (length h1 = S (length heap)) as Hlen by apply (Permutation_length Hp1).
  unfold MinHeap.size. rewrite Hlen. case_decide as HK; [left|right; by split_and!].
  split; [done|].
  destruct (extractMin_spec records h1) as (m & h2 & -> & Hroot & Hp2 & Hok2).
  { intros ->. done. }
  exists m. split; [by rewrite <-Hp1|].
  intros Hsc Hheap. specialize (Hok1 Hsc Hheap).
  assert (scored records h1) as Hsc1 by (by apply (scored_perm records (b :: heap))).
  split; [by apply Hok2|].
  apply Forall_forall. intros r Hr.
  apply (heap_root_min records h1 m Hok1 Hroot). rewrite Hp2. by right.
Qed.

Lemma heap_step_submseteq heap b : heap_step topK records heap b ⊆+ b :: heap.
Proof.
  destruct (heap_step_spec heap b) as [(_ & m & Hp & _)|(_ & Hp & _)].
  - rewrite Hp. by apply submseteq_cons.
  - by rewrite Hp.
Qed.

Lemma heap_fold_submseteq l : foldl (heap_step topK records) [] l ⊆+ l.
Proof.
  induction l as [|b l IH] using rev_ind; [done|].
  rewrite foldl_app. cbn. etrans; [apply heap_step_submseteq|].
  rewrite <-Permutation_cons_append. by apply submseteq_skip.
Qed.

(** The heap of a group holds the [topK] best scores of the bullets seen
    so far. *)
Lemma heap_fold_top l :
  (0 ≤ topK)%Z → scored records l →
  let heap := foldl (heap_step topK records) [] l in
  heap_ok records heap ∧
  sort_desc (w <$> heap) = take (Z.to_nat topK) (sort_desc (w <$> l)).
Proof.
  intros HK. induction l as [|b l IH] using rev_ind; intros Hsc.
  { split; [by intros j c p _ ?|]. by destruct (Z.to_nat topK). }
  apply Forall_app in Hsc as [Hsc Hb].
  destruct (IH Hsc) as [Hok Htop]. clear IH.
  rewrite foldl_app. cbn [foldl].
  set (heap := foldl (heap_step topK records) [] l) in *.
  assert (heap ⊆+ l) as Hsub by apply heap_fold_submseteq.
  assert (scored records (b :: heap)) as Hsc'.
  { apply Forall_cons. split; [by apply Forall_inv in Hb|].
    apply Forall_forall. intros r Hr.
    apply (proj1 (Forall_forall _ _) Hsc). by eapply elem_of_submseteq. }
  assert (length heap ≤ Z.to_nat topK) as Hlen.
  { rewrite <-(length_fmap w), <-(Permutation_length (sort_desc_perm _)), Htop.
    rewrite length_take. lia. }
  assert (sort_desc (w <$> l ++ [b]) =
          Js.sort_insert (λ x y, Js.minus (Some y) (Some x)) (w b) (sort_desc (w <$> l)))
    as Hall.
  { rewrite <-sort_desc_cons. apply sort_desc_proper.
    by rewrite fmap_app, Permutation_app_comm. }
  rewrite Hall.
  destruct (heap_step_spec heap b) as [(Hbig & m & Hp & Hh)|(Hsmall & Hp & Hh)].
  - destruct (Hh Hsc' Hok) as [Hok' Hmin]. split; [done|].
    assert (sort_desc (w <$> b :: heap) =
            sort_desc (w <$> heap_step topK records heap b) ++ [w m]) as Hsnoc.
    { rewrite (sort_desc_proper _ (w m :: (w <$> heap_step topK records heap b)))
        by (by rewrite Hp).
      apply sort_desc_snoc_min. by apply Forall_fmap. }
    assert (length (heap_step topK records heap b) = Z.to_nat topK) as Hlen'.
    { apply Permutation_length in Hp. cbn in Hp. lia. }
    rewrite <-take_sort_insert, <-Htop, <-sort_desc_cons.
    change (w b :: (w <$> heap)) with (w <$> b :: heap). rewrite Hsnoc.
    rewrite take_app_length'; [done|].
    by rewrite (Permutation_length (sort_desc_perm _)), length_fmap.
  - split; [by apply Hh|].
    rewrite (sort_desc_proper _ (w <$> b :: heap)) by (by rewrite Hp).
    cbn [fmap list_fmap]. rewrite sort_desc_cons, Htop.
    assert (length (sort_desc (w <$> l)) < Z.to_nat topK) as Hshort.
    { destruct (decide (length (sort_desc (w <$> l)) < Z.to_nat topK)); [done|].
      assert (length heap = Z.to_nat topK); [|lia].
      rewrite <-(length_fmap w), <-(Permutation_length (sort_desc_perm _)), Htop.
      rewrite length_take. lia. }
    rewrite (take_ge (sort_desc _)) by lia.
    rewrite take_ge; [done|].
    rewrite (Permutation_length (sort_insert_perm _ _ _)). cbn. lia.
Qed.

Lemma group_by_heap_perm k bs :
  group_by_heap records topK minScore k bs ≡ₚ heap_of records topK minScore k bs.
Proof.
  unfold group_by_heap. rewrite sort_perm, drained_perm by done. by rewrite app_nil_r.
Qed.

Lemma group_by_heap_elem k bs b :
  b ∈ group_by_heap records topK minScore k bs → b ∈ sel k bs.
Proof.
  rewrite group_by_heap_perm. intros Hb.
  eapply elem_of_submseteq; [exact Hb|apply heap_fold_submseteq].
Qed.

Lemma group_by_heap_scored k bs : scored records (group_by_heap records topK minScore k bs).
Proof.
  apply Forall_forall. intros b Hb%group_by_heap_elem.
  by apply (proj1 (Forall_forall _ _) (selected_scored k bs)).
Qed.

Lemma group_by_heap_sorted k bs :
  StronglySorted (λ a b, Js.ge (sc a) (sc b) = true)
    (group_by_heap records topK minScore k bs).
Proof.
  apply (sort_sorted (λ r, relevance_score (records r))).
  eapply scored_perm; [|apply group_by_heap_scored].
  unfold group_by_heap. by rewrite sort_perm.
Qed.

(** When [topK] is not negative the two strategies return the same scores
    in the same order, ties or not. *)
Lemma groups_same_weights k bs :
  (0 ≤ topK)%Z →
  w <$> group_by_heap records topK minScore k bs =
  w <$> group_by_sort records topK minScore k bs.
Proof.
  intros HK. unfold group_by_sort. rewrite slice0_nonneg, fmap_take by done.
  rewrite sort_weights by apply selected_scored.
  destruct (heap_fold_top (sel k bs) HK (selected_scored k bs)) as [_ <-].
  fold (heap_of records topK minScore k bs).
  unfold group_by_heap. rewrite sort_weights.
  - apply sort_desc_proper. by rewrite drained_perm, app_nil_r.
  - eapply scored_perm; [|apply group_by_heap_scored].
    unfold group_by_heap. by rewrite sort_perm.
Qed.

Lemma groups_same_scores k bs :
  (0 ≤ topK)%Z →
  sc <$> group_by_heap records topK minScore k bs =
  sc <$> group_by_sort records topK minScore k bs.
Proof.
  intros HK.
  assert (∀ l, scored records l → sc <$> l = Some <$> (w <$> l)) as Hsc.
  { intros l Hl. rewrite <-list_fmap_compose. apply Forall_fmap_ext_1.
    eapply Forall_impl; [exact Hl|]. intros b Hb. by apply sc_weight. }
  rewrite !Hsc, groups_same_weights; [done..| |apply group_by_heap_scored].
  apply Forall_forall. intros b Hb%group_by_sort_elem.
  by apply (proj1 (Forall_forall _ _) (selected_scored k bs)).
Qed.

Lemma group_by_heap_length k bs :
  (0 ≤ topK)%Z →
  (Z.of_nat (length (group_by_heap records topK minScore k bs)) ≤ topK)%Z.
Proof.
  intros HK. rewrite <-(length_fmap w), groups_same_weights, length_fmap by done.
  by apply group_by_sort_length.
Qed.

(** With room for every bullet, a group holds all the bullets that pass
    the threshold under its key. *)
Lemma heap_fold_all l :
  (Z.of_nat (length l) ≤ topK)%Z → foldl (heap_step topK records) [] l ≡ₚ l.
Proof.
  induction l as [|b l IH] using rev_ind; intros Hlen; [done|].
  rewrite length_app in Hlen. cbn in Hlen.
  rewrite foldl_app. cbn [foldl].
  destruct (heap_step_spec (foldl (heap_step topK records) [] l) b)
    as [(Hbig & _)|(_ & Hp & _)].
  - rewrite IH in Hbig by lia. lia.
  - rewrite Hp, IH by lia. apply Permutation_cons_append.
Qed.

Lemma group_by_sort_all k bs :
  (Z.of_nat (length bs) ≤ topK)%Z →
  group_by_sort records topK minScore k bs ≡ₚ sel k bs.
Proof.
  intros Hlen. unfold group_by_sort.
  assert (length (sel k bs) ≤ length bs) as Hsel by apply length_filter.
  rewrite slice0_nonneg by lia. rewrite take_ge; [apply sort_perm|].
  rewrite sort_length. lia.
Qed.

Lemma group_by_heap_all k bs :
  (Z.of_nat (length bs) ≤ topK)%Z →
  group_by_heap records topK minScore k bs ≡ₚ sel k bs.
Proof.
  intros Hlen. rewrite group_by_heap_perm. apply heap_fold_all.
  assert (length (sel k bs) ≤ length bs) as Hsel by apply length_filter. lia.
Qed.
End GroupProperties.

(** ** The two strategies side by side *)

Lemma run_spec s σ0 bullets topK minScore bs :
  arrays σ0 !! bullets = Some bs →
  (throws (records σ0) minScore bs ∧
   ∃ σ', run s bullets topK minScore σ0 = (TypeError, σ') ∧ frame σ0 σ') ∨
  (¬ throws (records σ0) minScore bs ∧
   ∃ result σ',
     run s bullets topK minScore σ0 = (Ok result, σ') ∧ frame σ0 σ' ∧
     (∀ k, is_Some (result !! k) ↔
           Js.inherited k = false ∧ ∃ b, b ∈ bs ∧ key_of (records σ0) b = k) ∧
     (∀ k r, result !! k = Some r →
        arrays σ' !! r = Some (group_of s (records σ0) topK minScore k bs))).
Proof.
  destruct s; [apply filterBulletsByCompany_spec|apply filterBulletsWithHeap_spec].
Qed.

Lemma run_not_array s σ0 bullets topK minScore :
  arrays σ0 !! bullets = None → run s bullets topK minScore σ0 = (TypeError, σ0).
Proof. intros Hb. destruct s; by apply filter_not_array. Qed.

Lemma run_inv s σ0 bullets topK minScore result σ' :
  run s bullets topK minScore σ0 = (Ok result, σ') →
  ∃ bs, arrays σ0 !! bullets = Some bs ∧
    ¬ throws (records σ0) minScore bs ∧ frame σ0 σ' ∧
    (∀ k, is_Some (result !! k) ↔
          Js.inherited k = false ∧ ∃ b, b ∈ bs ∧ key_of (records σ0) b = k) ∧
    (∀ k r, result !! k = Some r →
       arrays σ' !! r = Some (group_of s (records σ0) topK minScore k bs)).
Proof.
  intros Hrun. destruct (arrays σ0 !! bullets) as [bs|] eqn:Hbs.
  - exists bs. split; [done|].
    destruct (run_spec s σ0 bullets topK minScore bs Hbs)
      as [(_ & σ1 & Hrun' & _)|(Hthr & result' & σ1 & Hrun' & Hrest)]; [congruence|].
    rewrite Hrun in Hrun'. injection Hrun' as <- <-. by split.
  - rewrite (run_not_array s _ _ _ _ Hbs) in Hrun. done.
Qed.

Lemma group_of_elem s records topK minScore k bs b :
  b ∈ group_of s records topK minScore k bs →
  b ∈ bs ∧ key_of records b = k ∧ passes records minScore b = true.
Proof.
  intros Hb. apply elem_of_selected.
  destruct s; [by eapply group_by_sort_elem|by eapply group_by_heap_elem].
Qed.

Lemma group_of_sorted s records topK minScore k bs :
  non_increasing records (group_of s records topK minScore k bs).
Proof.
  intros i j x y Hij Hx Hy.
  eapply (StronglySorted_lookup (λ a b, Js.ge (MinHeap.score records a)
                                          (MinHeap.score records b) = true)); [|done..].
  destruct s; [apply group_by_sort_sorted|apply group_by_heap_sorted].
Qed.

Lemma group_of_length s records topK minScore k bs :
  (0 ≤ topK)%Z → (Z.of_nat (length (group_of s records topK minScore k bs)) ≤ topK)%Z.
Proof. destruct s; [apply group_by_sort_length|apply group_by_heap_length]. Qed.

Lemma group_of_all s records topK minScore k bs :
  (Z.of_nat (length bs) ≤ topK)%Z →
  group_of s records topK minScore k bs ≡ₚ selected records minScore k bs.
Proof. destruct s; [apply group_by_sort_all|apply group_by_heap_all]. Qed.

(** Two results with the same keys and the same scores under each key stand
    for the same pairs. *)
Lemma scores_of_eq σA σB (resultA resultB : gmap string loc) :
  records σA = records σB →
  (∀ k, is_Some (resultA !! k) ↔ is_Some (resultB !! k)) →
  (∀ k rA rB, resultA !! k = Some rA → resultB !! k = Some rB →
     ∃ lA lB, arrays σA !! rA = Some lA ∧ arrays σB !! rB = Some lB ∧
       MinHeap.score (records σB) <$> lA = MinHeap.score (records σB) <$> lB) →
  scores_of σA resultA = scores_of σB resultB.
Proof.
  intros Hrec Hdom Hcont. apply map_eq. intros k. unfold scores_of.
  rewrite !lookup_fmap. specialize (Hdom k).
  destruct (resultA !! k) as [rA|] eqn:HA, (resultB !! k) as [rB|] eqn:HB; cbn.
  - destruct (Hcont k rA rB HA HB) as (lA & lB & -> & -> & Heq). cbn.
    f_equal. rewrite Hrec. exact Heq.
  - destruct (proj1 Hdom) as [? ?]; [eauto|done].
  - destruct (proj2 Hdom) as [? ?]; [eauto|done].
  - done.
Qed.

Lemma company_or_unknown_falsy c :
  falsy_company c → company_or_unknown c = "Unknown"%string.
Proof. destruct c as [| | | |s]; try done. cbn. intros ->. done. Qed.

Lemma company_or_unknown_nonempty c : company_or_unknown c ≠ ""%string.
Proof. destruct c as [| | | |s]; try done. cbn. by case_decide. Qed.

(** A key of the input that no object inherits is a key of the result, also
    when no bullet of its group meets [minScore]; the group is then empty. *)
Lemma other_companies_have_groups s σ bullets topK minScore result σ' bs b :
  run s bullets topK minScore σ = (Ok result, σ') →
  arrays σ !! bullets = Some bs → b ∈ bs →
  Js.inherited (key_of (records σ) b) = false →
  ∃ r group, result !! key_of (records σ) b = Some r ∧ arrays σ' !! r = Some group ∧
    ((∀ b', b' ∈ bs → key_of (records σ) b' = key_of (records σ) b →
            passes (records σ) minScore b' = false) → group = []).
Proof.
  intros Hrun Hbs Hb Hin.
  destruct (run_inv _ _ _ _ _ _ _ Hrun) as (bs' & Hbs' & _ & _ & Hdom & Hcont).
  assert (bs' = bs) as -> by congruence.
  destruct (proj2 (Hdom (key_of (records σ) b))) as [r Hr]; [by eauto|].
  exists r, (group_of s (records σ) topK minScore (key_of (records σ) b) bs).
  split_and!; [done|by apply Hcont|].
  intros Hnone. destruct (group_of _ _ _ _ _ _) as [|b' l] eqn:Hg; [done|].
  assert (b' ∈ group_of s (records σ) topK minScore (key_of (records σ) b) bs) as Hb'
    by (rewrite Hg; by left).
  apply group_of_elem in Hb' as (Hb' & Hk & Hps). rewrite Hnone in Hps; done.
Qed.

(** ** Sorting with the heap *)

Section HeapSort.
Variable records : ref → bullet.
Abbreviation w := (weight records).

Lemma insert_all_spec bullets : ∀ heap,
  ∃ heap', insert_all records heap bullets = Ok heap' ∧ heap' ≡ₚ bullets ++ heap ∧
           (scored records (bullets ++ heap) → heap_ok records heap →
            heap_ok records heap').
Proof.
  induction bullets as [|b bullets IH]; intros heap; cbn [insert_all].
  { exists heap. by split_and!. }
  destruct (insert_spec records heap b) as (heap1 & -> & Hp1 & Hok1). cbn [obind].
  destruct (IH heap1) as (heap' & -> & Hp & Hok).
  exists heap'. split_and!; [done| |].
  - rewrite Hp, Hp1. cbn. by rewrite Permutation_middle.
  - intros Hsc Hheap. unfold scored in *. apply Hok.
    + by rewrite Hp1, <-Permutation_middle.
    + apply Hok1; [|done]. cbn in Hsc. apply Forall_cons in Hsc as [Hb Hsc].
      apply Forall_app in Hsc as [_ Hsc]. by apply Forall_cons.
Qed.

Lemma extract_all_spec fuel : ∀ heap,
  length heap < fuel →
  ∃ out, extract_all records fuel heap = Ok out ∧ out ≡ₚ heap ∧
         (scored records heap → heap_ok records heap →
          StronglySorted (λ a b, (w a ≤ w b)%Qc) out).
Proof.
  induction fuel as [|fuel IH]; intros heap Hfuel; [lia|]. cbn [extract_all].
  destruct heap as [|r heap].
  { exists []. split_and!; [done..|]. constructor. }
  destruct (extractMin_spec records (r :: heap)) as (m & heap' & -> & Hroot & Hp & Hok);
    [done|]. cbn [obind].
  destruct (IH heap') as (out & -> & Hp' & Hsorted).
  { apply Permutation_length in Hp. cbn in Hp, Hfuel. lia. }
  exists (m :: out). split_and!; [done|by rewrite Hp, Hp'|].
  intros Hsc Hheap. constructor.
  - apply Hsorted; [|by apply Hok]. unfold scored in *. rewrite Hp in Hsc.
    by apply Forall_cons in Hsc as [_ ?].
  - apply Forall_forall. intros x Hx.
    apply (heap_root_min records (r :: heap) m Hheap Hroot).
    rewrite Hp, <-Hp'. by right.
Qed.
End HeapSort.

(** * The claims *)

(** C1: whichever strategy is called with [topK >= 1], every group of the
    mapping it returns has at most [topK] records, and every record of a
    group has [relevance_score >= minScore]. *)
Theorem top_k_and_threshold s σ bullets topK minScore result σ' :
  (1 ≤ topK)%Z →
  run s bullets topK minScore σ = (Ok result, σ') →
  ∀ g r, result !! g = Some r →
    ∃ group, arrays σ' !! r = Some group ∧
      (Z.of_nat (length group) ≤ topK)%Z ∧
      ∀ b, b ∈ group →
        Js.ge (relevance_score (records σ' b)) (Some minScore) = true.
Proof.
  intros HK Hrun g r Hr.
  destruct (run_inv _ _ _ _ _ _ _ Hrun) as (bs & Hbs & _ & [Hrec _] & _ & Hcont).
  eexists. split; [by apply Hcont|]. split; [apply group_of_length; lia|].
  intros b Hb. rewrite Hrec. by apply group_of_elem in Hb as (_ & _ & Hb).
Qed.

Lemma top_k_and_threshold_witness :
  ∃ group,
    arrays (Store (records scenario) [[0; 1; 2; 3]; [0; 2]; []; [0; 2]; []]) !! 3 = Some group ∧
    (Z.of_nat (length group) ≤ 2)%Z ∧
    ∀ b, b ∈ group →
      Js.ge (relevance_score (records scenario b)) (Some (Qc_of_Z 60)) = true.
Proof.
  apply (top_k_and_threshold FullSort scenario 0 2 (Qc_of_Z 60)
           {[ "A"%string := 3; "B"%string := 4 ]}
           (Store (records scenario) [[0; 1; 2; 3]; [0; 2]; []; [0; 2]; []]))
    with (g := "A"%string).
  - lia.
  - vm_compute. reflexivity.
  - reflexivity.
Defined.

(** C2: every sequence of the mapping either strategy returns is sorted by
    [relevance_score] in non-increasing order. *)
Theorem sorted_non_increasing s σ bullets topK minScore result σ' :
  run s bullets topK minScore σ = (Ok result, σ') →
  ∀ g r, result !! g = Some r →
    ∃ group, arrays σ' !! r = Some group ∧ non_increasing (records σ') group.
Proof.
  intros Hrun g r Hr.
  destruct (run_inv _ _ _ _ _ _ _ Hrun) as (bs & Hbs & _ & [Hrec _] & _ & Hcont).
  eexists. split; [by apply Hcont|]. rewrite Hrec. apply group_of_sorted.
Qed.

Lemma sorted_non_increasing_witness :
  ∃ group,
    arrays (Store (records scenario) [[0; 1; 2; 3]; []; []; [0; 2; 1]; [3]]) !! 3 = Some group ∧
    non_increasing (records scenario) group.
Proof.
  apply (sorted_non_increasing BoundedHeap scenario 0 5 (Qc_of_Z 0)
           {[ "A"%string := 3; "B"%string := 4 ]}
           (Store (records scenario) [[0; 1; 2; 3]; []; []; [0; 2; 1]; [3]]))
    with (g := "A"%string).
  - vm_compute. reflexivity.
  - reflexivity.
Defined.

(** Below the range of [topK] that the two functions are written for, the
    strategies part: with [topK = -1], [slice(0, -1)] keeps all but the last
    record of a group, while the heap evicts every record it is given. *)
Lemma strategies_disagree_negative_topK :
  no_boundary_tie two_bullets 0 (-1) (Qc_of_Z 0) ∧
  ¬ strategies_agree two_bullets 0 (-1) (Qc_of_Z 0).
Proof.
  split.
  - intros bs b i x y _ _ Hi. lia.
  - intros Hagree.
    destruct (Hagree {[ "A"%string := 2 ]}
                (Store (records two_bullets) [[0; 1]; [0; 1]; [0]]))
      as (resultB & σB & HB & Hperm); [vm_compute; reflexivity|].
    vm_compute in HB. injection HB as <- <-.
    apply Permutation_length in Hperm. vm_compute in Hperm. discriminate.
Qed.

(** C3: for every input, every [topK] of the contract ([topK >= 1]; the
    proof covers [topK = 0] as well) and every [minScore], when no two
    records of a group tie at the K-th boundary, the two strategies return
    the same multiset of pairs of a company and a score: whenever the full
    sort returns, so does the heap.  (The proof does not use the absence of
    ties: the scores agree in any case, [groups_same_scores].) *)
Theorem strategies_agree_nonnegative_topK σ bullets topK minScore :
  (0 ≤ topK)%Z →
  no_boundary_tie σ bullets topK minScore →
  strategies_agree σ bullets topK minScore.
Proof.
  intros HK _ resultA σA HA.
  destruct (run_inv FullSort _ _ _ _ _ _ HA)
    as (bs & Hbs & Hthr & [HrecA _] & HdomA & HcontA).
  destruct (run_spec BoundedHeap σ bullets topK minScore bs Hbs)
    as [[? _]|(_ & resultB & σB & HB & [HrecB _] & HdomB & HcontB)]; [done|].
  exists resultB, σB. split; [done|].
  unfold pairs. rewrite (scores_of_eq σA σB resultA resultB); [done|congruence| |].
  - intros k. by rewrite HdomA, HdomB.
  - intros k rA rB HrA HrB. eexists _, _.
    split; [by apply HcontA|]. split; [by apply HcontB|].
    rewrite HrecB. symmetry. by apply groups_same_scores.
Qed.

Lemma strategies_agree_nonnegative_topK_witness :
  strategies_agree two_bullets 0 1 (Qc_of_Z 0).
Proof.
  apply strategies_agree_nonnegative_topK; [lia|].
  intros bs b i x y [= <-] Hb Hi. assert (i = 0) as -> by lia.
  apply elem_of_cons in Hb as [->|Hb]; [|apply elem_of_cons in Hb as [->|Hb]].
  - vm_compute. intros [= <-] [= <-] [=].
  - vm_compute. intros [= <-] [= <-] [=].
  - by apply elem_of_nil in Hb.
Defined.

(** C4: bullets with numeric scores, inserted one after the other into a new
    heap and then taken out by [extractMin] until the heap is empty, come out
    in non-decreasing order of [relevance_score] (and all of them do). *)
Theorem heap_extracts_in_order records bullets :
  Forall (λ b, is_Some (relevance_score (records b))) bullets →
  ∃ heap out,
    insert_all records [] bullets = Ok heap ∧
    extract_all records (S (length heap)) heap = Ok out ∧
    out ≡ₚ bullets ∧
    non_decreasing records out.
Proof.
  intros Hsc.
  destruct (insert_all_spec records bullets []) as (heap & Hins & Hp & Hok).
  destruct (extract_all_spec records (S (length heap)) heap) as (out & Hex & Hp' & Hsorted);
    [lia|].
  rewrite app_nil_r in Hp, Hok.
  exists heap, out. split_and!; [done|done|by rewrite Hp', Hp|].
  assert (scored records heap) as Hsch by (unfold scored; by rewrite Hp).
  assert (StronglySorted (λ a b, (weight records a ≤ weight records b)%Qc) out) as Hs.
  { apply Hsorted; [done|]. apply Hok; [done|]. by intros j c p _ ?. }
  intros i j x y Hij Hx Hy.
  pose proof (StronglySorted_lookup _ _ _ _ _ _ Hs Hij Hx Hy) as Hxy.
  assert (scored records out) as Hsco by (unfold scored; by rewrite Hp').
  rewrite (scored_lookup records out i x Hsco Hx : relevance_score (records x) = _).
  rewrite (scored_lookup records out j y Hsco Hy : relevance_score (records y) = _).
  by apply ge_Some.
Qed.

Lemma heap_extracts_in_order_witness :
  ∃ heap out,
    insert_all (records scenario) [] [0; 1; 2; 3] = Ok heap ∧
    extract_all (records scenario) (S (length heap)) heap = Ok out ∧
    out ≡ₚ [0; 1; 2; 3] ∧
    non_decreasing (records scenario) out.
Proof.
  apply heap_extracts_in_order.
  repeat constructor; vm_compute; eauto.
Defined.

(** C5, as the specification states it, fails: a bullet without
    [relevance_score] makes neither strategy throw; each returns, and the
    group of the bullet is empty. *)
Lemma missing_score_is_not_an_error :
  arrays unscored_bullet !! 0 = Some [0] ∧
  relevance_score (records unscored_bullet 0) = None ∧
  ∀ s, ∃ result σ',
    run s 0 5 (Qc_of_Z 0) unscored_bullet = (Ok result, σ') ∧
    (result !! "A"%string ≫= λ r, arrays σ' !! r) = Some [].
Proof.
  split_and!; [done..|]. intros s.
  exists {[ "A"%string := 2 ]}, (Store (records unscored_bullet) [[0]; []; []]).
  split; [|done]. destruct s; vm_compute; reflexivity.
Qed.

(** C5, amended: a bullet that lacks [relevance_score] is dropped silently
    by both strategies.  No group of a returned mapping holds such a
    bullet, and a call throws only on a bullet that has a score that meets
    [minScore] (under a key inherited from [Object.prototype]); the loops
    never run out of fuel. *)
Theorem missing_score_dropped s σ bullets topK minScore bs :
  arrays σ !! bullets = Some bs →
  (∀ result σ' g r group b,
     run s bullets topK minScore σ = (Ok result, σ') →
     result !! g = Some r → arrays σ' !! r = Some group → b ∈ group →
     is_Some (relevance_score (records σ b))) ∧
  (∀ σ', run s bullets topK minScore σ = (TypeError, σ') →
     ∃ b q, b ∈ bs ∧ relevance_score (records σ b) = Some q ∧ (minScore ≤ q)%Qc ∧
            Js.inherited (key_of (records σ) b) = true) ∧
  (∀ σ', run s bullets topK minScore σ ≠ (OutOfFuel, σ')).
Proof.
  intros Hbs.
  destruct (run_spec s σ bullets topK minScore bs Hbs)
    as [(Hthr & σ1 & Hrun & _)|(Hthr & result1 & σ1 & Hrun & _ & _ & Hcont)];
    rewrite Hrun.
  - split_and!; [done| |done]. intros _ _.
    destruct Hthr as (b & Hb & Hin & Hps).
    apply ge_true_Some in Hps as (q & y & Hq & [= <-] & Hle). by exists b, q.
  - split_and!; [|done..]. intros result σ' g r group b [= <- <-] Hr Hgroup Hb.
    rewrite (Hcont g r Hr) in Hgroup. injection Hgroup as <-.
    apply group_of_elem in Hb as (_ & _ & Hps).
    exact (passes_scored (records σ) minScore b Hps).
Qed.

Lemma missing_score_dropped_witness :
  (∀ result σ' g r group b,
     run FullSort 0 5 (Qc_of_Z 0) unscored_bullet = (Ok result, σ') →
     result !! g = Some r → arrays σ' !! r = Some group → b ∈ group →
     is_Some (relevance_score (records unscored_bullet b))) ∧
  (∀ σ', run FullSort 0 5 (Qc_of_Z 0) unscored_bullet = (TypeError, σ') →
     ∃ b q, b ∈ [0] ∧ relevance_score (records unscored_bullet b) = Some q ∧
            (Qc_of_Z 0 ≤ q)%Qc ∧
            Js.inherited (key_of (records unscored_bullet) b) = true) ∧
  (∀ σ', run FullSort 0 5 (Qc_of_Z 0) unscored_bullet ≠ (OutOfFuel, σ')).
Proof. apply missing_score_dropped. reflexivity. Defined.

(** C6: on an empty heap, in whatever way calls of [insert] and [extractMin]
    have led to it, [extractMin] and [peek] return [null]; and on no heap
    these calls lead to does [extractMin] throw ([peek] cannot). *)
Theorem empty_heap_returns_null records heap :
  reachable records heap →
  (MinHeap.size heap = 0 →
   MinHeap.extractMin records heap = Ok (None, heap) ∧ MinHeap.peek heap = None) ∧
  ∃ x heap', MinHeap.extractMin records heap = Ok (x, heap').
Proof.
  intros _. split.
  - destruct heap; [done|]. cbn. lia.
  - destruct (extractMin_total records heap) as (x & heap' & Hex & _). eauto.
Qed.

Lemma empty_heap_returns_null_witness :
  (MinHeap.size [] = 0 →
   MinHeap.extractMin (records scenario) [] = Ok (None, []) ∧ MinHeap.peek [] = None) ∧
  ∃ x heap', MinHeap.extractMin (records scenario) [] = Ok (x, heap').
Proof.
  apply empty_heap_returns_null.
  apply (reachable_extractMin _ [0] (Some 0) []); [|reflexivity].
  apply (reachable_insert _ [] 0 [0]); [|reflexivity].
  apply reachable_new.
Defined.

(** C7: the scenario of the specification.  With [topK = 2] and
    [minScore = 60] the result of either strategy has the two keys [A] and
    [B]; [A] holds the bullet of score 90 and then the bullet of score 70,
    [B] is empty. *)
Theorem scenario_result s :
  ∃ result σ',
    run s 0 2 (Qc_of_Z 60) scenario = (Ok result, σ') ∧
    dom result = {[ "A"; "B" ]}%string ∧
    (result !! "A"%string ≫= λ r, arrays σ' !! r) = Some [0; 2] ∧
    (result !! "B"%string ≫= λ r, arrays σ' !! r) = Some [] ∧
    relevance_score (records σ' 0) = Some (Qc_of_Z 90) ∧
    relevance_score (records σ' 2) = Some (Qc_of_Z 70).
Proof.
  exists {[ "A"%string := 3; "B"%string := 4 ]}.
  destruct s;
    [exists (Store (records scenario) [[0; 1; 2; 3]; [0; 2]; []; [0; 2]; []])
    |exists (Store (records scenario) [[0; 1; 2; 3]; []; []; [0; 2]; []])].
  all: split_and!; [vm_compute; reflexivity| |done..].
  all: rewrite dom_insert_L, dom_singleton_L; set_solver.
Qed.

(** C8: a call of either strategy, whether it returns or throws, leaves
    every bullet and every array that existed before it as they were, the
    array of the input among them; and the records of the groups it returns
    are records of the input, by reference. *)
Theorem selection_is_pure s σ bullets topK minScore o σ' :
  run s bullets topK minScore σ = (o, σ') →
  (∀ b, records σ' b = records σ b) ∧
  (∀ l x, arrays σ !! l = Some x → arrays σ' !! l = Some x) ∧
  (∀ result g r group b,
     o = Ok result → result !! g = Some r → arrays σ' !! r = Some group → b ∈ group →
     ∃ bs, arrays σ !! bullets = Some bs ∧ b ∈ bs).
Proof.
  intros Hrun. destruct (arrays σ !! bullets) as [bs|] eqn:Hbs.
  - destruct (run_spec s σ bullets topK minScore bs Hbs)
      as [(_ & σ1 & Hrun' & [Hrec Hfr])|(_ & result1 & σ1 & Hrun' & [Hrec Hfr] & _ & Hcont)];
      rewrite Hrun in Hrun'; injection Hrun' as -> ->.
    + split_and!; [by intros; rewrite Hrec|done|done].
    + split_and!; [by intros; rewrite Hrec|done|].
      intros result g r group b [= <-] Hr Hgroup Hb. exists bs. split; [done|].
      rewrite (Hcont g r Hr) in Hgroup. injection Hgroup as <-.
      by apply group_of_elem in Hb as (? & _).
  - rewrite (run_not_array s _ _ _ _ Hbs) in Hrun. injection Hrun as <- <-.
    by split_and!.
Qed.

Lemma selection_is_pure_witness :
  (∀ b, records (Store (records scenario) [[0; 1; 2; 3]; []; []; [0; 2]; []]) b =
        records scenario b) ∧
  (∀ l x, arrays scenario !! l = Some x →
     arrays (Store (records scenario) [[0; 1; 2; 3]; []; []; [0; 2]; []]) !! l = Some x) ∧
  (∀ (result : gmap string loc) g r group b,
     Ok {[ "A"%string := 3; "B"%string := 4 ]} = Ok result → result !! g = Some r →
     arrays (Store (records scenario) [[0; 1; 2; 3]; []; []; [0; 2]; []]) !! r = Some group →
     b ∈ group →
     ∃ bs, arrays scenario !! 0 = Some bs ∧ b ∈ bs).
Proof.
  apply (selection_is_pure BoundedHeap scenario 0 2 (Qc_of_Z 60)).
  vm_compute. reflexivity.
Defined.

(** C9 fails on a company whose name is a property every object inherits:
    [companies[company]] is then truthy before any group exists, and no
    group is made.  Under the threshold the bullet leaves no key in the
    result; at or above it the call throws. *)
Theorem inherited_company_has_no_group s :
  key_of (records inherited_company) 0 = "constructor"%string ∧
  run s 0 5 (Qc_of_Z 50) inherited_company = (Ok ∅, inherited_company) ∧
  (run s 0 5 (Qc_of_Z 0) inherited_company).1 = TypeError.
Proof. split_and!; [done|..]; destruct s; vm_compute; reflexivity. Qed.

(** C10: a bullet whose [company] is falsy (absent, [null], the empty
    string, 0 or [false]) belongs to the group ["Unknown"]: the result has
    that key, no other group holds the bullet, and the group ["Unknown"]
    holds it when it meets [minScore] and [topK] leaves room for every
    bullet.  The empty string is never a key of the result. *)
Theorem falsy_company_is_unknown s σ bullets topK minScore result σ' :
  run s bullets topK minScore σ = (Ok result, σ') →
  result !! ""%string = None ∧
  ∀ bs b, arrays σ !! bullets = Some bs → b ∈ bs →
    falsy_company (company (records σ b)) →
    (∃ r group, result !! "Unknown"%string = Some r ∧ arrays σ' !! r = Some group ∧
       (Js.ge (relevance_score (records σ b)) (Some minScore) = true →
        (Z.of_nat (length bs) ≤ topK)%Z → b ∈ group)) ∧
    ∀ g r group, result !! g = Some r → arrays σ' !! r = Some group → b ∈ group →
      g = "Unknown"%string.
Proof.
  intros Hrun.
  destruct (run_inv _ _ _ _ _ _ _ Hrun) as (bs' & Hbs' & _ & _ & Hdom & Hcont).
  split.
  - destruct (result !! ""%string) as [r|] eqn:Hr; [|done].
    destruct (proj1 (Hdom ""%string)) as (_ & b & _ & Hk); [by eauto|].
    by apply company_or_unknown_nonempty in Hk.
  - intros bs b Hbs Hb Hfalsy. assert (bs' = bs) as -> by congruence.
    apply company_or_unknown_falsy in Hfalsy. split.
    + destruct (proj2 (Hdom "Unknown"%string)) as [r Hr]; [split; [done|by exists b]|].
      exists r, (group_of s (records σ) topK minScore "Unknown" bs).
      split_and!; [done|by apply Hcont|]. intros Hps Hroom.
      rewrite group_of_all by done. by apply elem_of_selected.
    + intros g r group Hr Hgroup Hin.
      rewrite (Hcont g r Hr) in Hgroup. injection Hgroup as <-.
      apply group_of_elem in Hin as (_ & <- & _). done.
Qed.

Lemma falsy_company_is_unknown_witness :
  ({[ "Unknown"%string := 2 ]} : gmap string loc) !! ""%string = None ∧
  ∀ bs b, arrays falsy_companies !! 0 = Some bs → b ∈ bs →
    falsy_company (company (records falsy_companies b)) →
    (∃ r group,
       ({[ "Unknown"%string := 2 ]} : gmap string loc) !! "Unknown"%string = Some r ∧
       arrays (Store (records falsy_companies)
                 [[0; 1; 2; 3; 4]; [0; 1; 2; 3; 4]; [0; 1; 2; 3; 4]]) !! r = Some group ∧
       (Js.ge (relevance_score (records falsy_companies b)) (Some (Qc_of_Z 0)) = true →
        (Z.of_nat (length bs) ≤ 5)%Z → b ∈ group)) ∧
    ∀ g r group, ({[ "Unknown"%string := 2 ]} : gmap string loc) !! g = Some r →
      arrays (Store (records falsy_companies)
                [[0; 1; 2; 3; 4]; [0; 1; 2; 3; 4]; [0; 1; 2; 3; 4]]) !! r = Some group →
      b ∈ group → g = "Unknown"%string.
Proof.
  apply (falsy_company_is_unknown FullSort falsy_companies 0 5 (Qc_of_Z 0)).
  vm_compute. reflexivity.
Defined.

(** * More properties of the code *)

(** ** The heap *)

(** X1: [insert] never throws, whatever the array holds, and afterwards the
    array holds the bullets it held and the new one, each as often as
    before. *)
Theorem insert_adds_the_bullet records heap b :
  ∃ heap', MinHeap.insert records heap b = Ok heap' ∧ heap' ≡ₚ b :: heap ∧
           MinHeap.size heap' = S (MinHeap.size heap).
Proof.
  destruct (insert_spec records heap b) as (heap' & Hins & Hp & _).
  exists heap'. split_and!; [done..|]. unfold MinHeap.size. by rewrite Hp.
Qed.

(** X2: on bullets that have scores, [insert] keeps the heap order: no
    bullet of the array is below its parent afterwards either. *)
Theorem insert_keeps_heap_order records heap b :
  scored records (b :: heap) → heap_ok records heap →
  ∃ heap', MinHeap.insert records heap b = Ok heap' ∧ heap_ok records heap'.
Proof.
  intros Hsc Hok. destruct (insert_spec records heap b) as (heap' & Hins & _ & Hok').
  exists heap'. split; [done|]. by apply Hok'.
Qed.

Lemma insert_keeps_heap_order_witness :
  ∃ heap', MinHeap.insert (records scenario) [1; 0] 3 = Ok heap' ∧
           heap_ok (records scenario) heap'.
Proof.
  apply insert_keeps_heap_order.
  - repeat constructor; vm_compute; eauto.
  - intros [|[|j]] c p Hj Hc Hp; [lia| |done].
    injection Hc as <-. injection Hp as <-. vm_compute. discriminate.
Defined.

(** X3: on a heap in heap order, [extractMin] returns a bullet of least
    score, takes out that one bullet and nothing else, and leaves the rest in
    heap order. *)
Theorem extractMin_takes_a_least_bullet records heap :
  heap ≠ [] → scored records heap → heap_ok records heap →
  ∃ m heap',
    MinHeap.extractMin records heap = Ok (Some m, heap') ∧
    heap ≡ₚ m :: heap' ∧
    (∀ r, r ∈ heap →
       Js.ge (relevance_score (records r)) (relevance_score (records m)) = true) ∧
    heap_ok records heap'.
Proof.
  intros Hne Hsc Hok.
  destruct (extractMin_spec records heap Hne) as (m & heap' & Hex & Hroot & Hp & Hok').
  exists m, heap'. split_and!; [done|done| |by apply Hok'].
  intros r Hr. pose proof (heap_root_min records heap m Hok Hroot r Hr) as Hle.
  apply list_elem_of_lookup in Hr as [i Hi].
  rewrite (scored_lookup records heap i r Hsc Hi : relevance_score (records r) = _).
  rewrite (scored_lookup records heap 0 m Hsc Hroot : relevance_score (records m) = _).
  by apply ge_Some.
Qed.

Lemma extractMin_takes_a_least_bullet_witness :
  ∃ m heap',
    MinHeap.extractMin (records scenario) [3; 1; 0] = Ok (Some m, heap') ∧
    [3; 1; 0] ≡ₚ m :: heap' ∧
    (∀ r, r ∈ [3; 1; 0] →
       Js.ge (relevance_score (records scenario r))
             (relevance_score (records scenario m)) = true) ∧
    heap_ok (records scenario) heap'.
Proof.
  apply extractMin_takes_a_least_bullet.
  - done.
  - repeat constructor; vm_compute; eauto.
  - intros [|[|[|j]]] c p Hj Hc Hp; [lia| | |done].
    all: injection Hc as <-; injection Hp as <-; vm_compute; discriminate.
Defined.

(** X4: [peek] returns what the next [extractMin] returns, on every array:
    the root, or [null] when the array is empty. *)
Theorem peek_is_the_next_extractMin records heap :
  ∃ heap', MinHeap.extractMin records heap = Ok (MinHeap.peek heap, heap').
Proof.
  destruct heap as [|r heap]; [by exists []|].
  destruct (extractMin_spec records (r :: heap)) as (m & heap' & Hex & Hroot & _); [done|].
  exists heap'. unfold MinHeap.peek. by rewrite Hroot.
Qed.

Lemma bubbleUp_loop_unscored records fuel : ∀ heap e i,
  relevance_score (records e) = None →
  i ≤ fuel → heap !! i = Some e →
  ∃ heap', MinHeap.bubbleUp_loop records fuel heap e i = Ok heap' ∧
           heap' !! 0 = Some e.
Proof.
  induction fuel as [|fuel IH]; intros heap e i He Hfuel Hi;
    cbn [MinHeap.bubbleUp_loop].
  all: destruct (decide (i = 0)) as [->|Hpos]; [by exists heap|].
  { lia. }
  pose proof (lookup_lt_Some _ _ _ Hi) as Hlen.
  assert ((i - 1) / 2 < i) as Hpi by div_lia.
  destruct (lookup_lt_is_Some_2 heap ((i - 1) / 2)) as [p Hp]; [lia|].
  rewrite Hp. unfold MinHeap.score at 1. rewrite He. cbn [Js.ge].
  apply IH; [done|lia|].
  rewrite lookup_swap by lia. rewrite decide_False by lia. by rewrite decide_True.
Qed.

(** X5: a bullet that has no [relevance_score] goes to the root when it is
    inserted, whatever the scores of the others, since [undefined >= x] is
    false and the loop of [bubbleUp] never breaks: the next [extractMin]
    returns it. *)
Theorem unscored_bullet_rises_to_the_root records heap b :
  relevance_score (records b) = None →
  ∃ heap', MinHeap.insert records heap b = Ok heap' ∧ MinHeap.peek heap' = Some b.
Proof.
  intros Hb. unfold MinHeap.insert, MinHeap.bubbleUp, MinHeap.peek.
  rewrite length_app, Nat.add_sub. cbn [length].
  assert ((heap ++ [b]) !! length heap = Some b) as Hlast
    by (rewrite lookup_app_r, Nat.sub_diag by lia; done).
  rewrite Hlast. by apply bubbleUp_loop_unscored.
Qed.

Lemma unscored_bullet_rises_to_the_root_witness :
  ∃ heap', MinHeap.insert (records scenario) [3; 1; 0] 4 = Ok heap' ∧
           MinHeap.peek heap' = Some 4.
Proof. apply unscored_bullet_rises_to_the_root. reflexivity. Defined.

(** ** The selection functions *)

(** X6: on an empty array either strategy returns the empty mapping, and
    changes nothing, not even by a new array. *)
Theorem empty_input_gives_empty_result s σ bullets topK minScore :
  arrays σ !! bullets = Some [] →
  run s bullets topK minScore σ = (Ok ∅, σ).
Proof.
  intros Hbs.
  destruct s; cbn [run]; unfold filterBulletsByCompany, filterBulletsWithHeap, forEach,
    bind, array_length, bind, array_contents, ret; rewrite Hbs; cbn [length forEach_from];
    unfold ret, entries; by rewrite map_to_list_empty.
Qed.

Lemma empty_input_gives_empty_result_witness :
  run BoundedHeap 1 5 (Qc_of_Z 0) (Store (records scenario) [[0; 1]; []]) =
  (Ok ∅, Store (records scenario) [[0; 1]; []]).
Proof. apply empty_input_gives_empty_result. reflexivity. Defined.

(** X7: a call of either strategy throws exactly when some bullet of the
    input meets [minScore] and has a company name that every object inherits
    as a property; [topK] and the strategy play no part in it. *)
Theorem throws_exactly_on_inherited_key s σ bullets topK minScore bs :
  arrays σ !! bullets = Some bs →
  (run s bullets topK minScore σ).1 = TypeError ↔
  ∃ b, b ∈ bs ∧ Js.inherited (company_or_unknown (company (records σ b))) = true ∧
       Js.ge (relevance_score (records σ b)) (Some minScore) = true.
Proof.
  intros Hbs.
  destruct (run_spec s σ bullets topK minScore bs Hbs)
    as [(Hthr & σ1 & -> & _)|(Hthr & result1 & σ1 & -> & _)]; cbn [fst].
  - done.
  - split; [done|]. intros Hb. by destruct Hthr.
Qed.

Lemma throws_exactly_on_inherited_key_witness :
  (run FullSort 0 5 (Qc_of_Z 0) inherited_company).1 = TypeError ↔
  ∃ b, b ∈ [0] ∧
       Js.inherited (company_or_unknown (company (records inherited_company b))) = true ∧
       Js.ge (relevance_score (records inherited_company b)) (Some (Qc_of_Z 0)) = true.
Proof. apply throws_exactly_on_inherited_key. reflexivity. Defined.

(** X8: the keys of the mapping either strategy returns are the company
    names of the input, ["Unknown"] standing for the falsy ones, without
    those every object inherits; they depend neither on [topK] nor on
    [minScore] nor on the strategy. *)
Theorem result_keys_are_the_companies s σ bullets topK minScore result σ' bs :
  run s bullets topK minScore σ = (Ok result, σ') →
  arrays σ !! bullets = Some bs →
  dom result =
  list_to_set (filter (λ k, Js.inherited k = false)
                 ((λ b, company_or_unknown (company (records σ b))) <$> bs)).
Proof.
  intros Hrun Hbs.
  destruct (run_inv _ _ _ _ _ _ _ Hrun) as (bs' & Hbs' & _ & _ & Hdom & _).
  assert (bs' = bs) as -> by congruence.
  apply set_eq. intros k.
  rewrite elem_of_dom, elem_of_list_to_set, list_elem_of_filter, list_elem_of_fmap, Hdom.
  unfold key_of. split.
  - intros (Hin & b & Hb & Hk). split; [done|]. by exists b.
  - intros (Hin & b & Hk & Hb). split; [done|]. by exists b.
Qed.

Lemma result_keys_are_the_companies_witness :
  dom ({[ "A"%string := 3; "B"%string := 4 ]} : gmap string loc) =
  list_to_set (filter (λ k, Js.inherited k = false)
                 ((λ b, company_or_unknown (company (records scenario b))) <$> [0; 1; 2; 3])).
Proof.
  apply (result_keys_are_the_companies FullSort scenario 0 2 (Qc_of_Z 60) _
           (Store (records scenario) [[0; 1; 2; 3]; [0; 2]; []; [0; 2]; []])).
  - vm_compute. reflexivity.
  - reflexivity.
Defined.

(** X9: a group of the mapping either strategy returns holds bullets of
    the input that have the key of the group as their company and meet
    [minScore], none of them more often than the input does; this for
    every [topK]. *)
Lemma group_of_submseteq s records topK minScore k bs :
  group_of s records topK minScore k bs ⊆+ selected records minScore k bs.
Proof.
  destruct s; cbn [group_of].
  - destruct (group_by_sort_prefix records topK minScore k bs) as [l' Hl'].
    trans (Js.sort (by_score_descending records) (selected records minScore k bs));
      [|apply Permutation_submseteq, sort_perm].
    fold (group_by_sort records topK minScore k bs) in Hl'. rewrite Hl'.
    by apply submseteq_inserts_r.
  - rewrite group_by_heap_perm. apply heap_fold_submseteq.
Qed.

Theorem groups_hold_bullets_of_their_company s σ bullets topK minScore result σ' bs k r :
  run s bullets topK minScore σ = (Ok result, σ') →
  arrays σ !! bullets = Some bs → result !! k = Some r →
  ∃ group,
    arrays σ' !! r = Some group ∧
    group ⊆+ filter (λ b, company_or_unknown (company (records σ b)) = k ∧
                          Js.ge (relevance_score (records σ b)) (Some minScore) = true) bs.
Proof.
  intros Hrun Hbs Hr.
  destruct (run_inv _ _ _ _ _ _ _ Hrun) as (bs' & Hbs' & _ & _ & _ & Hcont).
  assert (bs' = bs) as -> by congruence.
  eexists. split; [by apply Hcont|]. apply group_of_submseteq.
Qed.

Lemma groups_hold_bullets_of_their_company_witness :
  ∃ group,
    arrays (Store (records scenario) [[0; 1; 2; 3]; []; []; [0; 2]; []]) !! 3 = Some group ∧
    group ⊆+ filter (λ b, company_or_unknown (company (records scenario b)) = "A"%string ∧
                          Js.ge (relevance_score (records scenario b)) (Some (Qc_of_Z 60)) = true)
               [0; 1; 2; 3].
Proof.
  apply (groups_hold_bullets_of_their_company BoundedHeap scenario 0 2 (Qc_of_Z 60)
           {[ "A"%string := 3; "B"%string := 4 ]}).
  - vm_compute. reflexivity.
  - reflexivity.
  - reflexivity.
Defined.

(** X10: for [topK >= 0], a group of either strategy holds the best of its
    company: it has [topK] bullets, or all that meet [minScore] when these
    are fewer, and no bullet left out has a higher score than a bullet of
    the group. *)
Lemma group_of_weights s records topK minScore k bs :
  (0 ≤ topK)%Z →
  weight records <$> group_of s records topK minScore k bs =
  take (Z.to_nat topK) (sort_desc (weight records <$> selected records minScore k bs)).
Proof.
  intros HK.
  assert (weight records <$> group_by_sort records topK minScore k bs =
          take (Z.to_nat topK) (sort_desc (weight records <$> selected records minScore k bs)))
    as Hsort.
  { unfold group_by_sort. rewrite slice0_nonneg, fmap_take by done.
    by rewrite sort_weights by apply selected_scored. }
  destruct s; cbn [group_of]; [done|]. by rewrite groups_same_weights.
Qed.

Lemma sorted_take_drop (l : list Qc) n x y :
  StronglySorted num_ge l → x ∈ take n l → y ∈ drop n l → (y ≤ x)%Qc.
Proof.
  intros Hs [i Hi]%list_elem_of_lookup [j Hj]%list_elem_of_lookup.
  apply lookup_take_Some in Hi as [Hi Hlt]. rewrite lookup_drop in Hj.
  apply (StronglySorted_lookup num_ge l i (n + j) x y); [done|lia|done..].
Qed.

Theorem groups_hold_the_best s σ bullets topK minScore result σ' bs k r :
  (0 ≤ topK)%Z →
  run s bullets topK minScore σ = (Ok result, σ') →
  arrays σ !! bullets = Some bs → result !! k = Some r →
  ∃ group rest,
    arrays σ' !! r = Some group ∧
    selected (records σ) minScore k bs ≡ₚ group ++ rest ∧
    length group = Z.to_nat topK `min` length (selected (records σ) minScore k bs) ∧
    ∀ x y, x ∈ group → y ∈ rest →
      Js.ge (relevance_score (records σ x)) (relevance_score (records σ y)) = true.
Proof.
  intros HK Hrun Hbs Hr.
  destruct (run_inv _ _ _ _ _ _ _ Hrun) as (bs' & Hbs' & _ & _ & _ & Hcont).
  assert (bs' = bs) as -> by congruence.
  set (group := group_of s (records σ) topK minScore k bs).
  set (sel := selected (records σ) minScore k bs).
  destruct (submseteq_Permutation group sel) as [rest Hrest];
    [apply group_of_submseteq|].
  pose proof (group_of_weights s (records σ) topK minScore k bs HK) as Hw.
  fold group sel in Hw.
  exists group, rest. split_and!; [by apply Hcont|done| |].
  - rewrite <-(length_fmap (weight (records σ)) group), Hw, length_take.
    by rewrite (Permutation_length (sort_desc_perm _)), length_fmap.
  - intros x y Hx Hy.
    assert (scored (records σ) sel) as Hsc by apply selected_scored.
    assert (x ∈ sel) as Hxs by (rewrite Hrest; apply elem_of_app; by left).
    assert (y ∈ sel) as Hys by (rewrite Hrest; apply elem_of_app; by right).
    pose proof (proj1 (Forall_forall _ _) Hsc x Hxs) as Hx'.
    pose proof (proj1 (Forall_forall _ _) Hsc y Hys) as Hy'.
    apply sc_weight in Hx', Hy'. unfold MinHeap.score in Hx', Hy'. rewrite Hx', Hy'.
    apply ge_Some.
    apply (sorted_take_drop (sort_desc (weight (records σ) <$> sel)) (Z.to_nat topK));
      [apply sort_desc_sorted|..].
    + rewrite <-Hw. apply list_elem_of_fmap. by exists x.
    + assert (drop (Z.to_nat topK) (sort_desc (weight (records σ) <$> sel)) ≡ₚ
              weight (records σ) <$> rest) as ->.
      { apply (Permutation_app_inv_l (weight (records σ) <$> group)).
        rewrite Hw at 1. rewrite take_drop, sort_desc_perm, Hrest. by rewrite fmap_app. }
      apply list_elem_of_fmap. by exists y.
Qed.

Lemma groups_hold_the_best_witness :
  ∃ group rest,
    arrays (Store (records scenario) [[0; 1; 2; 3]; []; []; [0]; [3]]) !! 3 = Some group ∧
    selected (records scenario) (Qc_of_Z 0) "A" [0; 1; 2; 3] ≡ₚ group ++ rest ∧
    length group =
      Z.to_nat 1 `min` length (selected (records scenario) (Qc_of_Z 0) "A" [0; 1; 2; 3]) ∧
    ∀ x y, x ∈ group → y ∈ rest →
      Js.ge (relevance_score (records scenario x)) (relevance_score (records scenario y)) = true.
Proof.
  apply (groups_hold_the_best BoundedHeap scenario 0 1 (Qc_of_Z 0)
           {[ "A"%string := 3; "B"%string := 4 ]}).
  - lia.
  - vm_compute. reflexivity.
  - reflexivity.
  - reflexivity.
Defined.

(** ** Ties *)

Lemma sort_insert_same_score records q x l :
  filter (λ b, relevance_score (records b) = Some q)
    (Js.sort_insert (by_score_descending records) x l) =
  filter (λ b, relevance_score (records b) = Some q) (x :: l).
Proof.
  induction l as [|y l IH]; [done|]. cbn [Js.sort_insert].
  destruct (Js.sort_compare (by_score_descending records x y)) eqn:Hc; [done..|].
  rewrite filter_cons, IH, !filter_cons.
  destruct (decide (relevance_score (records y) = Some q)) as [Hy|Hy];
    destruct (decide (relevance_score (records x) = Some q)) as [Hx|Hx]; try done.
  unfold by_score_descending in Hc. rewrite Hx, Hy in Hc.
  apply sort_compare_minus_Gt in Hc. by apply Qclt_not_eq in Hc.
Qed.

Lemma sort_same_score records q l :
  filter (λ b, relevance_score (records b) = Some q)
    (Js.sort (by_score_descending records) l) =
  filter (λ b, relevance_score (records b) = Some q) l.
Proof.
  induction l as [|x l IH]; [done|].
  change (Js.sort (by_score_descending records) (x :: l))
    with (Js.sort_insert (by_score_descending records) x
            (Js.sort (by_score_descending records) l)).
  by rewrite sort_insert_same_score, !filter_cons, IH.
Qed.

(** X11: the full sort is stable.  Among the bullets of a company that
    have the same score, [filterBulletsByCompany] keeps the first ones of
    the input, in the order of the input. *)
Theorem full_sort_keeps_the_input_order_of_ties σ bullets topK minScore result σ' bs k r q :
  filterBulletsByCompany bullets topK minScore σ = (Ok result, σ') →
  arrays σ !! bullets = Some bs → result !! k = Some r →
  ∃ group,
    arrays σ' !! r = Some group ∧
    filter (λ b, relevance_score (records σ b) = Some q) group `prefix_of`
    filter (λ b, company_or_unknown (company (records σ b)) = k ∧
                 relevance_score (records σ b) = Some q) bs.
Proof.
  intros Hrun Hbs Hr.
  destruct (run_inv FullSort _ _ _ _ _ _ Hrun) as (bs' & Hbs' & _ & _ & _ & Hcont).
  assert (bs' = bs) as -> by congruence.
  eexists. split; [by apply Hcont|]. cbn [group_of].
  destruct (Js.ge (Some q) (Some minScore)) eqn:Hq.
  - destruct (group_by_sort_prefix (records σ) topK minScore k bs) as [l' Hl'].
    exists (filter (λ b, relevance_score (records σ b) = Some q) l').
    rewrite <-filter_app, <-Hl', sort_same_score. unfold selected.
    rewrite list_filter_filter. apply list_filter_iff. intros b.
    unfold key_of, passes. split; [|tauto]. intros [Hk Hb]. rewrite Hb. tauto.
  - destruct (filter _ (group_by_sort _ _ _ _ _)) as [|b l] eqn:Hf; [apply prefix_nil|].
    assert (b ∈ filter (λ b, relevance_score (records σ b) = Some q)
                  (group_by_sort (records σ) topK minScore k bs)) as Hb
      by (rewrite Hf; by left).
    apply list_elem_of_filter in Hb as [Hsc Hb].
    apply group_by_sort_elem, elem_of_selected in Hb as (_ & _ & Hps).
    unfold passes in Hps. congruence.
Qed.

Lemma full_sort_keeps_the_input_order_of_ties_witness :
  ∃ group,
    arrays (Store (records falsy_companies)
              [[0; 1; 2; 3; 4]; [0; 1; 2; 3; 4]; [0; 1; 2]]) !! 2 = Some group ∧
    filter (λ b, relevance_score (records falsy_companies b) = Some (Qc_of_Z 80)) group
      `prefix_of`
    filter (λ b, company_or_unknown (company (records falsy_companies b)) = "Unknown"%string ∧
                 relevance_score (records falsy_companies b) = Some (Qc_of_Z 80))
      [0; 1; 2; 3; 4].
Proof.
  apply (full_sort_keeps_the_input_order_of_ties falsy_companies 0 3 (Qc_of_Z 0)
           {[ "Unknown"%string := 2 ]}).
  - vm_compute. reflexivity.
  - reflexivity.
  - reflexivity.
Defined.

(** ** A [topK] that is not positive *)

Lemma heap_fold_nonpositive records topK l :
  (topK ≤ 0)%Z → foldl (heap_step topK records) [] l = [].
Proof.
  intros HK. induction l as [|b l IH] using rev_ind; [done|].
  rewrite foldl_app, IH. cbn [foldl]. unfold heap_step, MinHeap.insert, MinHeap.bubbleUp.
  cbn. rewrite (decide_True (P := 0 = 0)) by done.
  rewrite decide_True by (cbn; lia). done.
Qed.

(** X12: when [topK] is zero or negative the heap strategy returns an
    empty group under every key: each bullet it inserts is taken out again
    at once. *)
Theorem heap_keeps_nothing_when_topK_is_not_positive σ bullets topK minScore result σ' k r :
  (topK ≤ 0)%Z →
  filterBulletsWithHeap bullets topK minScore σ = (Ok result, σ') →
  result !! k = Some r →
  arrays σ' !! r = Some [].
Proof.
  intros HK Hrun Hr.
  destruct (run_inv BoundedHeap _ _ _ _ _ _ Hrun) as (bs & Hbs & _ & _ & _ & Hcont).
  rewrite (Hcont k r Hr). cbn [group_of]. unfold group_by_heap, heap_of.
  by rewrite heap_fold_nonpositive.
Qed.

Lemma heap_keeps_nothing_when_topK_is_not_positive_witness :
  arrays (Store (records two_bullets) [[0; 1]; []; []]) !! 2 = Some [].
Proof.
  apply (heap_keeps_nothing_when_topK_is_not_positive two_bullets 0 (-1) (Qc_of_Z 0)
           {[ "A"%string := 2 ]} _ "A"%string).
  - lia.
  - vm_compute. reflexivity.
  - reflexivity.
Defined.

(** X13: when [topK] is negative the full sort returns, under each key,
    the sorted bullets without the last [-topK] of them, since
    [slice(0, topK)] counts from the end. *)
Theorem full_sort_drops_the_last_when_topK_is_negative σ bullets topK minScore result σ' bs k r :
  (topK < 0)%Z →
  filterBulletsByCompany bullets topK minScore σ = (Ok result, σ') →
  arrays σ !! bullets = Some bs → result !! k = Some r →
  ∃ group dropped,
    arrays σ' !! r = Some group ∧
    Js.sort (by_score_descending (records σ)) (selected (records σ) minScore k bs) =
      group ++ dropped ∧
    length dropped = Z.to_nat (- topK) `min` length (selected (records σ) minScore k bs).
Proof.
  intros HK Hrun Hbs Hr.
  destruct (run_inv FullSort _ _ _ _ _ _ Hrun) as (bs' & Hbs' & _ & _ & _ & Hcont).
  assert (bs' = bs) as -> by congruence.
  set (ranked := Js.sort (by_score_descending (records σ)) (selected (records σ) minScore k bs)).
  assert (length ranked = length (selected (records σ) minScore k bs)) as Hlen
    by apply sort_length.
  set (n := Z.to_nat (Z.max (Z.of_nat (length ranked) + topK) 0)).
  assert (group_by_sort (records σ) topK minScore k bs = take n ranked) as Hg.
  { unfold group_by_sort, Js.slice0. fold ranked.
    destruct (Z.ltb_spec topK 0); [done|lia]. }
  exists (take n ranked), (drop n ranked). split_and!.
  - rewrite (Hcont k r Hr). cbn [group_of]. by rewrite Hg.
  - by rewrite take_drop.
  - rewrite length_drop, <-Hlen. unfold n. lia.
Qed.

Lemma full_sort_drops_the_last_when_topK_is_negative_witness :
  ∃ group dropped,
    arrays (Store (records two_bullets) [[0; 1]; [0; 1]; [0]]) !! 2 = Some group ∧
    Js.sort (by_score_descending (records two_bullets))
      (selected (records two_bullets) (Qc_of_Z 0) "A" [0; 1]) = group ++ dropped ∧
    length dropped =
      Z.to_nat (- (-1)) `min` length (selected (records two_bullets) (Qc_of_Z 0) "A" [0; 1]).
Proof.
  apply (full_sort_drops_the_last_when_topK_is_negative two_bullets 0 (-1) (Qc_of_Z 0)
           {[ "A"%string := 2 ]}).
  - lia.
  - vm_compute. reflexivity.
  - reflexivity.
  - reflexivity.
Defined.

(** ** The arrays of a result *)

Section Fresh.
Variable add : loc → ref → M unit.
Variable step : (ref → bullet) → list ref → ref → list ref.
Variable body : string * loc → gmap string loc → M (gmap string loc).
Variable g : (ref → bullet) → list ref → list ref.
Variable minScore : Qc.
Hypothesis add_step : ∀ σ a l b,
  arrays σ !! a = Some l →
  add a b σ = (Ok (), Store (records σ) (<[a := step (records σ) l b]> (arrays σ))).
Hypothesis body_spec : ∀ σ k a result l,
  arrays σ !! a = Some l →
  ∃ σ', body (k, a) result σ = (Ok (<[k := length (arrays σ)]> result), σ') ∧
        records σ' = records σ ∧
        length (arrays σ') = S (length (arrays σ)) ∧
        arrays σ' !! length (arrays σ) = Some (g (records σ) l) ∧
        ∀ j, j ≠ a → j < length (arrays σ) → arrays σ' !! j = arrays σ !! j.

(** Each pass of the second loop puts a new array under its key. *)
Lemma for_of_fresh n es : ∀ σ (result result' : gmap string loc) σ',
  (∀ k a, (k, a) ∈ es → a < length (arrays σ)) →
  n ≤ length (arrays σ) →
  (∀ k r, result !! k = Some r → n ≤ r < length (arrays σ)) →
  (∀ k1 k2 r, result !! k1 = Some r → result !! k2 = Some r → k1 = k2) →
  for_of es body result σ = (Ok result', σ') →
  (∀ k r, result' !! k = Some r → n ≤ r) ∧
  (∀ k1 k2 r, result' !! k1 = Some r → result' !! k2 = Some r → k1 = k2).
Proof.
  induction es as [|[k a] es IH]; intros σ result result' σ' Hes Hn Hres Hinj Hrun.
  { injection Hrun as <- <-. split; [|done]. intros k r Hr. by apply Hres in Hr as [? _]. }
  cbn [for_of] in Hrun. unfold bind in Hrun.
  destruct (lookup_lt_is_Some_2 (arrays σ) a) as [l Hl]; [apply (Hes k); by left|].
  destruct (body_spec σ k a result l Hl) as (σ1 & Hbody & _ & Hlen1 & _).
  rewrite Hbody in Hrun.
  apply (IH σ1 (<[k := length (arrays σ)]> result) result' σ'); [| | | |done].
  - intros k' a' Hin. rewrite Hlen1. specialize (Hes k' a'). 
    assert (a' < length (arrays σ)); [apply Hes; by right|lia].
  - lia.
  - intros k' r. rewrite Hlen1. destruct (decide (k' = k)) as [->|Hne].
    + rewrite lookup_insert_eq. intros [= <-]. lia.
    + rewrite lookup_insert_ne by done. intros Hr%Hres. lia.
  - intros k1 k2 r.
    destruct (decide (k1 = k)) as [->|Hne1], (decide (k2 = k)) as [->|Hne2]; [done|..].
    + rewrite lookup_insert_eq, lookup_insert_ne by done.
      intros [= <-] Hr%Hres. lia.
    + rewrite lookup_insert_eq, lookup_insert_ne by done.
      intros Hr%Hres [= <-]. lia.
    + rewrite !lookup_insert_ne by done. apply Hinj.
Qed.

Lemma select_fresh σ0 bullets result σ' :
  select add body minScore bullets σ0 = (Ok result, σ') →
  (∀ k r, result !! k = Some r → length (arrays σ0) ≤ r) ∧
  (∀ k1 k2 r, result !! k1 = Some r → result !! k2 = Some r → k1 = k2).
Proof.
  intros Hrun. destruct (arrays σ0 !! bullets) as [bs|] eqn:Hbs.
  2:{ by rewrite (select_not_array add body minScore σ0 bullets Hbs) in Hrun. }
  unfold select, bind in Hrun.
  destruct (forEach_groups add step minScore add_step σ0 bullets bs Hbs)
    as [(_ & σ1 & Hfor & _)|(_ & companies & σ1 & Hfor & Hinv)];
    rewrite Hfor in Hrun; [done|].
  destruct Hinv as ([_ Hfr1] & Hcont & _).
  assert (length (arrays σ0) ≤ length (arrays σ1)) as Hlen.
  { destruct (decide (length (arrays σ0) ≤ length (arrays σ1))) as [|Hgt]; [done|].
    destruct (lookup_lt_is_Some_2 (arrays σ0) (length (arrays σ1))) as [x Hx]; [lia|].
    apply Hfr1, lookup_lt_Some in Hx. lia. }
  destruct (for_of_fresh (length (arrays σ1)) (entries companies) σ1 ∅ result σ')
    as [Hnew Hinj]; [| |done..|].
  - intros k a Hka%elem_of_map_to_list. destruct (Hcont k a Hka) as [_ Ha].
    by apply lookup_lt_Some in Ha.
  - done.
  - split; [|done]. intros k r Hr%Hnew. lia.
Qed.
End Fresh.

(** X14: the arrays of the mapping either strategy returns are new and
    distinct: none of them existed before the call, so none is the array of
    the input, and no two keys share one. *)
Theorem result_arrays_are_new s σ bullets topK minScore result σ' :
  run s bullets topK minScore σ = (Ok result, σ') →
  (∀ k r, result !! k = Some r → arrays σ !! r = None ∧ r ≠ bullets) ∧
  (∀ k1 k2 r, result !! k1 = Some r → result !! k2 = Some r → k1 = k2).
Proof.
  intros Hrun.
  assert ((∀ k r, result !! k = Some r → length (arrays σ) ≤ r) ∧
          (∀ k1 k2 r, result !! k1 = Some r → result !! k2 = Some r → k1 = k2))
    as [Hnew Hinj].
  { destruct s; cbn [run] in Hrun.
    - rewrite filterBulletsByCompany_select in Hrun.
      apply (select_fresh array_push (λ _ l b, l ++ [b]) (sort_body topK)
               (λ records l, Js.slice0 (Js.sort (by_score_descending records) l) topK)
               minScore array_push_step (sort_body_spec topK) σ bullets result σ' Hrun).
    - rewrite filterBulletsWithHeap_select in Hrun.
      apply (select_fresh (heap_add topK) (heap_step topK) heap_body
               (λ records H, Js.sort (by_score_descending records)
                               (drained records (length H) H []))
               minScore (heap_add_step topK) heap_body_spec σ bullets result σ' Hrun). }
  split; [|done]. intros k r Hr%Hnew. split; [by apply lookup_ge_None|].
  intros ->. destruct (run_inv _ _ _ _ _ _ _ Hrun) as (bs & Hbs%lookup_lt_Some & _). lia.
Qed.

Lemma result_arrays_are_new_witness :
  (∀ k r, ({[ "A"%string := 3; "B"%string := 4 ]} : gmap string loc) !! k = Some r →
          arrays scenario !! r = None ∧ r ≠ 0) ∧
  (∀ k1 k2 r, ({[ "A"%string := 3; "B"%string := 4 ]} : gmap string loc) !! k1 = Some r →
              ({[ "A"%string := 3; "B"%string := 4 ]} : gmap string loc) !! k2 = Some r →
              k1 = k2).
Proof.
  apply (result_arrays_are_new FullSort scenario 0 2 (Qc_of_Z 60) _
           (Store (records scenario) [[0; 1; 2; 3]; [0; 2]; []; [0; 2]; []])).
  vm_compute. reflexivity.
Defined.

(** X15: a second call on the same array, in the store the first call
    leaves, returns the same keys and, under each key, the same bullets in
    the same order; the arrays the first call returned hold after the second
    call what they held before it. *)
Theorem second_call_returns_the_same_groups s σ bullets topK minScore result σ' :
  run s bullets topK minScore σ = (Ok result, σ') →
  ∃ result2 σ'',
    run s bullets topK minScore σ' = (Ok result2, σ'') ∧
    dom result2 = dom result ∧
    ∀ k r r2, result !! k = Some r → result2 !! k = Some r2 →
      ∃ group,
        arrays σ' !! r = Some group ∧
        arrays σ'' !! r = Some group ∧
        arrays σ'' !! r2 = Some group.
Proof.
  intros Hrun.
  destruct (run_inv _ _ _ _ _ _ _ Hrun) as (bs & Hbs & Hthr & [Hrec Hfr] & Hdom & Hcont).
  apply Hfr in Hbs as Hbs'.
  destruct (run_spec s σ' bullets topK minScore bs Hbs')
    as [[Hthr' _]|(_ & result2 & σ'' & Hrun2 & [Hrec2 Hfr2] & Hdom2 & Hcont2)].
  { rewrite Hrec in Hthr'. done. }
  exists result2, σ''. split_and!; [done| |].
  - apply set_eq. intros k. rewrite !elem_of_dom, Hdom, Hdom2. by rewrite Hrec.
  - intros k r r2 Hr Hr2. eexists. split_and!.
    + by apply Hcont.
    + apply Hfr2. by apply Hcont.
    + rewrite (Hcont2 k r2 Hr2). by rewrite Hrec.
Qed.

Lemma second_call_returns_the_same_groups_witness :
  ∃ result2 σ'',
    run FullSort 0 2 (Qc_of_Z 60) (Store (records scenario) [[0; 1; 2; 3]; [0; 2]; []; [0; 2]; []]) =
      (Ok result2, σ'') ∧
    dom result2 = dom ({[ "A"%string := 3; "B"%string := 4 ]} : gmap string loc) ∧
    ∀ k r r2, ({[ "A"%string := 3; "B"%string := 4 ]} : gmap string loc) !! k = Some r →
      result2 !! k = Some r2 →
      ∃ group,
        arrays (Store (records scenario) [[0; 1; 2; 3]; [0; 2]; []; [0; 2]; []]) !! r =
          Some group ∧
        arrays σ'' !! r = Some group ∧
        arrays σ'' !! r2 = Some group.
Proof.
  apply (second_call_returns_the_same_groups FullSort scenario 0 2 (Qc_of_Z 60)).
  vm_compute. reflexivity.
Defined.

(** * The tool [filter_bullets_by_score] of the server *)

Lemma filter_from_step {V} (a : loc) (callback : ref → V → M (bool * V)) out k n s σ l b :
  arrays σ !! a = Some l → l !! k = Some b →
  filter_from a callback out k (S n) s σ =
  bind (bind (callback b s) (λ r,
          let '(selected, s) := r in
          bind (if selected : bool then array_push out b else ret ()) (λ _, ret s)))
       (filter_from a callback out (k + 1) n) σ.
Proof.
  intros Ha Hb. cbn [filter_from]. unfold bind at 1 2, array_get, bind, array_contents, ret.
  by rewrite Ha, Hb.
Qed.

Section ScoreFilter.
Variable minScore : Qc.
Variable bulletsPerCompany : Z.

Abbreviation callback := (score_callback minScore bulletsPerCompany).

Lemma score_callback_run b companyCounts σ :
  callback b companyCounts σ =
  (Ok (if Js.lt (relevance_score (records σ b)) (Some minScore)
       then (false, companyCounts)
       else
         let company := company_key (company (records σ b)) in
         let companyCounts :=
           set_count companyCounts company (increment (Js.get companyCounts company)) in
         (count_le (Js.get companyCounts company) bulletsPerCompany, companyCounts)), σ).
Proof.
  unfold score_callback, bind, read_bullet, ret.
  by destruct (Js.lt (relevance_score (records σ b)) (Some minScore)).
Qed.

Lemma filter_from_kept a out : a ≠ out →
  ∀ n k companyCounts σ l o,
    arrays σ !! a = Some l → arrays σ !! out = Some o → k + n = length l →
    filter_from a callback out k n companyCounts σ =
    (Ok (counted (records σ) minScore companyCounts (drop k l)),
     Store (records σ)
       (<[out := o ++ kept (records σ) minScore bulletsPerCompany companyCounts (drop k l)]>
          (arrays σ))).
Proof.
  intros Hne. induction n as [|n IH]; intros k companyCounts σ l o Ha Hout Hlen.
  { rewrite drop_ge by lia. cbn. unfold ret.
    by rewrite app_nil_r, list_insert_id, store_eta. }
  destruct (lookup_lt_is_Some_2 l k) as [b Hb]; [lia|].
  rewrite (drop_S _ _ _ Hb), (filter_from_step _ _ _ _ _ _ _ _ _ Ha Hb).
  cbn [kept counted]. unfold bind. rewrite score_callback_run.
  destruct (Js.lt (relevance_score (records σ b)) (Some minScore)).
  { unfold ret. rewrite (IH (k + 1) _ σ l o) by (done || lia).
    by rewrite Nat.add_1_r. }
  cbv zeta. destruct (count_le _ bulletsPerCompany).
  - rewrite (array_push_step σ out o b Hout). unfold ret.
    rewrite (IH (k + 1) _ _ l (o ++ [b])); cbn [records arrays].
    + by rewrite Nat.add_1_r, list_insert_insert_eq, <-app_assoc.
    + by rewrite list_lookup_insert_ne.
    + apply list_lookup_insert_eq. by apply lookup_lt_Some in Hout.
    + lia.
  - unfold ret. rewrite (IH (k + 1) _ σ l o) by (done || lia).
    by rewrite Nat.add_1_r.
Qed.

Lemma filterBulletsByScore_callback bullets :
  filterBulletsByScore bullets minScore bulletsPerCompany =
  (let* sorted := array_sort_by_score bullets in
   let* r := array_filter sorted callback ∅ in
   let '(bullets, _) := r in
   ret bullets).
Proof. done. Qed.

(** What a call does: it sorts the array in place, and returns a new array
    of the bullets the callback accepts. *)
Lemma filterBulletsByScore_run σ bullets bs :
  arrays σ !! bullets = Some bs →
  let sorted := Js.sort (by_score_descending (records σ)) bs in
  filterBulletsByScore bullets minScore bulletsPerCompany σ =
  (Ok (length (arrays σ)),
   Store (records σ)
     (<[bullets := sorted]> (arrays σ) ++
      [kept (records σ) minScore bulletsPerCompany ∅ sorted])).
Proof.
  intros Hbs sorted. pose proof (lookup_lt_Some _ _ _ Hbs) as Hlt.
  rewrite filterBulletsByScore_callback.
  unfold bind at 1, array_sort_by_score, bind at 1 2 3, array_contents, read_records,
    array_update, ret.
  rewrite Hbs. cbn [records arrays]. fold sorted.
  unfold bind at 1, array_filter, bind at 1 2 3, array_length, bind at 1, array_contents,
    new_array, ret.
  cbn [records arrays]. rewrite list_lookup_insert_eq by done. cbn [records arrays].
  rewrite length_insert.
  rewrite (filter_from_kept bullets (length (arrays σ)) ltac:(lia) (length sorted) 0 ∅
             _ sorted []); cbn [records arrays].
  - rewrite drop_0, app_nil_l. do 2 f_equal.
    rewrite insert_app_r_alt by (by rewrite length_insert).
    by rewrite length_insert, Nat.sub_diag.
  - rewrite lookup_app_l by (by rewrite length_insert).
    by apply list_lookup_insert_eq.
  - rewrite lookup_app_r by (by rewrite length_insert).
    by rewrite length_insert, Nat.sub_diag.
  - done.
Qed.
End ScoreFilter.

(** ** What the filter keeps *)

Section Kept.
Variable records : ref → bullet.
Variable minScore : Qc.
Variable bulletsPerCompany : Z.

Abbreviation key := (λ b, company_key (company (records b))).
Abbreviation low := (λ b, Js.lt (relevance_score (records b)) (Some minScore)).
Abbreviation kept' := (kept records minScore bulletsPerCompany).
Abbreviation next := (λ companyCounts k, set_count companyCounts k (increment (Js.get companyCounts k))).

Lemma kept_sublist l : ∀ companyCounts, kept' companyCounts l `sublist_of` l.
Proof.
  induction l as [|b l IH]; intros companyCounts; cbn [kept]; [done|].
  destruct (low b); [by apply sublist_cons|]. cbv zeta.
  destruct (count_le _ _); [by apply sublist_skip|by apply sublist_cons].
Qed.

Lemma kept_threshold l : ∀ companyCounts b, b ∈ kept' companyCounts l → low b = false.
Proof.
  induction l as [|a l IH]; intros companyCounts b; cbn [kept].
  { by intros ?%elem_of_nil. }
  destruct (low a) eqn:Ha; [apply IH|]. cbv zeta.
  destruct (count_le _ _); [|apply IH].
  intros [->|Hb]%elem_of_cons; [done|by eapply IH].
Qed.

Lemma counts_ok_empty : counts_ok ∅.
Proof. intros k n _. by rewrite lookup_empty. Qed.

Lemma counts_ok_next companyCounts k : counts_ok companyCounts → counts_ok (next companyCounts k).
Proof.
  intros Hok k' n Hin. unfold set_count. case_decide; [by apply Hok|].
  destruct (decide (k' = k)) as [->|Hne]; [|rewrite lookup_insert_ne by done; by apply Hok].
  rewrite lookup_insert_eq. unfold Js.get.
  destruct (companyCounts !! k) as [[m|]|] eqn:Hk; [by destruct (Hok k m)|done|].
  by rewrite Hin.
Qed.

Lemma count_le_inherited companyCounts k :
  counts_ok companyCounts → Js.inherited k = true →
  count_le (Js.get companyCounts k) bulletsPerCompany = false.
Proof.
  intros Hok Hin. unfold Js.get.
  destruct (companyCounts !! k) as [[m|]|] eqn:Hk; [by destruct (Hok k m)|done|].
  by rewrite Hin.
Qed.

(** A bullet of a company whose name every object inherits is never kept. *)
Lemma kept_not_inherited l : ∀ companyCounts b,
  counts_ok companyCounts → b ∈ kept' companyCounts l → Js.inherited (key b) = false.
Proof.
  induction l as [|a l IH]; intros companyCounts b Hok; cbn [kept].
  { by intros ?%elem_of_nil. }
  destruct (low a); [by apply IH|]. cbv zeta.
  pose proof (counts_ok_next companyCounts (key a) Hok) as Hok'.
  destruct (count_le _ _) eqn:Hle; [|by apply IH].
  intros [->|Hb]%elem_of_cons; [|by eapply IH].
  destruct (Js.inherited (key a)) eqn:Hin; [|done].
  by rewrite count_le_inherited in Hle.
Qed.

Lemma count_of_next companyCounts k k' n :
  Js.inherited k = false → count_of companyCounts k = Some n →
  count_of (next companyCounts k') k = Some (if decide (k' = k) then n + 1 else n).
Proof.
  intros Hin Hn. unfold set_count.
  assert (k ≠ "__proto__"%string) as Hproto by (by intros ->).
  case_decide as Hk'; [by rewrite decide_False by congruence|].
  unfold count_of in *. destruct (decide (k' = k)) as [->|Hne].
  - rewrite lookup_insert_eq. unfold Js.get.
    destruct (companyCounts !! k) as [[m|]|]; [by injection Hn as ->|done|].
    rewrite Hin. by injection Hn as <-.
  - by rewrite lookup_insert_ne.
Qed.

Lemma count_le_number companyCounts k n :
  Js.inherited k = false → count_of companyCounts k = Some n → 0 < n →
  count_le (Js.get companyCounts k) bulletsPerCompany =
  bool_decide (n ≤ Z.to_nat bulletsPerCompany).
Proof.
  intros Hin Hn Hpos. unfold count_of, Js.get in *.
  destruct (companyCounts !! k) as [[m|]|]; [|done|injection Hn as <-; lia].
  injection Hn as ->. cbn. apply bool_decide_ext. lia.
Qed.

(** Of a company whose name no object inherits, the filter keeps the first
    bullets that are not below the threshold, until the count exceeds
    [bulletsPerCompany]. *)
Lemma kept_company k l : ∀ companyCounts n,
  Js.inherited k = false → count_of companyCounts k = Some n →
  filter (λ b, key b = k) (kept' companyCounts l) =
  take (Z.to_nat bulletsPerCompany - n) (filter (λ b, key b = k ∧ low b = false) l).
Proof.
  induction l as [|a l IH]; intros companyCounts n Hin Hn; cbn [kept].
  { by rewrite !filter_nil, take_nil. }
  destruct (low a) eqn:Ha.
  { rewrite (filter_cons_False (λ b, key b = k ∧ low b = false)) by (rewrite Ha; by intros [_ ?]).
    by apply IH. }
  cbv zeta. pose proof (count_of_next companyCounts k (key a) n Hin Hn) as Hn'.
  destruct (decide (key a = k)) as [Hk|Hk].
  - rewrite (filter_cons_True (λ b, key b = k ∧ low b = false)) by done.
    rewrite Hk in Hn' |- *. rewrite (count_le_number _ _ (n + 1)) by (done || lia).
    case_bool_decide as Hle.
    + rewrite filter_cons_True by done. rewrite (IH _ (n + 1)) by done.
      replace (Z.to_nat bulletsPerCompany - n) with (S (Z.to_nat bulletsPerCompany - (n + 1)))
        by lia.
      done.
    + rewrite (IH _ (n + 1)) by done.
      replace (Z.to_nat bulletsPerCompany - (n + 1)) with 0 by lia.
      replace (Z.to_nat bulletsPerCompany - n) with 0 by lia.
      by rewrite !take_0.
  - rewrite (filter_cons_False (λ b, key b = k ∧ low b = false)) by (by intros [? _]).
    destruct (count_le _ _); [rewrite filter_cons_False by done|]; by apply IH.
Qed.
End Kept.

(** ** Sorting and filtering *)

Section SortFilter.
Variable records : ref → bullet.
Context (P : ref → Prop) `{∀ b, Decision (P b)}.

Abbreviation sc := (MinHeap.score records).
Abbreviation cmp := (by_score_descending records).

Lemma sort_insert_front x l :
  is_Some (sc x) → scored records l →
  Forall (λ z, Js.ge (sc x) (sc z) = true) l →
  Js.sort_insert cmp x l = x :: l.
Proof.
  intros Hx Hl Hge. destruct l as [|y l]; [done|]. cbn [Js.sort_insert].
  apply Forall_cons in Hge as [Hy _]. apply Forall_cons in Hl as [Hy' _].
  destruct (Js.sort_compare (cmp x y)) eqn:Hc; [done..|].
  unfold by_score_descending in Hc. fold (sc x) (sc y) in Hc.
  rewrite (sc_weight records x Hx), (sc_weight records y Hy') in Hc, Hy.
  apply sort_compare_minus_Gt in Hc. apply ge_Some in Hy.
  by apply Qcle_not_lt in Hy.
Qed.

Lemma not_Gt_ge x y :
  is_Some (sc x) → is_Some (sc y) → Js.sort_compare (cmp x y) ≠ Gt →
  Js.ge (sc x) (sc y) = true.
Proof.
  intros Hx Hy Hc. unfold by_score_descending in Hc. fold (sc x) (sc y) in Hc.
  rewrite (sc_weight records x Hx), (sc_weight records y Hy) in Hc |- *.
  apply ge_Some, Qcnot_lt_le. by intros Hlt%sort_compare_minus_Gt.
Qed.

Lemma Forall_filter_elem (Q : ref → Prop) l : Forall Q l → Forall Q (filter P l).
Proof.
  intros HQ. apply Forall_forall. intros z [_ Hz]%list_elem_of_filter.
  by apply (proj1 (Forall_forall _ _) HQ).
Qed.

Lemma sort_insert_filter_front x y l :
  is_Some (sc x) → scored records (y :: l) →
  Forall (λ b, Js.ge (sc y) (sc b) = true) l →
  Js.sort_compare (cmp x y) ≠ Gt →
  Js.sort_insert cmp x (filter P (y :: l)) = x :: filter P (y :: l).
Proof.
  intros Hx Hl Hy Hc. apply sort_insert_front; [done|by apply Forall_filter_elem|].
  apply Forall_filter_elem.
  assert (Js.ge (sc x) (sc y) = true) as Hxy.
  { apply not_Gt_ge; [done| |done]. by apply Forall_cons in Hl as [? _]. }
  apply Forall_cons. split; [done|].
  eapply Forall_impl; [exact Hy|]. intros z Hz. cbn beta in *.
  by apply (ge_trans (λ r, relevance_score (records r)) x y z).
Qed.

Lemma sort_insert_filter x l :
  is_Some (sc x) → scored records l →
  StronglySorted (λ a b, Js.ge (sc a) (sc b) = true) l →
  filter P (Js.sort_insert cmp x l) =
  if decide (P x) then Js.sort_insert cmp x (filter P l) else filter P l.
Proof.
  intros Hx Hl Hs. induction Hs as [|y l Hs IH Hy].
  { cbn. by destruct (decide (P x)). }
  pose proof Hl as Hyl. apply Forall_cons in Hl as [Hy' Hl]. cbn [Js.sort_insert].
  destruct (Js.sort_compare (cmp x y)) eqn:Hc.
  3:{ rewrite filter_cons, (IH Hl), (filter_cons _ y).
      destruct (decide (P x)), (decide (P y)); try done.
      cbn [Js.sort_insert]. by rewrite Hc. }
  all: rewrite filter_cons; destruct (decide (P x)) as [HP|HP]; [|done].
  all: rewrite sort_insert_filter_front; [done..|congruence].
Qed.

(** Sorting bullets that have scores and then keeping those of a kind
    gives what keeping them and then sorting gives: the sort is stable. *)
Lemma sort_filter l :
  scored records l → filter P (Js.sort cmp l) = Js.sort cmp (filter P l).
Proof.
  induction 1 as [|x l Hx Hl IH]; [done|].
  change (Js.sort cmp (x :: l)) with (Js.sort_insert cmp x (Js.sort cmp l)).
  rewrite sort_insert_filter, IH, filter_cons; [by destruct (decide (P x))|done|..].
  - eapply scored_perm; [|exact Hl]. by rewrite sort_perm.
  - by apply (sort_sorted (λ r, relevance_score (records r))).
Qed.
End SortFilter.

Lemma filter_ext_elem {A} (P Q : A → Prop) `{∀ x, Decision (P x)} `{∀ x, Decision (Q x)}
    (l : list A) :
  (∀ x, x ∈ l → P x ↔ Q x) → filter P l = filter Q l.
Proof.
  induction l as [|x l IH]; intros HPQ; [done|].
  rewrite !filter_cons, IH by (intros y Hy; apply HPQ; by right).
  destruct (decide (P x)) as [HP|HP], (decide (Q x)) as [HQ|HQ]; try done.
  - destruct HQ. apply HPQ; [by left|done].
  - destruct HP. apply HPQ; [by left|done].
Qed.

Lemma StronglySorted_sublist {A} (R : A → A → Prop) (l1 l2 : list A) :
  l1 `sublist_of` l2 → StronglySorted R l2 → StronglySorted R l1.
Proof.
  induction 1 as [|x l1 l2 Hsub IH|x l1 l2 Hsub IH]; intros Hs; [done|..].
  - apply StronglySorted_inv in Hs as [Hs Hx]. constructor; [by apply IH|].
    apply Forall_forall. intros y Hy.
    apply (proj1 (Forall_forall _ _) Hx). by eapply elem_of_sublist.
  - apply StronglySorted_inv in Hs as [Hs _]. by apply IH.
Qed.

Lemma sorted_non_increasing_list records l :
  scored records l → non_increasing records (Js.sort (by_score_descending records) l).
Proof.
  intros Hsc i j x y Hij Hx Hy.
  eapply (StronglySorted_lookup (λ a b, Js.ge (MinHeap.score records a)
                                          (MinHeap.score records b) = true)); [|done..].
  by apply (sort_sorted (λ r, relevance_score (records r))).
Qed.

(** ** What a call returns *)

(** X16: [filterBulletsByScore] sorts the array it is given, in place: after
    the call the array of the caller holds the same bullets in another order,
    non-increasing in score when all have one.  The call returns a new array,
    never throws, and leaves the bullets and the other arrays as they
    were. *)
Theorem filterBulletsByScore_sorts_its_input σ bullets minScore bulletsPerCompany bs :
  arrays σ !! bullets = Some bs →
  ∃ result σ' sorted,
    filterBulletsByScore bullets minScore bulletsPerCompany σ = (Ok result, σ') ∧
    arrays σ' !! bullets = Some sorted ∧
    sorted ≡ₚ bs ∧
    (scored (records σ) bs → non_increasing (records σ) sorted) ∧
    (∀ b, records σ' b = records σ b) ∧
    arrays σ !! result = None ∧
    ∀ l x, l ≠ bullets → arrays σ !! l = Some x → arrays σ' !! l = Some x.
Proof.
  intros Hbs. pose proof (lookup_lt_Some _ _ _ Hbs) as Hlt.
  eexists _, _, _. split; [by apply filterBulletsByScore_run|]. cbn [records arrays].
  split_and!.
  - rewrite lookup_app_l by (by rewrite length_insert). by apply list_lookup_insert_eq.
  - apply sort_perm.
  - apply sorted_non_increasing_list.
  - done.
  - by apply lookup_ge_None.
  - intros l x Hne Hl. pose proof (lookup_lt_Some _ _ _ Hl).
    rewrite lookup_app_l by (by rewrite length_insert).
    by rewrite list_lookup_insert_ne.
Qed.

Lemma filterBulletsByScore_sorts_its_input_witness :
  ∃ result σ' sorted,
    filterBulletsByScore 0 (Qc_of_Z 60) 1 scenario = (Ok result, σ') ∧
    arrays σ' !! 0 = Some sorted ∧
    sorted ≡ₚ [0; 1; 2; 3] ∧
    (scored (records scenario) [0; 1; 2; 3] → non_increasing (records scenario) sorted) ∧
    (∀ b, records σ' b = records scenario b) ∧
    arrays scenario !! result = None ∧
    ∀ l x, l ≠ 0 → arrays scenario !! l = Some x → arrays σ' !! l = Some x.
Proof. apply filterBulletsByScore_sorts_its_input. reflexivity. Defined.

(** X17: the array [filterBulletsByScore] returns holds bullets of the
    sorted input in their order there, none of them with a score below
    [minScore]; it is non-increasing in score when every bullet of the
    input has one. *)
Theorem filterBulletsByScore_keeps_the_sorted_order σ bullets minScore bulletsPerCompany bs :
  arrays σ !! bullets = Some bs →
  ∃ result σ' all sorted,
    filterBulletsByScore bullets minScore bulletsPerCompany σ = (Ok result, σ') ∧
    arrays σ' !! result = Some all ∧
    arrays σ' !! bullets = Some sorted ∧
    all `sublist_of` sorted ∧
    (∀ b, b ∈ all → Js.lt (relevance_score (records σ b)) (Some minScore) = false) ∧
    (scored (records σ) bs → non_increasing (records σ) all).
Proof.
  intros Hbs. pose proof (lookup_lt_Some _ _ _ Hbs) as Hlt.
  eexists _, _, _, _. split; [by apply filterBulletsByScore_run|]. cbn [records arrays].
  split_and!.
  - rewrite lookup_app_r by (by rewrite length_insert).
    by rewrite length_insert, Nat.sub_diag.
  - rewrite lookup_app_l by (by rewrite length_insert). by apply list_lookup_insert_eq.
  - apply kept_sublist.
  - intros b Hb. by eapply kept_threshold.
  - intros Hsc i j x y Hij Hx Hy.
    eapply (StronglySorted_lookup (λ a b, Js.ge (MinHeap.score (records σ) a)
                                            (MinHeap.score (records σ) b) = true)); [|done..].
    eapply StronglySorted_sublist; [apply kept_sublist|].
    by apply (sort_sorted (λ r, relevance_score (records σ r))).
Qed.

Lemma filterBulletsByScore_keeps_the_sorted_order_witness :
  ∃ result σ' all sorted,
    filterBulletsByScore 0 (Qc_of_Z 60) 1 scenario = (Ok result, σ') ∧
    arrays σ' !! result = Some all ∧
    arrays σ' !! 0 = Some sorted ∧
    all `sublist_of` sorted ∧
    (∀ b, b ∈ all →
          Js.lt (relevance_score (records scenario b)) (Some (Qc_of_Z 60)) = false) ∧
    (scored (records scenario) [0; 1; 2; 3] → non_increasing (records scenario) all).
Proof. apply filterBulletsByScore_keeps_the_sorted_order. reflexivity. Defined.

(** X18: of each company whose name is not a property every object
    inherits, [filterBulletsByScore] keeps the first [bulletsPerCompany]
    bullets of the sorted input that are not below [minScore], and no
    other; none when [bulletsPerCompany] is zero or negative. *)
Theorem filterBulletsByScore_keeps_the_first_of_a_company
    σ bullets minScore bulletsPerCompany bs k :
  arrays σ !! bullets = Some bs →
  Js.inherited k = false →
  ∃ result σ' all sorted,
    filterBulletsByScore bullets minScore bulletsPerCompany σ = (Ok result, σ') ∧
    arrays σ' !! result = Some all ∧
    arrays σ' !! bullets = Some sorted ∧
    filter (λ b, company_key (company (records σ b)) = k) all =
    take (Z.to_nat bulletsPerCompany)
      (filter (λ b, company_key (company (records σ b)) = k ∧
                    Js.lt (relevance_score (records σ b)) (Some minScore) = false) sorted) ∧
    length (filter (λ b, company_key (company (records σ b)) = k) all)
      ≤ Z.to_nat bulletsPerCompany.
Proof.
  intros Hbs Hin. pose proof (lookup_lt_Some _ _ _ Hbs) as Hlt.
  eexists _, _, _, _. split; [by apply filterBulletsByScore_run|]. cbn [records arrays].
  assert (∀ l, filter (λ b, company_key (company (records σ b)) = k)
                 (kept (records σ) minScore bulletsPerCompany ∅ l) =
               take (Z.to_nat bulletsPerCompany)
                 (filter (λ b, company_key (company (records σ b)) = k ∧
                    Js.lt (relevance_score (records σ b)) (Some minScore) = false) l)) as Hk.
  { intros l. rewrite (kept_company (records σ) minScore bulletsPerCompany k l ∅ 0); [|done..].
    by rewrite Nat.sub_0_r. }
  split_and!.
  - rewrite lookup_app_r by (by rewrite length_insert).
    by rewrite length_insert, Nat.sub_diag.
  - rewrite lookup_app_l by (by rewrite length_insert). by apply list_lookup_insert_eq.
  - apply Hk.
  - rewrite Hk, length_take. lia.
Qed.

Lemma filterBulletsByScore_keeps_the_first_of_a_company_witness :
  ∃ result σ' all sorted,
    filterBulletsByScore 0 (Qc_of_Z 60) 1 scenario = (Ok result, σ') ∧
    arrays σ' !! result = Some all ∧
    arrays σ' !! 0 = Some sorted ∧
    filter (λ b, company_key (company (records scenario b)) = "A"%string) all =
    take (Z.to_nat 1)
      (filter (λ b, company_key (company (records scenario b)) = "A"%string ∧
                    Js.lt (relevance_score (records scenario b)) (Some (Qc_of_Z 60)) = false)
         sorted) ∧
    length (filter (λ b, company_key (company (records scenario b)) = "A"%string) all)
      ≤ Z.to_nat 1.
Proof.
  apply (filterBulletsByScore_keeps_the_first_of_a_company scenario 0 _ _ [0; 1; 2; 3]);
    reflexivity.
Defined.

(** X19: a bullet whose company has the name of a property every object
    inherits ([constructor], [toString], ...) is never in the array
    [filterBulletsByScore] returns, whatever its score: the count of its
    company is not a number.  The call does not throw on it. *)
Theorem filterBulletsByScore_drops_inherited_companies σ bullets minScore bulletsPerCompany bs :
  arrays σ !! bullets = Some bs →
  ∃ result σ' all,
    filterBulletsByScore bullets minScore bulletsPerCompany σ = (Ok result, σ') ∧
    arrays σ' !! result = Some all ∧
    ∀ b, b ∈ all → Js.inherited (company_key (company (records σ b))) = false.
Proof.
  intros Hbs. pose proof (lookup_lt_Some _ _ _ Hbs) as Hlt.
  eexists _, _, _. split; [by apply filterBulletsByScore_run|]. cbn [records arrays].
  split.
  - rewrite lookup_app_r by (by rewrite length_insert).
    by rewrite length_insert, Nat.sub_diag.
  - intros b Hb. eapply kept_not_inherited; [apply counts_ok_empty|done].
Qed.

Lemma filterBulletsByScore_drops_inherited_companies_witness :
  ∃ result σ' all,
    filterBulletsByScore 0 (Qc_of_Z 0) 5 inherited_company = (Ok result, σ') ∧
    arrays σ' !! result = Some all ∧
    ∀ b, b ∈ all →
         Js.inherited (company_key (company (records inherited_company b))) = false.
Proof.
  apply (filterBulletsByScore_drops_inherited_companies inherited_company 0 _ _ [0]).
  reflexivity.
Defined.

(** X20: a bullet that has no [relevance_score] is not below [minScore] for
    [filterBulletsByScore], since [undefined < minScore] is false: with
    room for every bullet, it is in the array the call returns (unless its
    company has an inherited name). *)
Theorem filterBulletsByScore_keeps_unscored_bullets σ bullets minScore bulletsPerCompany bs b :
  arrays σ !! bullets = Some bs →
  b ∈ bs →
  relevance_score (records σ b) = None →
  Js.inherited (company_key (company (records σ b))) = false →
  (Z.of_nat (length bs) ≤ bulletsPerCompany)%Z →
  ∃ result σ' all,
    filterBulletsByScore bullets minScore bulletsPerCompany σ = (Ok result, σ') ∧
    arrays σ' !! result = Some all ∧
    b ∈ all.
Proof.
  intros Hbs Hb Hsc Hin Hroom. pose proof (lookup_lt_Some _ _ _ Hbs) as Hlt.
  eexists _, _, _. split; [by apply filterBulletsByScore_run|]. cbn [records arrays].
  split.
  - rewrite lookup_app_r by (by rewrite length_insert).
    by rewrite length_insert, Nat.sub_diag.
  - set (sorted := Js.sort (by_score_descending (records σ)) bs).
    set (k := company_key (company (records σ b))) in *.
    assert (b ∈ filter (λ b, company_key (company (records σ b)) = k)
                  (kept (records σ) minScore bulletsPerCompany ∅ sorted)) as Hk;
      [|by apply list_elem_of_filter in Hk as [_ ?]].
    rewrite (kept_company (records σ) minScore bulletsPerCompany k sorted ∅ 0); [|done..].
    rewrite take_ge.
    + apply list_elem_of_filter. split; [by rewrite Hsc|].
      unfold sorted. by rewrite sort_perm.
    + etrans; [apply length_filter|]. unfold sorted. rewrite sort_length. lia.
Qed.

Lemma filterBulletsByScore_keeps_unscored_bullets_witness :
  ∃ result σ' all,
    filterBulletsByScore 0 (Qc_of_Z 75) 5 unscored_bullet = (Ok result, σ') ∧
    arrays σ' !! result = Some all ∧
    0 ∈ all.
Proof.
  apply (filterBulletsByScore_keeps_unscored_bullets unscored_bullet 0 _ _ [0]).
  - reflexivity.
  - by left.
  - reflexivity.
  - reflexivity.
  - cbn. lia.
Defined.

(** X21: on bullets that all have a score and a company name,
    [filterBulletsByScore] and [filterBulletsByCompany] called with the same
    threshold and the same bound select the same bullets: the group of a
    company in the result of the second holds the bullets of that company
    in the array the first returns, in the same order. *)
Theorem filterBulletsByScore_agrees_with_filterBulletsByCompany
    σ bullets minScore topK bs result σA :
  (0 ≤ topK)%Z →
  arrays σ !! bullets = Some bs →
  scored (records σ) bs →
  Forall (named (records σ)) bs →
  filterBulletsByCompany bullets topK minScore σ = (Ok result, σA) →
  ∃ kept_bullets σB all,
    filterBulletsByScore bullets minScore topK σ = (Ok kept_bullets, σB) ∧
    arrays σB !! kept_bullets = Some all ∧
    ∀ k r, result !! k = Some r →
      arrays σA !! r =
      Some (filter (λ b, company (records σ b) = CompanyString k) all).
Proof.
  intros HK Hbs Hsc Hnamed Hrun. pose proof (lookup_lt_Some _ _ _ Hbs) as Hlt.
  destruct (run_inv FullSort _ _ _ _ _ _ Hrun) as (bs' & Hbs' & _ & _ & Hdom & Hcont).
  assert (bs' = bs) as -> by congruence.
  eexists _, _, _. split; [by apply filterBulletsByScore_run|]. cbn [records arrays].
  split.
  { rewrite lookup_app_r by (by rewrite length_insert).
    by rewrite length_insert, Nat.sub_diag. }
  intros k r Hr. rewrite (Hcont k r Hr). cbn [group_of]. f_equal.
  destruct (proj1 (Hdom k)) as [Hin _]; [by eauto|].
  set (sorted := Js.sort (by_score_descending (records σ)) bs).
  assert (sorted ≡ₚ bs) as Hperm by apply sort_perm.
  assert (∀ b, b ∈ sorted →
            is_Some (relevance_score (records σ b)) ∧ named (records σ) b) as Hall.
  { intros b Hb. rewrite Hperm in Hb. split.
    - by apply (proj1 (Forall_forall _ _) Hsc).
    - by apply (proj1 (Forall_forall _ _) Hnamed). }
  trans (filter (λ b, company_key (company (records σ b)) = k)
           (kept (records σ) minScore topK ∅ sorted)).
  - rewrite (kept_company (records σ) minScore topK k sorted ∅ 0), Nat.sub_0_r by done.
    unfold group_by_sort, selected. rewrite slice0_nonneg by done. f_equal.
    rewrite <-sort_filter by done. fold sorted.
    apply filter_ext_elem. intros b [[q Hq] (s & Hs & Hne)]%Hall.
    unfold key_of, passes. rewrite Hs, Hq. cbn [company_or_unknown company_key].
    rewrite decide_False by done.
    destruct (decide (minScore ≤ q)%Qc) as [Hle|Hgt].
    + rewrite (proj2 (ge_Some q minScore) Hle), (proj2 (lt_false_Some q minScore) Hle).
      split; intros [? _]; by split.
    + apply Qcnot_le_lt in Hgt.
      rewrite (proj2 (ge_false_Some q minScore) Hgt), (proj2 (lt_Some q minScore) Hgt).
      split; by intros [_ ?].
  - apply filter_ext_elem. intros b Hb.
    assert (b ∈ sorted) as [_ (s & Hs & _)]%Hall
      by (eapply elem_of_sublist; [exact Hb|apply kept_sublist]).
    rewrite Hs. cbn. split; [by intros ->|by intros [= ->]].
Qed.

Lemma filterBulletsByScore_agrees_with_filterBulletsByCompany_witness :
  ∃ kept_bullets σB all,
    filterBulletsByScore 0 (Qc_of_Z 60) 2 scenario = (Ok kept_bullets, σB) ∧
    arrays σB !! kept_bullets = Some all ∧
    ∀ k r, ({[ "A"%string := 3; "B"%string := 4 ]} : gmap string loc) !! k = Some r →
      arrays (Store (records scenario) [[0; 1; 2; 3]; [0; 2]; []; [0; 2]; []]) !! r =
      Some (filter (λ b, company (records scenario b) = CompanyString k) all).
Proof.
  apply (filterBulletsByScore_agrees_with_filterBulletsByCompany scenario 0 (Qc_of_Z 60) 2
           [0; 1; 2; 3]).
  - lia.
  - reflexivity.
  - repeat constructor; vm_compute; eauto.
  - repeat constructor; eexists; (split; [reflexivity|done]).
  - vm_compute. reflexivity.
Defined.

(** * The tool [delete_bullets_by_id] of the server *)

Lemma filter_from_pure {V} (callback : ref → V → M (bool * V)) (p : (ref → bullet) → ref → bool)
    a out :
  a ≠ out →
  (∀ b s σ, callback b s σ = (Ok (p (records σ) b, s), σ)) →
  ∀ n k s σ l o,
    arrays σ !! a = Some l → arrays σ !! out = Some o → k + n = length l →
    filter_from a callback out k n s σ =
    (Ok s, Store (records σ)
             (<[out := o ++ filter (λ b, p (records σ) b = true) (drop k l)]> (arrays σ))).
Proof.
  intros Hne Hcb. induction n as [|n IH]; intros k s σ l o Ha Hout Hlen.
  { rewrite drop_ge by lia. cbn [filter_from]. unfold ret.
    by rewrite filter_nil, app_nil_r, list_insert_id, store_eta. }
  destruct (lookup_lt_is_Some_2 l k) as [b Hb]; [lia|].
  rewrite (drop_S _ _ _ Hb), (filter_from_step _ _ _ _ _ _ _ _ _ Ha Hb), filter_cons.
  unfold bind. rewrite Hcb. destruct (p (records σ) b) eqn:Hp.
  - rewrite decide_True by done.
    rewrite (array_push_step σ out o b Hout). unfold ret.
    rewrite (IH (k + 1) _ _ l (o ++ [b])); cbn [records arrays].
    + by rewrite Nat.add_1_r, list_insert_insert_eq, <-app_assoc.
    + by rewrite list_lookup_insert_ne.
    + apply list_lookup_insert_eq. by apply lookup_lt_Some in Hout.
    + lia.
  - rewrite decide_False by done. unfold ret.
    rewrite (IH (k + 1) _ σ l o) by (done || lia). by rewrite Nat.add_1_r.
Qed.

(** What a call does: it returns a new array of the bullets whose [id] is
    not listed, and changes nothing else. *)
Lemma deleteBulletsById_run σ bullets bulletIds bs :
  arrays σ !! bullets = Some bs →
  deleteBulletsById bullets bulletIds σ =
  (Ok (length (arrays σ)),
   Store (records σ)
     (arrays σ ++ [filter (λ b, listed (records σ) bulletIds b = false) bs])).
Proof.
  intros Hbs. pose proof (lookup_lt_Some _ _ _ Hbs) as Hlt.
  unfold deleteBulletsById, bind at 1, array_filter, bind at 1 2 3, array_length, bind at 1,
    array_contents, new_array, ret.
  rewrite Hbs. cbn [records arrays].
  rewrite (filter_from_pure _ (λ records b, negb (listed records bulletIds b))
             bullets (length (arrays σ)) ltac:(lia) ltac:(done) (length bs) 0 () _ bs []);
    cbn [records arrays].
  - rewrite drop_0, app_nil_l. do 2 f_equal.
    rewrite insert_app_r_alt, Nat.sub_diag by done. cbn. do 2 f_equal.
    apply list_filter_iff. intros b. by destruct (listed (records σ) bulletIds b).
  - by rewrite lookup_app_l.
  - by rewrite lookup_app_r, Nat.sub_diag.
  - done.
Qed.

Lemma listed_app records ids1 ids2 b :
  listed records (ids1 ++ ids2) b = listed records ids1 b || listed records ids2 b.
Proof.
  unfold listed, includes. destruct (property_of _ _) as [id|]; [|done].
  apply eq_bool_prop_intro. rewrite orb_True, !bool_decide_spec. apply elem_of_app.
Qed.

(** X22: [deleteBulletsById] leaves the array it is given, and everything
    else, as it was, and returns a new array: the bullets of the input
    whose [id] is not listed, in their order.  A bullet that has no [id] is
    never taken out.  The call does not throw. *)
Theorem deleteBulletsById_takes_out_the_listed σ bullets bulletIds bs :
  arrays σ !! bullets = Some bs →
  ∃ result σ' rest,
    deleteBulletsById bullets bulletIds σ = (Ok result, σ') ∧
    frame σ σ' ∧
    arrays σ !! result = None ∧
    arrays σ' !! result = Some rest ∧
    rest `sublist_of` bs ∧
    ∀ b, b ∈ rest ↔
         b ∈ bs ∧ ∀ id, property_of (payload (records σ b)) "id" = Some id → id ∉ bulletIds.
Proof.
  intros Hbs. eexists _, _, _. split; [by apply deleteBulletsById_run|].
  cbn [records arrays]. split_and!.
  - split; [done|]. intros l x Hl. by apply lookup_app_l_Some.
  - by apply lookup_ge_None.
  - by rewrite lookup_app_r, Nat.sub_diag.
  - apply sublist_filter.
  - intros b. rewrite list_elem_of_filter. unfold listed, includes.
    destruct (property_of _ _) as [id|].
    + rewrite bool_decide_eq_false. split.
      * intros [Hid Hb]. split; [done|]. by intros ? [= <-].
      * intros [Hb Hid]. split; [by apply Hid|done].
    + split; [intros [_ Hb]; by split|intros [Hb _]; by split].
Qed.

Lemma deleteBulletsById_takes_out_the_listed_witness :
  ∃ result σ' rest,
    deleteBulletsById 0 ["A2"; "B1"; "C7"]%string with_ids = (Ok result, σ') ∧
    frame with_ids σ' ∧
    arrays with_ids !! result = None ∧
    arrays σ' !! result = Some rest ∧
    rest `sublist_of` [0; 1; 2; 3] ∧
    ∀ b, b ∈ rest ↔
         b ∈ [0; 1; 2; 3] ∧
         ∀ id, property_of (payload (records with_ids b)) "id" = Some id →
               id ∉ ["A2"; "B1"; "C7"]%string.
Proof. apply deleteBulletsById_takes_out_the_listed. reflexivity. Defined.

(** X23: taking out the bullets of one list of ids and then, from the array
    returned, those of a second list gives the bullets that one call with
    both lists gives. *)
Theorem deleteBulletsById_twice σ bullets ids1 ids2 bs :
  arrays σ !! bullets = Some bs →
  ∃ r1 σ1 r2 σ2 r σ' rest,
    deleteBulletsById bullets ids1 σ = (Ok r1, σ1) ∧
    deleteBulletsById r1 ids2 σ1 = (Ok r2, σ2) ∧
    deleteBulletsById bullets (ids1 ++ ids2) σ = (Ok r, σ') ∧
    arrays σ2 !! r2 = Some rest ∧
    arrays σ' !! r = Some rest.
Proof.
  intros Hbs. eexists _, _, _, _, _, _, _.
  split; [by apply deleteBulletsById_run|].
  split; [apply deleteBulletsById_run; cbn [arrays]; by rewrite lookup_app_r, Nat.sub_diag|].
  split; [by apply deleteBulletsById_run|].
  cbn [records arrays]. split.
  - rewrite lookup_app_r by done. by rewrite Nat.sub_diag.
  - rewrite lookup_app_r, Nat.sub_diag by done. cbn. f_equal.
    rewrite list_filter_filter. apply list_filter_iff. intros b.
    rewrite listed_app, orb_false_iff. tauto.
Qed.

Lemma deleteBulletsById_twice_witness :
  ∃ r1 σ1 r2 σ2 r σ' rest,
    deleteBulletsById 0 ["A2"]%string with_ids = (Ok r1, σ1) ∧
    deleteBulletsById r1 ["B1"]%string σ1 = (Ok r2, σ2) ∧
    deleteBulletsById 0 (["A2"%string] ++ ["B1"%string]) with_ids = (Ok r, σ') ∧
    arrays σ2 !! r2 = Some rest ∧
    arrays σ' !! r = Some rest.
Proof. apply (deleteBulletsById_twice with_ids 0 _ _ [0; 1; 2; 3]). reflexivity. Defined.
